(** * Chess opening viewer: notation parser and playback controller

    A shallow embedding of [src/app.py]:
    - [parse_assets] with its inner [flush_variation] (the notation parser),
    - [BoardCanvas] ([reset_pieces_from_board], [animate_move] and its
      [frame] closure, the last-move arrow and the check halo),
    - [OpeningViewerApp] (selection, [play_move_sequence_to] with its
      [step_to] / [after_anim] closures, [on_prev], [on_next], reload)
      run by an event loop that holds the pending [after] timers.

    Python strings are modelled as Rocq strings of 8-bit characters; the
    character classes below are those of Python on ASCII text.  The chess
    library (python-chess) is an external collaborator and enters as a
    record of operations, [RulesEngine]. *)

From Stdlib Require Import ZArith Ascii String DecimalString List Bool Lia.
From stdpp Require Import base gmap strings list sorting.

Open Scope Z_scope.

(* ===================================================================== *)
(** * Python string primitives (ASCII) *)
(* ===================================================================== *)

Module PyStr.

(** [str.isspace] on one ASCII character: TAB, LF, VT, FF, CR, the four
    separators 0x1c..0x1f and the space. *)
Definition is_space (c : ascii) : bool :=
  let n := N_of_ascii c in
  ((9 <=? n) && (n <=? 13) || (28 <=? n) && (n <=? 32))%N.

(** [\d] on ASCII. *)
Definition is_digit (c : ascii) : bool :=
  let n := N_of_ascii c in ((48 <=? n) && (n <=? 57))%N.

(** Membership of a character in the string given to [lstrip]/[rstrip]. *)
Fixpoint mem_char (c : ascii) (chars : string) : bool :=
  match chars with
  | EmptyString => false
  | String d r => Ascii.eqb c d || mem_char c r
  end.

Fixpoint lstrip_by (p : ascii -> bool) (s : string) : string :=
  match s with
  | EmptyString => EmptyString
  | String c r => if p c then lstrip_by p r else s
  end.

Fixpoint rstrip_by (p : ascii -> bool) (s : string) : string :=
  match s with
  | EmptyString => EmptyString
  | String c r =>
      match rstrip_by p r with
      | EmptyString => if p c then EmptyString else String c EmptyString
      | r' => String c r'
      end
  end.

(** [s.strip()], [s.rstrip()], [s.lstrip(chars)], [s.rstrip(chars)]. *)
Definition strip (s : string) : string := rstrip_by is_space (lstrip_by is_space s).
Definition rstrip (s : string) : string := rstrip_by is_space s.
Definition lstrip_chars (chars s : string) : string :=
  lstrip_by (fun c => mem_char c chars) s.
Definition rstrip_chars (chars s : string) : string :=
  rstrip_by (fun c => mem_char c chars) s.

(** [s.startswith(p)]. *)
Fixpoint startswith (p s : string) : bool :=
  match p, s with
  | EmptyString, _ => true
  | String a p', String b s' => Ascii.eqb a b && startswith p' s'
  | String _ _, EmptyString => false
  end.

(** [set(s) <= set(chars)]. *)
Fixpoint all_in (chars s : string) : bool :=
  match s with
  | EmptyString => true
  | String c r => mem_char c chars && all_in chars r
  end.

Definition is_empty (s : string) : bool :=
  match s with EmptyString => true | _ => false end.

(** Line boundaries of [str.splitlines] on ASCII text: LF, CR, CR LF, VT,
    FF, FS, GS, RS. *)
Definition is_linebreak (c : ascii) : bool :=
  let n := N_of_ascii c in
  ((10 <=? n) && (n <=? 13) || (28 <=? n) && (n <=? 30))%N.

Definition snoc (s : string) (c : ascii) : string := s +:+ String c EmptyString.

(** [cur] is the line read so far; [started] tells whether a line is open
    (a text that ends in a line break yields no trailing empty line). *)
Fixpoint splitlines_from (cur : string) (started : bool) (s : string) : list string :=
  match s with
  | EmptyString => if started then [cur] else []
  | String c r =>
      if is_linebreak c then
        match c, r with
        | "013"%char, String "010"%char r' => cur :: splitlines_from EmptyString false r'
        | _, _ => cur :: splitlines_from EmptyString false r
        end
      else splitlines_from (snoc cur c) true r
  end.

Definition splitlines (s : string) : list string := splitlines_from EmptyString false s.

(** [s.split()]: the maximal runs of non-space characters. *)
Fixpoint split_from (cur : string) (s : string) : list string :=
  match s with
  | EmptyString => if is_empty cur then [] else [cur]
  | String c r =>
      if is_space c
      then (if is_empty cur then split_from EmptyString r
            else cur :: split_from EmptyString r)
      else split_from (snoc cur c) r
  end.

Definition split (s : string) : list string := split_from EmptyString s.

(** [sep.join(l)]. *)
Fixpoint join (sep : string) (l : list string) : string :=
  match l with
  | [] => EmptyString
  | [x] => x
  | x :: r => x +:+ sep +:+ join sep r
  end.

(** [re.sub(r"\{\s*.*?\s*\}", "", ln)] on a string without a line feed (the
    lines come from [splitlines]): every span from an opening brace to the
    next closing brace goes; an opening brace with no closing brace after
    it stays. *)
Fixpoint sub_braces (skipping : bool) (s : string) : string :=
  match s with
  | EmptyString => EmptyString
  | String c r =>
      if skipping then
        (if Ascii.eqb c "}"%char then sub_braces false r else sub_braces true r)
      else if Ascii.eqb c "{"%char && mem_char "}"%char r then sub_braces true r
      else String c (sub_braces false r)
  end.

(** [re.sub(r"\d+\.(\.\.)?", "", ln)]: a maximal run of digits followed by a
    dot goes, with two more dots when they follow.  [pending] is the digit
    run being read. *)
Fixpoint sub_move_numbers (pending : string) (s : string) : string :=
  match s with
  | EmptyString => pending
  | String c r =>
      if is_digit c then sub_move_numbers (snoc pending c) r
      else if Ascii.eqb c "."%char && negb (is_empty pending) then
        match r with
        | String "."%char (String "."%char r') => sub_move_numbers EmptyString r'
        | _ => sub_move_numbers EmptyString r
        end
      else pending +:+ String c (sub_move_numbers EmptyString r)
  end.

(** [re.sub(r"[!?+#]+$", "", tok)]: on a token (no line feed) this is the
    removal of the trailing run of annotation glyphs. *)
Definition sub_trailing_glyphs (tok : string) : string := rstrip_chars "!?+#" tok.

End PyStr.

(* ===================================================================== *)
(** * The chess library, as the program uses it *)
(* ===================================================================== *)

Inductive PieceType := PAWN | KNIGHT | BISHOP | ROOK | QUEEN | KING.

Record Piece := mkPiece { piece_type : PieceType; color : bool }.

#[global] Instance PieceType_eq_dec : EqDecision PieceType.
Proof. solve_decision. Defined.

#[global] Instance Piece_eq_dec : EqDecision Piece.
Proof. solve_decision. Defined.

(** The operations of python-chess that [app.py] calls.  [parse_san] either
    resolves a token or raises, and the text of the exception is what the
    parser prints.  [move_is_en_passant] stands for the attribute access
    [move.is_en_passant()] of [animate_move]: [None] is a raised
    [AttributeError]. *)
Record RulesEngine := {
  Board : Type;
  Move : Type;
  new_board : Board;
  board_from_fen : string -> Board;
  fen : Board -> string;
  parse_san : Board -> string -> Move + string;
  uci : Move -> string;
  from_uci : string -> Move;
  from_square : Move -> Z;
  to_square : Move -> Z;
  push : Board -> Move -> Board;
  piece_at : Board -> Z -> option Piece;
  is_capture : Board -> Move -> bool;
  move_is_en_passant : Move -> option bool;
  is_check : Board -> bool;
  king_to_move : Board -> option Z
}.

(* ===================================================================== *)
(** * The notation parser: [parse_assets] *)
(* ===================================================================== *)

(** One entry of an opening's list: the dict built in [flush_variation]. *)
Record Variation := mkVariation {
  name : string;
  moves_san : list string;
  moves_uci : list string;
  states_fen : list string
}.

(** [openings.setdefault(k, []).append(x)]. *)
Definition setdefault_append (k : string) (x : Variation)
    (m : gmap string (list Variation)) : gmap string (list Variation) :=
  <[k := default [] (m !! k) ++ [x]]> m.

(** The locals of one pass over a file, with the dict being filled and the
    lines printed so far. *)
Record PState := mkPState {
  openings : gmap string (list Variation);
  printed : list string;
  cur_opening : option string;
  cur_variation : option string;
  cur_moves_lines : list string
}.

Definition LF : string := String "010"%char EmptyString.

Section Parser.

Variable E : RulesEngine.

(** The body of [for ln in cur_moves_lines]. *)
Definition line_tokens (ln : string) : list string :=
  let ln := PyStr.sub_braces false ln in
  let ln := PyStr.sub_move_numbers EmptyString ln in
  let ln := PyStr.strip ln in
  if PyStr.is_empty ln then [] else PyStr.split ln.

Definition keep_token (t : string) : bool :=
  negb (PyStr.is_empty (PyStr.strip t)) && negb (String.eqb (PyStr.strip t) "...").

Definition extract_tokens (lines : list string) : list string :=
  List.filter keep_token (List.concat (List.map line_tokens lines)).

Definition warning (tok o v e : string) : string :=
  "Warning: could not parse move '" +:+ tok +:+ "' in " +:+ o +:+ " -> " +:+ v +:+ ": " +:+ e.

(** What [for tok in tokens] has built when it ends or breaks. *)
Record Resolved := mkResolved {
  r_ucis : list string;
  r_fens : list string;
  r_sans : list string;
  r_printed : list string
}.

Fixpoint resolve (o v : string) (tokens : list string) (board : Board E)
    (ucis fens sans : list string) : Resolved :=
  match tokens with
  | [] => mkResolved ucis fens sans []
  | tok :: rest =>
      let tok_clean := PyStr.sub_trailing_glyphs tok in
      match parse_san E board tok_clean with
      | inl move =>
          let board' := push E board move in
          resolve o v rest board' (ucis ++ [uci E move]) (fens ++ [fen E board'])
                  (sans ++ [tok])
      | inr e => mkResolved ucis fens sans [warning tok o v e]
      end
  end.

(** The part of [flush_variation] after its two guards: the variation
    object and what was printed while building it. *)
Definition build_variation (o v : string) (lines : list string)
    : Variation * list string :=
  let tokens := extract_tokens lines in
  let board := new_board E in
  let r := resolve o v tokens board [] [fen E board] [] in
  (mkVariation v (r_sans r) (r_ucis r) (r_fens r), r_printed r).

Definition flush_variation (st : PState) : PState :=
  match cur_opening st, cur_variation st with
  | Some o, Some v =>
      let moves_text := PyStr.strip (PyStr.join LF (cur_moves_lines st)) in
      if PyStr.is_empty moves_text then st
      else
        let '(variation_obj, out) := build_variation o v (cur_moves_lines st) in
        mkPState (setdefault_append o variation_obj (openings st))
                 (printed st ++ out) (Some o) (Some v) []
  | _, _ => st
  end.

Definition header_name (line_stripped : string) : string :=
  PyStr.rstrip_chars ":" (PyStr.strip (PyStr.lstrip_chars "* " line_stripped)).

Definition is_separator (line_stripped : string) : bool :=
  PyStr.startswith "-" line_stripped && PyStr.all_in "- " line_stripped.

(** The body of [for line in lines]. *)
Definition process_line (st : PState) (line : string) : PState :=
  let line_stripped := PyStr.strip line in
  if PyStr.startswith "**" line_stripped then
    let st := flush_variation st in
    mkPState (openings st) (printed st) (Some (header_name line_stripped)) None []
  else if PyStr.startswith "*" line_stripped then
    let st := flush_variation st in
    mkPState (openings st) (printed st) (cur_opening st)
             (Some (header_name line_stripped)) []
  else if is_separator line_stripped then
    let st := flush_variation st in
    mkPState (openings st) (printed st) (cur_opening st) None []
  else
    match cur_variation st with
    | Some _ =>
        if negb (PyStr.is_empty (PyStr.strip line))
        then mkPState (openings st) (printed st) (cur_opening st) (cur_variation st)
                      (cur_moves_lines st ++ [PyStr.rstrip line])
        else st
    | None => st
    end.

Definition process_lines (st : PState) (lines : list string) : PState :=
  fold_left process_line lines st.

(** The body of [for fp in files], from [lines = text.splitlines()] on. *)
Definition parse_lines (acc : gmap string (list Variation) * list string)
    (lines : list string) : gmap string (list Variation) * list string :=
  let st0 := mkPState (fst acc) (snd acc) None None [] in
  let st := flush_variation (process_lines st0 lines) in
  (openings st, printed st).

Definition parse_file (acc : gmap string (list Variation) * list string)
    (text : string) : gmap string (list Variation) * list string :=
  parse_lines acc (PyStr.splitlines text).

(** [parse_assets], on the texts of the files that [glob] lists, in its
    order; the second component is the standard output. *)
Definition parse_assets_out (files : list string)
    : gmap string (list Variation) * list string :=
  fold_left parse_file files (∅, []).

Definition parse_assets (files : list string) : gmap string (list Variation) :=
  fst (parse_assets_out files).

End Parser.

(* ===================================================================== *)
(** * Python list access *)
(* ===================================================================== *)

(** [l[i]]: a negative index counts from the end; [None] is [IndexError]. *)
Definition py_index {A} (l : list A) (i : Z) : option A :=
  let n := Z.of_nat (length l) in
  if (0 <=? i) && (i <? n) then l !! Z.to_nat i
  else if (- n <=? i) && (i <? 0) then l !! Z.to_nat (n + i)
  else None.

(** [l[:n]]: a negative bound counts from the end. *)
Definition py_slice_to {A} (l : list A) (n : Z) : list A :=
  if n <? 0 then take (Z.to_nat (Z.of_nat (length l) + n)) l
  else take (Z.to_nat n) l.

(* ===================================================================== *)
(** * The board canvas *)
(* ===================================================================== *)

Definition ANIM_MS : Z := 500.
Definition ANIM_FRAMES : Z := 25.
Definition SQUARE_SIZE : Z := 64.
Definition BOARD_PADDING : Z := 8.

(** [chess.SQUARES], [chess.square_file], [chess.square_rank],
    [chess.square]. *)
Definition SQUARES : list Z := seqZ 0 64.
Definition square_file (sq : Z) : Z := Z.land sq 7.
Definition square_rank (sq : Z) : Z := Z.shiftr sq 3.
Definition square (file rank : Z) : Z := rank * 8 + file.

Definition square_to_xy (square_index : Z) : Z * Z :=
  let file := square_file square_index in
  let rank := square_rank square_index in
  (BOARD_PADDING + file * SQUARE_SIZE, BOARD_PADDING + (7 - rank) * SQUARE_SIZE).

(** What Tk draws for the pieces, the arrow and the halo.  Coordinates of
    a piece are kept in units of 1/[ANIM_FRAMES] pixel, so that the offset
    of one frame, [(tx_c - fx_c) / frames], a float in the source, is the
    integer [tx_c - fx_c] here. *)
Inductive Item :=
| PieceItem (as_image : bool) (p : Piece) (x25 y25 : Z)
| ArrowLine (fx_c fy_c tx_c ty_c : Z)
| CheckOval (cx cy r : Z).

Definition nudge (dx dy : Z) (it : Item) : Item :=
  match it with
  | PieceItem im p x y => PieceItem im p (x + dx) (y + dy)
  | other => other
  end.

Section Playback.

Variable E : RulesEngine.

(** The fields of [BoardCanvas] and, in [shown] and [next_id], the items
    of the underlying Tk canvas (Tk numbers them upwards from 1 and never
    reuses a number, so an item id is truthy exactly when it is there). *)
Record Canvas := mkCanvas {
  has_images : bool;
  images_on_board : gmap Z Z;
  text_items : gmap Z Z;
  arrow_item : option Z;
  check_item : option Z;
  current_board : Board E;
  shown : gmap Z Item;
  next_id : Z
}.

Definition tk_delete (id : Z) (c : Canvas) : Canvas :=
  mkCanvas (has_images c) (images_on_board c) (text_items c) (arrow_item c)
           (check_item c) (current_board c) (delete id (shown c)) (next_id c).

Definition tk_create (it : Item) (c : Canvas) : Z * Canvas :=
  (next_id c,
   mkCanvas (has_images c) (images_on_board c) (text_items c) (arrow_item c)
            (check_item c) (current_board c) (<[next_id c := it]> (shown c))
            (next_id c + 1)).

Definition tk_move (id dx dy : Z) (c : Canvas) : Canvas :=
  mkCanvas (has_images c) (images_on_board c) (text_items c) (arrow_item c)
           (check_item c) (current_board c) (alter (nudge dx dy) id (shown c))
           (next_id c).

Definition set_images (m : gmap Z Z) (c : Canvas) : Canvas :=
  mkCanvas (has_images c) m (text_items c) (arrow_item c) (check_item c)
           (current_board c) (shown c) (next_id c).

Definition set_texts (m : gmap Z Z) (c : Canvas) : Canvas :=
  mkCanvas (has_images c) (images_on_board c) m (arrow_item c) (check_item c)
           (current_board c) (shown c) (next_id c).

Definition set_arrow (a : option Z) (c : Canvas) : Canvas :=
  mkCanvas (has_images c) (images_on_board c) (text_items c) a (check_item c)
           (current_board c) (shown c) (next_id c).

Definition set_check (a : option Z) (c : Canvas) : Canvas :=
  mkCanvas (has_images c) (images_on_board c) (text_items c) (arrow_item c) a
           (current_board c) (shown c) (next_id c).

Definition set_board (b : Board E) (c : Canvas) : Canvas :=
  mkCanvas (has_images c) (images_on_board c) (text_items c) (arrow_item c)
           (check_item c) b (shown c) (next_id c).

Definition centre (sq : Z) : Z * Z :=
  let '(x, y) := square_to_xy sq in (x + SQUARE_SIZE / 2, y + SQUARE_SIZE / 2).

Definition piece_item (as_image : bool) (p : Piece) (sq : Z) : Item :=
  let '(cx, cy) := centre sq in PieceItem as_image p (cx * ANIM_FRAMES) (cy * ANIM_FRAMES).

(** The body of [for sq in chess.SQUARES] in [reset_pieces_from_board]. *)
Definition place_piece (board : Board E) (c : Canvas) (sq : Z) : Canvas :=
  match piece_at E board sq with
  | Some piece =>
      let '(item, c) := tk_create (piece_item (has_images c) piece sq) c in
      if has_images c then set_images (<[sq := item]> (images_on_board c)) c
      else set_texts (<[sq := item]> (text_items c)) c
  | None => c
  end.

Definition delete_all (ids : list Z) (c : Canvas) : Canvas :=
  fold_left (fun c id => tk_delete id c) ids c.

Definition clear_arrow (c : Canvas) : Canvas :=
  match arrow_item c with
  | Some a => set_arrow None (tk_delete a c)
  | None => c
  end.

Definition clear_check (c : Canvas) : Canvas :=
  match check_item c with
  | Some a => set_check None (tk_delete a c)
  | None => c
  end.

Definition reset_pieces_from_board (board : Board E) (c : Canvas) : Canvas :=
  let c := delete_all (snd <$> map_to_list (images_on_board c)) c in
  let c := delete_all (snd <$> map_to_list (text_items c)) c in
  let c := set_texts ∅ (set_images ∅ c) in
  let c := set_board board c in
  let c := fold_left (place_piece board) SQUARES c in
  clear_check (clear_arrow c).

Definition _draw_last_move_arrow (from_sq to_sq : Z) (c : Canvas) : Canvas :=
  let c := clear_arrow c in
  let '(fx_c, fy_c) := centre from_sq in
  let '(tx_c, ty_c) := centre to_sq in
  let '(line, c) := tk_create (ArrowLine fx_c fy_c tx_c ty_c) c in
  set_arrow (Some line) c.

Definition highlight_check (board : Board E) (c : Canvas) : Canvas :=
  let c := clear_check c in
  if is_check E board then
    match king_to_move E board with
    | Some ksq =>
        let '(cx, cy) := centre ksq in
        let r := SQUARE_SIZE * 48 / 100 in
        let '(oval, c) := tk_create (CheckOval cx cy r) c in
        set_check (Some oval) c
    | None => c
    end
  else c.

(** [if sq in self.images_on_board: delete ...; if sq in self.text_items:
    delete ...], as it occurs three times in [animate_move]. *)
Definition remove_piece_items (sq : Z) (c : Canvas) : Canvas :=
  let c := match images_on_board c !! sq with
           | Some id => set_images (delete sq (images_on_board c)) (tk_delete id c)
           | None => c
           end in
  match text_items c !! sq with
  | Some id => set_texts (delete sq (text_items c)) (tk_delete id c)
  | None => c
  end.

Definition on_canvas (sq : Z) (c : Canvas) : bool :=
  bool_decide (is_Some (images_on_board c !! sq))
  || bool_decide (is_Some (text_items c !! sq)).

(* --------------------------------------------------------------------- *)
(** ** The application and its event loop *)
(* --------------------------------------------------------------------- *)

(** The text of the status label, kept by its parts:
    ["No variation selected"], ["Loaded n openings"] and
    ["{opening} - {variation} ({index}/{total})"]. *)
Inductive Status :=
| StatusNone
| StatusLoaded (n : nat)
| StatusAt (opening : option string) (variation : string) (index total : Z).

(** The closure [after_anim] of [step_to]: the variables it reads. *)
Record AfterAnim := mkAfterAnim {
  aa_var : Variation;
  aa_max_moves : Z;
  aa_idx_to : Z;
  aa_next_index : Z;
  aa_uci : string;
  aa_board_before : Board E
}.

(** The closure [lambda: frame(i+1)] handed to [self.after]. *)
Record Frame := mkFrame {
  fr_i : Z;
  fr_moving_item : Z;
  fr_captured_item_sq : option Z;
  fr_from_sq : Z;
  fr_to_sq : Z;
  fr_moving_piece : Piece;
  fr_callback : option AfterAnim
}.

Inductive Exn :=
| KeyError_openings
| IndexError_variations
| IndexError_moves_uci
| IndexError_states_fen
| AttributeError_is_en_passant
| DepthExhausted.

(** A log kept beside the program: each call of [animate_move] with the
    move and the value of [current_move_index] at that moment, each
    invocation of a completion callback, and each exception that reached
    the event loop. *)
Inductive Call :=
| CAnimate (uci_move : string) (cursor : Z)
| CCallback
| CRaised (e : Exn).

(** The fields of [OpeningViewerApp], the timers pending in Tk's event
    loop (all set with the same delay, hence served first in, first out),
    the standard output and the log. *)
Record App := mkApp {
  app_openings : gmap string (list Variation);
  current_opening : option string;
  current_variation_idx : option Z;
  current_move_index : Z;
  playing_animation : bool;
  board_canvas : Canvas;
  status : Status;
  timers : list Frame;
  stdout : list string;
  calls : list Call
}.

Definition with_canvas (f : Canvas -> Canvas) (a : App) : App :=
  mkApp (app_openings a) (current_opening a) (current_variation_idx a)
        (current_move_index a) (playing_animation a) (f (board_canvas a))
        (status a) (timers a) (stdout a) (calls a).

Definition set_move_index (i : Z) (a : App) : App :=
  mkApp (app_openings a) (current_opening a) (current_variation_idx a) i
        (playing_animation a) (board_canvas a) (status a) (timers a) (stdout a)
        (calls a).

Definition set_status (s : Status) (a : App) : App :=
  mkApp (app_openings a) (current_opening a) (current_variation_idx a)
        (current_move_index a) (playing_animation a) (board_canvas a) s
        (timers a) (stdout a) (calls a).

Definition set_selection (o : option string) (v : option Z) (a : App) : App :=
  mkApp (app_openings a) o v (current_move_index a) (playing_animation a)
        (board_canvas a) (status a) (timers a) (stdout a) (calls a).

Definition set_timers (t : list Frame) (a : App) : App :=
  mkApp (app_openings a) (current_opening a) (current_variation_idx a)
        (current_move_index a) (playing_animation a) (board_canvas a)
        (status a) t (stdout a) (calls a).

Definition log_call (c : Call) (a : App) : App :=
  mkApp (app_openings a) (current_opening a) (current_variation_idx a)
        (current_move_index a) (playing_animation a) (board_canvas a)
        (status a) (timers a) (stdout a) (calls a ++ [c]).

(** A handler returns normally or raises; the state it has reached stays
    either way. *)
Inductive Result :=
| Ok (a : App)
| Raised (e : Exn) (a : App).

Definition state_of (r : Result) : App :=
  match r with Ok a => a | Raised _ a => a end.

(** [self.status.config(text=f"{self.current_opening} - {var['name']}
    ({self.current_move_index}/{max_moves})")]. *)
Definition show_position (var : Variation) (max_moves : Z) (a : App) : App :=
  set_status (StatusAt (current_opening a) (name var) (current_move_index a) max_moves) a.

(** [board = chess.Board(fen0); for m in ucis: board.push(Move.from_uci(m))]. *)
Definition replay (fen0 : string) (ucis : list string) : Board E :=
  fold_left (fun b m => push E b (from_uci E m)) ucis (board_from_fen E fen0).

(** [if callback: callback()]. *)
Definition call_back (invoke : AfterAnim -> App -> Result)
    (callback : option AfterAnim) (a : App) : Result :=
  match callback with
  | Some cb => invoke cb (log_call CCallback a)
  | None => Ok a
  end.

(** The two early exits of [animate_move]: draw the position after the
    move and complete at once. *)
Definition animate_fallback (invoke : AfterAnim -> App -> Result)
    (board_before : Board E) (move : Move E) (callback : option AfterAnim)
    (a : App) : Result :=
  let new_board := push E board_before move in
  call_back invoke callback (with_canvas (reset_pieces_from_board new_board) a).

(** [frame(i)].  [invoke] runs a completion callback. *)
Definition frame (invoke : AfterAnim -> App -> Result) (f : Frame) (a : App) : Result :=
  let frames := ANIM_FRAMES in
  let '(fx_c, fy_c) := centre (fr_from_sq f) in
  let '(tx_c, ty_c) := centre (fr_to_sq f) in
  if fr_i f >=? frames then
    let a := with_canvas (tk_delete (fr_moving_item f)) a in
    let a := match fr_captured_item_sq f with
             | Some sq => with_canvas (remove_piece_items sq) a
             | None => a
             end in
    let a := with_canvas (fun c =>
               let '(item_id, c) :=
                 tk_create (piece_item (has_images c) (fr_moving_piece f) (fr_to_sq f)) c in
               if has_images c
               then set_images (<[fr_to_sq f := item_id]> (images_on_board c)) c
               else set_texts (<[fr_to_sq f := item_id]> (text_items c)) c) a in
    let a := with_canvas (_draw_last_move_arrow (fr_from_sq f) (fr_to_sq f)) a in
    call_back invoke (fr_callback f) a
  else
    let a := with_canvas (tk_move (fr_moving_item f) (tx_c - fx_c) (ty_c - fy_c)) a in
    let a := match fr_captured_item_sq f with
             | Some sq =>
                 if fr_i f =? frames / 2 then with_canvas (remove_piece_items sq) a else a
             | None => a
             end in
    Ok (set_timers (timers a ++ [mkFrame (fr_i f + 1) (fr_moving_item f)
                                   (fr_captured_item_sq f) (fr_from_sq f) (fr_to_sq f)
                                   (fr_moving_piece f) (fr_callback f)]) a).

(** [item = self.images_on_board.get(sq) or self.text_items.get(sq)]. *)
Definition item_at (sq : Z) (c : Canvas) : option Z :=
  match images_on_board c !! sq with
  | Some id => if id =? 0 then text_items c !! sq else Some id
  | None => text_items c !! sq
  end.

(** The search for the square of the captured piece in [animate_move]. *)
Definition find_captured_item_sq (move : Move E) (moving_piece : Piece)
    (captured : option Piece) (c : Canvas) : Exn + option Z :=
  let to_sq := to_square E move in
  match captured with
  | Some _ =>
      if on_canvas to_sq c then inr (Some to_sq)
      else
        match move_is_en_passant E move with
        | None => inl AttributeError_is_en_passant
        | Some true =>
            let cap_sq := square (square_file to_sq)
                            (square_rank to_sq + (if color moving_piece then 1 else -1)) in
            if on_canvas cap_sq c then inr (Some cap_sq) else inr None
        | Some false => inr None
        end
  | None => inr None
  end.

Definition animate_move (invoke : AfterAnim -> App -> Result)
    (board_before : Board E) (uci_move : string) (callback : option AfterAnim)
    (a : App) : Result :=
  let a := log_call (CAnimate uci_move (current_move_index a)) a in
  let move := from_uci E uci_move in
  let from_sq := from_square E move in
  let to_sq := to_square E move in
  let captured := if is_capture E board_before move
                  then piece_at E board_before to_sq else None in
  match piece_at E board_before from_sq with
  | None => animate_fallback invoke board_before move callback a
  | Some moving_piece =>
      match item_at from_sq (board_canvas a) with
      | None => animate_fallback invoke board_before move callback a
      | Some _ =>
          let '(cx, cy) := centre from_sq in
          let as_image := bool_decide (is_Some (images_on_board (board_canvas a) !! from_sq)) in
          let clone := PieceItem as_image moving_piece (cx * ANIM_FRAMES) (cy * ANIM_FRAMES) in
          let '(moving_item, c) := tk_create clone (board_canvas a) in
          let c := remove_piece_items from_sq c in
          let a := with_canvas (fun _ => c) a in
          match find_captured_item_sq move moving_piece captured c with
          | inl e => Raised e a
          | inr captured_item_sq =>
              frame invoke (mkFrame 0 moving_item captured_item_sq from_sq to_sq
                              moving_piece callback) a
          end
      end
  end.

(** [after_anim()], with [continue] the recursive call of [step_to]. *)
Definition after_anim (continue : Variation -> Z -> Z -> Z -> App -> Result)
    (cb : AfterAnim) (a : App) : Result :=
  let mv := from_uci E (aa_uci cb) in
  let board := push E (aa_board_before cb) mv in
  let a := with_canvas (reset_pieces_from_board board) a in
  let a := with_canvas (_draw_last_move_arrow (from_square E mv) (to_square E mv)) a in
  let a := with_canvas (highlight_check board) a in
  let a := set_move_index (aa_next_index cb) a in
  let a := show_position (aa_var cb) (aa_max_moves cb) a in
  continue (aa_var cb) (aa_max_moves cb) (aa_next_index cb) (aa_idx_to cb) a.

(** [step_to(idx_from, idx_to)] inside [play_move_sequence_to], which
    binds [var] and [max_moves].  A completion callback that runs inside
    [animate_move] calls [step_to] again, one ply further; [depth] bounds
    that nesting. *)
Fixpoint step_to_depth (depth : nat) (var : Variation) (max_moves : Z)
    (idx_from idx_to : Z) (a : App) : Result :=
  match depth with
  | O => Raised DepthExhausted a
  | S depth' =>
      if idx_from =? idx_to then
        Ok (show_position var max_moves (set_move_index idx_to a))
      else if idx_to >? idx_from then
        let next_index := idx_from + 1 in
        match py_index (moves_uci var) (next_index - 1) with
        | None => Raised IndexError_moves_uci a
        | Some uci_move =>
            match py_index (states_fen var) 0 with
            | None => Raised IndexError_states_fen a
            | Some fen0 =>
                let board_before :=
                  replay fen0 (py_slice_to (moves_uci var) (next_index - 1)) in
                let cb := mkAfterAnim var max_moves idx_to next_index uci_move board_before in
                animate_move (after_anim (step_to_depth depth')) board_before uci_move
                             (Some cb) a
            end
        end
      else
        match py_index (states_fen var) 0 with
        | None => Raised IndexError_states_fen a
        | Some fen0 =>
            let new_board := replay fen0 (py_slice_to (moves_uci var) idx_to) in
            let a := with_canvas (reset_pieces_from_board new_board) a in
            let drawn :=
              if idx_to >? 0 then
                match py_index (moves_uci var) (idx_to - 1) with
                | None => None
                | Some last_m =>
                    let mv := from_uci E last_m in
                    Some (with_canvas
                            (_draw_last_move_arrow (from_square E mv) (to_square E mv)) a)
                end
              else Some a in
            match drawn with
            | None => Raised IndexError_moves_uci a
            | Some a =>
                let a := with_canvas (highlight_check new_board) a in
                Ok (show_position var max_moves (set_move_index idx_to a))
            end
        end
  end.

(** Enough depth for every ply from [idx_from] to [idx_to]. *)
Definition step_to (var : Variation) (max_moves : Z) (idx_from idx_to : Z)
    (a : App) : Result :=
  step_to_depth (S (Z.to_nat (idx_to - idx_from))) var max_moves idx_from idx_to a.

(** Running a completion callback from the event loop. *)
Definition run_callback : AfterAnim -> App -> Result := after_anim step_to.

(** [self.openings[opening][vidx]]. *)
Definition get_variation (opening : string) (vidx : Z) (a : App) : Exn + Variation :=
  match app_openings a !! opening with
  | None => inl KeyError_openings
  | Some vars =>
      match py_index vars vidx with
      | None => inl IndexError_variations
      | Some var => inr var
      end
  end.

Definition play_move_sequence_to (target_move_count : Z) (a : App) : Result :=
  match current_opening a, current_variation_idx a with
  | Some opening, Some vidx =>
      match get_variation opening vidx a with
      | inl e => Raised e a
      | inr var =>
          let max_moves := Z.of_nat (length (moves_uci var)) in
          let target_move_count := Z.max 0 (Z.min target_move_count max_moves) in
          step_to var max_moves (current_move_index a) target_move_count a
      end
  | _, _ => Ok a
  end.

Definition on_prev (a : App) : Result :=
  match current_opening a, current_variation_idx a with
  | Some _, Some _ => play_move_sequence_to (current_move_index a - 1) a
  | _, _ => Ok a
  end.

Definition on_next (a : App) : Result :=
  match current_opening a, current_variation_idx a with
  | Some _, Some _ => play_move_sequence_to (current_move_index a + 1) a
  | _, _ => Ok a
  end.

Definition open_variation (opening : string) (vidx : Z) (a : App) : Result :=
  let a := set_selection (Some opening) (Some vidx) a in
  let a := set_move_index 0 a in
  let a := with_canvas (reset_pieces_from_board (new_board E)) a in
  match get_variation opening vidx a with
  | inl e => Raised e a
  | inr var =>
      Ok (set_status (StatusAt (Some opening) (name var) 0
                        (Z.of_nat (length (moves_san var)))) a)
  end.

Definition open_and_jump (opening : string) (vidx : Z) (move_count : Z) (a : App) : Result :=
  match app_openings a !! opening with
  | None => Ok a
  | Some _ =>
      match get_variation opening vidx a with
      | inl e => Raised e a
      | inr _ =>
          play_move_sequence_to move_count (set_selection (Some opening) (Some vidx) a)
      end
  end.

(** [populate_tree], the tree widget apart: it resets the playback state. *)
Definition populate_tree (a : App) : App :=
  let a := set_selection None None a in
  let a := set_move_index 0 a in
  let a := with_canvas (reset_pieces_from_board (new_board E)) a in
  set_status (StatusLoaded (size (app_openings a))) a.

(** [reload_assets], on the texts of the files found in the assets folder. *)
Definition reload_assets (files : list string) (a : App) : App :=
  let '(ops, out) := parse_assets_out E files in
  populate_tree
    (mkApp ops (current_opening a) (current_variation_idx a) (current_move_index a)
           (playing_animation a) (board_canvas a) (status a) (timers a)
           (stdout a ++ out) (calls a)).

(** [BoardCanvas.__init__] and [OpeningViewerApp.__init__].  The 64 squares
    of the grid are drawn first, take the ids 1 to 64 and are never touched
    again; they are left out of [shown]. *)
Definition new_canvas (images : bool) : Canvas :=
  reset_pieces_from_board (new_board E)
    (mkCanvas images ∅ ∅ None None (new_board E) ∅ 65).

Definition new_app (images : bool) (files : list string) : App :=
  let '(ops, out) := parse_assets_out E files in
  populate_tree
    (mkApp ops None None 0 false (new_canvas images) StatusNone [] out []).

(** What the event loop can deliver: a due timer, a click on a button, a
    selection in the tree (of a variation, or of its move number [midx]),
    a refresh. *)
Inductive Event :=
| Timer
| ClickPrev
| ClickNext
| SelectVariation (opening : string) (vidx : Z)
| SelectMove (opening : string) (vidx midx : Z)
| Refresh (files : list string).

Definition dispatch (ev : Event) (a : App) : Result :=
  match ev with
  | Timer =>
      match timers a with
      | [] => Ok a
      | f :: rest => frame run_callback f (set_timers rest a)
      end
  | ClickPrev => on_prev a
  | ClickNext => on_next a
  | SelectVariation opening vidx => open_variation opening vidx a
  | SelectMove opening vidx midx => open_and_jump opening vidx (midx + 1) a
  | Refresh files => Ok (reload_assets files a)
  end.

(** Tk reports an exception of a handler and goes on with the loop. *)
Definition handle (a : App) (ev : Event) : App :=
  match dispatch ev a with
  | Ok a' => a'
  | Raised e a' => log_call (CRaised e) a'
  end.

Definition run (a : App) (evs : list Event) : App := fold_left handle evs a.

End Playback.

Arguments has_images {E} c.
Arguments images_on_board {E} c.
Arguments text_items {E} c.
Arguments arrow_item {E} c.
Arguments check_item {E} c.
Arguments current_board {E} c.
Arguments shown {E} c.
Arguments next_id {E} c.
Arguments tk_delete {E} id c.
Arguments tk_create {E} it c.
Arguments tk_move {E} id dx dy c.
Arguments set_images {E} m c.
Arguments set_texts {E} m c.
Arguments set_arrow {E} a c.
Arguments set_check {E} a c.
Arguments set_board {E} b c.
Arguments place_piece {E} board c sq.
Arguments delete_all {E} ids c.
Arguments clear_arrow {E} c.
Arguments clear_check {E} c.
Arguments reset_pieces_from_board {E} board c.
Arguments _draw_last_move_arrow {E} from_sq to_sq c.
Arguments highlight_check {E} board c.
Arguments remove_piece_items {E} sq c.
Arguments on_canvas {E} sq c.
Arguments item_at {E} sq c.
Arguments aa_var {E} a.
Arguments aa_max_moves {E} a.
Arguments aa_idx_to {E} a.
Arguments aa_next_index {E} a.
Arguments aa_uci {E} a.
Arguments aa_board_before {E} a.
Arguments mkAfterAnim {E}.
Arguments fr_i {E} f.
Arguments fr_moving_item {E} f.
Arguments fr_captured_item_sq {E} f.
Arguments fr_from_sq {E} f.
Arguments fr_to_sq {E} f.
Arguments fr_moving_piece {E} f.
Arguments fr_callback {E} f.
Arguments mkFrame {E}.
Arguments app_openings {E} a.
Arguments current_opening {E} a.
Arguments current_variation_idx {E} a.
Arguments current_move_index {E} a.
Arguments playing_animation {E} a.
Arguments board_canvas {E} a.
Arguments status {E} a.
Arguments timers {E} a.
Arguments stdout {E} a.
Arguments calls {E} a.
Arguments mkApp {E}.
Arguments with_canvas {E} f a.
Arguments set_move_index {E} i a.
Arguments set_status {E} s a.
Arguments set_selection {E} o v a.
Arguments set_timers {E} t a.
Arguments log_call {E} c a.
Arguments Ok {E} a.
Arguments Raised {E} e a.
Arguments state_of {E} r.
Arguments show_position {E} var max_moves a.
Arguments call_back {E} invoke callback a.
Arguments animate_fallback {E} invoke board_before move callback a.
Arguments frame {E} invoke f a.
Arguments find_captured_item_sq {E} move moving_piece captured c.
Arguments animate_move {E} invoke board_before uci_move callback a.
Arguments after_anim {E} continue cb a.
Arguments step_to_depth {E} depth var max_moves idx_from idx_to a.
Arguments step_to {E} var max_moves idx_from idx_to a.
Arguments run_callback {E} cb a.
Arguments get_variation {E} opening vidx a.
Arguments play_move_sequence_to {E} target_move_count a.
Arguments on_prev {E} a.
Arguments on_next {E} a.
Arguments open_variation {E} opening vidx a.
Arguments open_and_jump {E} opening vidx move_count a.
Arguments populate_tree {E} a.
Arguments reload_assets {E} files a.
Arguments dispatch {E} ev a.
Arguments handle {E} a ev.
Arguments run {E} a evs.

(* ===================================================================== *)
(** * A small rules engine for the examples *)
(* ===================================================================== *)

(** A fragment of the chess rules, enough to run the program on concrete
    openings: pawn pushes, pawn captures and knight moves, with neither
    castling, promotion, en passant nor check detection.  On the tokens used
    in the examples below it answers as python-chess does; in particular a
    token that names no square of the board ([Qh9]) is an invalid SAN.
    [chess.Move] has no method [is_en_passant] (the test lives on the
    board, [Board.is_en_passant(move)]), so the attribute access of
    [animate_move] raises [AttributeError]. *)
Module MiniChess.

Record board := mkBoard {
  cells : gmap Z Piece;
  turn : bool;
  halfmove : nat;
  fullmove : nat
}.

Record move := mkMove { m_from : Z; m_to : Z }.

Definition chr (n : Z) : ascii := ascii_of_N (Z.to_N n).
Definition ord (c : ascii) : Z := Z.of_N (N_of_ascii c).

Definition sq_name (sq : Z) : string :=
  String (chr (97 + square_file sq)) (String (chr (49 + square_rank sq)) EmptyString).

Definition parse_sq (f r : ascii) : option Z :=
  if (97 <=? ord f) && (ord f <=? 104) && (49 <=? ord r) && (ord r <=? 56)
  then Some (square (ord f - 97) (ord r - 49)) else None.

Definition move_uci (m : move) : string := sq_name (m_from m) +:+ sq_name (m_to m).

Definition move_from_uci (s : string) : move :=
  match s with
  | String a (String b (String c (String d _))) =>
      match parse_sq a b, parse_sq c d with
      | Some x, Some y => mkMove x y
      | _, _ => mkMove 0 0
      end
  | _ => mkMove 0 0
  end.

Definition back_rank : list PieceType :=
  [ROOK; KNIGHT; BISHOP; QUEEN; KING; BISHOP; KNIGHT; ROOK].

Definition start_cells : gmap Z Piece :=
  list_to_map
    (imap (fun i t => (Z.of_nat i, mkPiece t true)) back_rank
     ++ imap (fun i t => (8 + Z.of_nat i, mkPiece PAWN true)) back_rank
     ++ imap (fun i t => (48 + Z.of_nat i, mkPiece PAWN false)) back_rank
     ++ imap (fun i t => (56 + Z.of_nat i, mkPiece t false)) back_rank).

Definition start : board := mkBoard start_cells true 0 1.

Definition at_sq (b : board) (sq : Z) : option Piece :=
  if (0 <=? sq) && (sq <? 64) then cells b !! sq else None.

Definition is_own (b : board) (t : PieceType) (sq : Z) : bool :=
  match at_sq b sq with
  | Some p => bool_decide (p = mkPiece t (turn b))
  | None => false
  end.

Definition is_enemy (b : board) (sq : Z) : bool :=
  match at_sq b sq with
  | Some p => negb (Bool.eqb (color p) (turn b))
  | None => false
  end.

Definition is_free (b : board) (sq : Z) : bool :=
  match at_sq b sq with Some _ => false | None => true end.

Definition captures (b : board) (m : move) : bool :=
  negb (m_from m =? m_to m) && is_enemy b (m_to m).

Definition do_push (b : board) (m : move) : board :=
  match at_sq b (m_from m) with
  | Some p =>
      let quiet := negb (captures b m) && negb (bool_decide (piece_type p = PAWN)) in
      mkBoard (<[m_to m := p]> (delete (m_from m) (cells b))) (negb (turn b))
              (if quiet then S (halfmove b) else O)
              (if turn b then fullmove b else S (fullmove b))
  | None => mkBoard (cells b) (negb (turn b)) (S (halfmove b))
                    (if turn b then fullmove b else S (fullmove b))
  end.

Definition quoted (s : string) : string := "'" +:+ s +:+ "'".

Definition knight_jumps : list (Z * Z) :=
  [(1, 2); (2, 1); (2, -1); (1, -2); (-1, -2); (-2, -1); (-2, 1); (-1, 2)].

Definition knight_sources (b : board) (to : Z) : list Z :=
  List.filter (is_own b KNIGHT)
    (omap (fun '(df, dr) =>
             let f := square_file to + df in
             let r := square_rank to + dr in
             if (0 <=? f) && (f <? 8) && (0 <=? r) && (r <? 8)
             then Some (square f r) else None) knight_jumps).

Definition do_parse_san (b : board) (san : string) : move + string :=
  let dir := if turn b then 1 else -1 in
  let illegal := inr ("illegal san: " +:+ quoted san) in
  let invalid := inr ("invalid san: " +:+ quoted san) in
  let knight (to : Z) :=
    if is_own b KNIGHT to || is_own b PAWN to then illegal
    else match knight_sources b to with
         | [from] => inl (mkMove from to)
         | [] => illegal
         | _ => inr ("ambiguous san: " +:+ quoted san)
         end in
  match san with
  | String f (String r EmptyString) =>
      match parse_sq f r with
      | Some to =>
          if negb (is_free b to) then illegal
          else if is_own b PAWN (to - 8 * dir) then inl (mkMove (to - 8 * dir) to)
          else if is_free b (to - 8 * dir) && is_own b PAWN (to - 16 * dir)
                  && (square_rank to =? (if turn b then 3 else 4))
               then inl (mkMove (to - 16 * dir) to)
          else illegal
      | None => invalid
      end
  | String f (String "x"%char (String g (String r EmptyString))) =>
      match parse_sq f r, parse_sq g r with
      | Some _, Some to =>
          if Ascii.eqb f "N"%char then invalid
          else
            let from := square (ord f - 97) (square_rank to - dir) in
            if is_own b PAWN from && is_enemy b to
               && (Z.abs (ord f - ord g) =? 1)
            then inl (mkMove from to) else illegal
      | _, Some to => if Ascii.eqb f "N"%char then knight to else invalid
      | _, None => invalid
      end
  | String "N"%char (String f (String r EmptyString)) =>
      match parse_sq f r with
      | Some to => knight to
      | None => invalid
      end
  | _ => invalid
  end.

Definition piece_letter (p : Piece) : ascii :=
  let base := match piece_type p with
              | PAWN => 80 | KNIGHT => 78 | BISHOP => 66
              | ROOK => 82 | QUEEN => 81 | KING => 75
              end in
  chr (if color p then base else base + 32).

Definition letter_piece (c : ascii) : option Piece :=
  let n := ord c in
  let white := n <? 97 in
  let up := if white then n else n - 32 in
  let t := if up =? 80 then Some PAWN else if up =? 78 then Some KNIGHT
           else if up =? 66 then Some BISHOP else if up =? 82 then Some ROOK
           else if up =? 81 then Some QUEEN else if up =? 75 then Some KING
           else None in
  (fun t => mkPiece t white) <$> t.

Definition nat_str (n : nat) : string := NilEmpty.string_of_uint (Nat.to_uint n).

Definition str_nat (s : string) : nat :=
  match NilEmpty.uint_of_string s with
  | Some u => Nat.of_uint u
  | None => O
  end.

Fixpoint rank_fen (b : board) (r : Z) (files : list Z) (empties : nat) : string :=
  let gap := match empties with O => EmptyString | _ => nat_str empties end in
  match files with
  | [] => gap
  | f :: fs =>
      match at_sq b (square f r) with
      | Some p => gap +:+ String (piece_letter p) (rank_fen b r fs O)
      | None => rank_fen b r fs (S empties)
      end
  end.

Definition board_fen (b : board) : string :=
  PyStr.join "/" ((fun r => rank_fen b r (seqZ 0 8) O) <$> [7; 6; 5; 4; 3; 2; 1; 0])
  +:+ (if turn b then " w" else " b") +:+ " KQkq - "
  +:+ nat_str (halfmove b) +:+ " " +:+ nat_str (fullmove b).

Fixpoint placement (s : string) (sq : Z) (acc : gmap Z Piece) : gmap Z Piece :=
  match s with
  | EmptyString => acc
  | String c r =>
      if Ascii.eqb c "/"%char then placement r (sq - 16) acc
      else if PyStr.is_digit c then placement r (sq + (ord c - 48)) acc
      else match letter_piece c with
           | Some p => placement r (sq + 1) (<[sq := p]> acc)
           | None => placement r (sq + 1) acc
           end
  end.

Definition board_of_fen (s : string) : board :=
  match PyStr.split s with
  | [pl; side; _; _; hm; fm] =>
      mkBoard (placement pl 56 ∅) (String.eqb side "w") (str_nat hm) (str_nat fm)
  | _ => start
  end.

Definition engine : RulesEngine := {|
  Board := board;
  Move := move;
  new_board := start;
  board_from_fen := board_of_fen;
  fen := board_fen;
  parse_san := do_parse_san;
  uci := move_uci;
  from_uci := move_from_uci;
  from_square := m_from;
  to_square := m_to;
  push := do_push;
  piece_at := at_sq;
  is_capture := captures;
  move_is_en_passant := fun _ => None;
  is_check := fun _ => false;
  king_to_move := fun _ => None
|}.

End MiniChess.

(* ===================================================================== *)
(** * Vocabulary of the statements *)
(* ===================================================================== *)

(** Every character of [s] satisfies [p]. *)
Fixpoint str_forall (p : ascii -> bool) (s : string) : bool :=
  match s with
  | EmptyString => true
  | String c r => p c && str_forall p r
  end.

(** The locals of the pass over a file. *)
Definition locals (st : PState) : option string * option string * list string :=
  (cur_opening st, cur_variation st, cur_moves_lines st).

(** Filing a sequence of variations, each under its opening, in order. *)
Definition add_all (added : list (string * Variation))
    (m : gmap string (list Variation)) : gmap string (list Variation) :=
  fold_left (fun m kx => setdefault_append (fst kx) (snd kx) m) added m.

(** Two mappings put together: the list of the second follows the list of
    the first under each name. *)
Definition merge_openings (m1 m2 : gmap string (list Variation))
    : gmap string (list Variation) :=
  union_with (fun a b => Some (a ++ b)) m1 m2.

Definition store_all (P : string -> Variation -> Prop)
    (m : gmap string (list Variation)) : Prop :=
  forall o vars, m !! o = Some vars -> Forall (P o) vars.

Section Vocabulary.

Variable E : RulesEngine.

(** Every token of [toks] resolves in turn from [b]: the board reached,
    the moves and the positions after each of them. *)
Fixpoint resolved_run (b : Board E) (toks : list string)
    : option (Board E * list string * list string) :=
  match toks with
  | [] => Some (b, [], [])
  | t :: r =>
      match parse_san E b (PyStr.sub_trailing_glyphs t) with
      | inl m =>
          let b' := push E b m in
          match resolved_run b' r with
          | Some (bf, us, fs) => Some (bf, uci E m :: us, fen E b' :: fs)
          | None => None
          end
      | inr _ => None
      end
  end.

(** [x] is what [flush_variation] builds from some move lines under
    opening [o]. *)
Definition built_from_lines (o : string) (x : Variation) : Prop :=
  exists lines, x = fst (build_variation E o (name x) lines).

End Vocabulary.

(* ===================================================================== *)
(** * Opening files used in the examples *)
(* ===================================================================== *)

Module Samples.

Definition text (lines : list string) : string := PyStr.join LF lines.

(** The file of the module docstring of [app.py]. *)
Definition caro_kann : string :=
  text ["** Caro-Kann Defence:"; "* Classical Variation:"; "1. e4 c6"; "2. d4 d5";
        "3. Nc3 dxe4"; "----------------------"].

(** A variation whose first token names no square. *)
Definition illegal_first : string :=
  text ["** A:"; "* B:"; "1. Qh9 e5"].

(** A variation that goes wrong at its fourth token, after a sound one. *)
Definition broken_tail : string :=
  text ["** A:"; "* Sound:"; "1. e4 e5"; "* Broken:"; "1. e4 {best} e5! 2. Nf3 Qh9 d4";
        "* Later:"; "1. d4 d5"; "** Z:"; "* Other:"; "1. Nf3"].

(** The same opening name under two headers. *)
Definition twice_named : string :=
  text ["** Open:"; "* A:"; "1. e4 e5"; "** Other:"; "* X:"; "1. d4";
        "** Open:"; "* B:"; "1. e4 d5 2. exd5"].

(** Text before any header, and a variation before any opening. *)
Definition stray : string :=
  text ["1. e4 e5"; "* Orphan:"; "1. d4 d5"; "------"; "** A:"; "1. c4"; "* B:"; "1. e4"].

(** Two lines that part after the first move. *)
Definition two_lines : string :=
  text ["** Open:"; "* A:"; "1. e4 e5"; "* B:"; "1. e4 d5 2. exd5"].

Definition start_fen : string :=
  "rnbqkbnr/pppppppp/8/8/8/8/PPPPPPPP/RNBQKBNR w KQkq - 0 1".

Definition line_A : Variation :=
  mkVariation "A" ["e4"; "e5"] ["e2e4"; "e7e5"]
    [start_fen;
     "rnbqkbnr/pppppppp/8/8/4P3/8/PPPP1PPP/RNBQKBNR b KQkq - 0 1";
     "rnbqkbnr/pppp1ppp/8/4p3/4P3/8/PPPP1PPP/RNBQKBNR w KQkq - 0 2"].

Definition line_B : Variation :=
  mkVariation "B" ["e4"; "d5"; "exd5"] ["e2e4"; "d7d5"; "e4d5"]
    [start_fen;
     "rnbqkbnr/pppppppp/8/8/4P3/8/PPPP1PPP/RNBQKBNR b KQkq - 0 1";
     "rnbqkbnr/ppp1pppp/8/3p4/4P3/8/PPPP1PPP/RNBQKBNR w KQkq - 0 2";
     "rnbqkbnr/ppp1pppp/8/3P4/8/8/PPPP1PPP/RNBQKBNR b KQkq - 0 2"].

(** The application started on [two_lines], pieces drawn as text. *)
Definition app0 : App MiniChess.engine := new_app MiniChess.engine false [two_lines].

(** Line [B] selected, at rest on the initial position. *)
Definition ready_B : App MiniChess.engine := run app0 [SelectVariation "Open" 1].

(** Line [A] selected and its first ply in flight. *)
Definition first_ply_in_flight : App MiniChess.engine :=
  run app0 [SelectVariation "Open" 0; ClickNext].

(** Line [A] played to its end by a click on its second move. *)
Definition after_A : App MiniChess.engine :=
  run app0 (SelectMove "Open" 0 1 :: repeat Timer 50).

(** A jump to the end of line [A], ten frames into its first ply. *)
Definition jumping_A : App MiniChess.engine :=
  run app0 (SelectMove "Open" 0 1 :: repeat Timer 10).

(** Line [A], and a line [B] whose capture is followed by a fourth ply. *)
Definition longer_lines : string :=
  text ["** Open:"; "* A:"; "1. e4 e5"; "* B:"; "1. e4 d5 2. exd5 Nf6"].

(** Line [A] of [longer_lines] played to its end by a click on its second
    move. *)
Definition after_A_longer : App MiniChess.engine :=
  run (new_app MiniChess.engine false [longer_lines])
      (SelectMove "Open" 0 1 :: repeat Timer 50).

End Samples.

Section PlaybackVocabulary.

Variable E : RulesEngine.

(** The piece items of the canvas, by square. *)
Definition piece_maps (c : Canvas E) : gmap Z Z * gmap Z Z :=
  (images_on_board c, text_items c).

(** Every piece of [b] has an item on the canvas. *)
Definition shows (c : Canvas E) (b : Board E) : Prop :=
  forall sq, 0 <= sq < 64 -> is_Some (piece_at E b sq) -> on_canvas sq c = true.

(** The log of [k] animation sessions in a row from ply [idx]: each call
    of [animate_move], made with the cursor at the ply it starts from, is
    followed by its completion before the next call. *)
Fixpoint sessions (ucis : list string) (idx : Z) (k : nat) : list Call :=
  match k with
  | O => []
  | S k' =>
      [CAnimate (default EmptyString (ucis !! Z.to_nat idx)) idx; CCallback]
      ++ sessions ucis (idx + 1) k'
  end.

Definition is_animate (c : Call) : bool :=
  match c with CAnimate _ _ => true | _ => false end.

Definition animate_calls (cs : list Call) : nat := length (List.filter is_animate cs).

(** A variation that [step_to] can replay: it has its first snapshot. *)
Definition has_start (var : Variation) : Prop := (0 < length (states_fen var))%nat.

(** A completion callback whose plies lie inside its variation. *)
Definition callback_in_range (cb : AfterAnim E) : Prop :=
  has_start (aa_var cb) /\
  0 < aa_next_index cb <= aa_idx_to cb /\
  aa_idx_to cb <= Z.of_nat (length (moves_uci (aa_var cb))).

Definition frame_in_range (f : Frame E) : Prop :=
  match fr_callback f with Some cb => callback_in_range cb | None => True end.

(** An entry of the log other than an index error on the move lists (or
    the exhaustion of the depth of the model). *)
Definition in_range_call (c : Call) : Prop :=
  c <> CRaised IndexError_moves_uci /\ c <> CRaised IndexError_states_fen /\
  c <> CRaised DepthExhausted.

Definition in_range_result (r : Result E) : Prop :=
  match r with
  | Raised IndexError_moves_uci _ | Raised IndexError_states_fen _
  | Raised DepthExhausted _ => False
  | _ => True
  end.

(** What holds of the application between two events. *)
Definition sound_app (a : App E) : Prop :=
  0 <= current_move_index a /\
  store_all (fun _ x => has_start x) (app_openings a) /\
  Forall frame_in_range (timers a) /\
  Forall in_range_call (calls a).

Definition sound_result (r : Result E) : Prop :=
  in_range_result r /\ sound_app (state_of r).

(** The selection and the library, which navigation leaves alone. *)
Definition selection (a : App E)
    : option string * option Z * gmap string (list Variation) :=
  (current_opening a, current_variation_idx a, app_openings a).

(** The events that select nothing and load nothing. *)
Definition keeps_selection (ev : Event) : bool :=
  match ev with Timer | ClickPrev | ClickNext => true | _ => false end.

End PlaybackVocabulary.

Arguments piece_maps {E} c.
Arguments selection {E} a.

(* ===================================================================== *)
(** * More of the program: the grid and the tree *)
(* ===================================================================== *)

Definition LIGHT_COLOR : string := "#F0D9B5".
Definition DARK_COLOR : string := "#B58863".

(** A rectangle of the grid, as [create_rectangle] receives it. *)
Record Rect := mkRect { rx1 : Z; ry1 : Z; rx2 : Z; ry2 : Z; rfill : string }.

(** [BoardCanvas._draw_board_squares]: the rectangles in the order drawn. *)
Definition _draw_board_squares : list Rect :=
  let s := SQUARE_SIZE in
  let p := BOARD_PADDING in
  flat_map (fun rank =>
    List.map (fun file =>
      let x1 := p + file * s in
      let y1 := p + rank * s in
      mkRect x1 y1 (x1 + s) (y1 + s)
             (if (file + rank) mod 2 =? 0 then LIGHT_COLOR else DARK_COLOR))
      (seqZ 0 8))
    (seqZ 0 8).

(** [str(n)] for a natural number. *)
Definition py_str_nat (n : nat) : string := NilEmpty.string_of_uint (Nat.to_uint n).

(** The [values] that [populate_tree] stores with a row of the tree: none
    for an opening, [(opening, vidx)] for a variation and
    [(opening, vidx, midx)] for a move. *)
Inductive TreeValues :=
| NoValues
| VariationValues (opening : string) (vidx : Z)
| MoveValues (opening : string) (vidx midx : Z).

Record TreeRow := mkTreeRow { row_text : string; row_values : TreeValues }.

(** [sorted(self.openings.items())]: the names are distinct, so the pairs
    are ordered by name. *)
Definition name_le (x y : string * list Variation) : Prop :=
  String.leb x.1 y.1 = true.

#[global] Instance name_le_dec x y : Decision (name_le x y).
Proof. unfold name_le. apply _. Defined.

(** The rows that [populate_tree] inserts, parents before children. *)
Definition move_rows (opening : string) (vidx : nat) (var : Variation) : list TreeRow :=
  imap (fun midx san =>
          mkTreeRow (py_str_nat (midx + 1) +:+ ". " +:+ san)
                    (MoveValues opening (Z.of_nat vidx) (Z.of_nat midx)))
       (moves_san var).

Definition variation_rows (opening : string) (variations : list Variation) : list TreeRow :=
  concat (imap (fun vidx var =>
                  mkTreeRow (name var) (VariationValues opening (Z.of_nat vidx))
                  :: move_rows opening vidx var)
               variations).

Definition tree_rows (m : gmap string (list Variation)) : list TreeRow :=
  flat_map (fun kv => mkTreeRow kv.1 NoValues :: variation_rows kv.1 kv.2)
           (merge_sort name_le (map_to_list m)).

Section TreeSelection.

Variable E : RulesEngine.

(** [on_tree_select], on the rows selected (a click on an opening only
    folds or unfolds its row).  The tree widget is taken to hand back the
    values of a row as [populate_tree] stored them, the indices as the
    decimal strings that [int] reads. *)
Definition on_tree_select (sel : list TreeRow) (a : App E) : Result E :=
  match sel with
  | [] => Ok a
  | item :: _ =>
      match row_values item with
      | NoValues => Ok a
      | VariationValues opening vidx => open_variation opening vidx a
      | MoveValues opening vidx midx => open_and_jump opening vidx (midx + 1) a
      end
  end.

End TreeSelection.

Arguments on_tree_select {E} sel a.

(* ===================================================================== *)
(** * Vocabulary of the further statements *)
(* ===================================================================== *)

Definition not_space (c : ascii) : bool := negb (PyStr.is_space c).

Definition not_char (d c : ascii) : bool := negb (Ascii.eqb c d).

Definition is_callback (c : Call) : bool :=
  match c with CCallback => true | _ => false end.

Definition is_crash (c : Call) : bool :=
  match c with CRaised AttributeError_is_en_passant => true | _ => false end.

Definition count_calls (p : Call -> bool) (cs : list Call) : nat :=
  length (List.filter p cs).

(** A selection exception: an opening or a variation that is not there. *)
Definition is_lookup_error (c : Call) : Prop :=
  c = CRaised KeyError_openings \/ c = CRaised IndexError_variations.

Section FurtherVocabulary.

Variable E : RulesEngine.

(** Every call of [animate_move] is pending on one timer, completed once,
    or was cut by the exception of the en-passant lookup. *)
Definition accounted (a : App E) : Prop :=
  animate_calls (calls a)
  = (length (timers a) + count_calls is_callback (calls a)
     + count_calls is_crash (calls a))%nat /\
  Forall (fun f => is_Some (fr_callback f)) (timers a).

(** The ids that the canvas has on record: the piece items, the arrow and
    the halo. *)
Definition registered (c : Canvas E) (id : Z) : Prop :=
  (exists sq, images_on_board c !! sq = Some id) \/
  (exists sq, text_items c !! sq = Some id) \/
  arrow_item c = Some id \/ check_item c = Some id.

(** The event is a click on a row that the tree holds. *)
Definition from_tree (a : App E) (ev : Event) : Prop :=
  match ev with
  | SelectVariation o v =>
      VariationValues o v ∈ row_values <$> tree_rows (app_openings a)
  | SelectMove o v m => MoveValues o v m ∈ row_values <$> tree_rows (app_openings a)
  | _ => True
  end.

Fixpoint from_tree_run (a : App E) (evs : list Event) : Prop :=
  match evs with
  | [] => True
  | ev :: rest => from_tree a ev /\ from_tree_run (handle a ev) rest
  end.

(** The selection, when there is one, names a variation of the library. *)
Definition selection_valid (a : App E) : Prop :=
  forall o, current_opening a = Some o ->
    exists vi var, current_variation_idx a = Some vi /\ get_variation o vi a = inr var.

End FurtherVocabulary.

Arguments accounted {E} a.
Arguments registered {E} c id.
Arguments from_tree {E} a ev.
Arguments from_tree_run {E} a evs.
Arguments selection_valid {E} a.

#[global] Instance TreeValues_eq_dec : EqDecision TreeValues.
Proof. solve_decision. Defined.

(** The arrow and the halo as [_draw_last_move_arrow] and
    [highlight_check] create them. *)
Definition arrow_line (from_sq to_sq : Z) : Item :=
  let '(fx_c, fy_c) := centre from_sq in
  let '(tx_c, ty_c) := centre to_sq in
  ArrowLine fx_c fy_c tx_c ty_c.

Definition halo (ksq : Z) : Item :=
  let '(cx, cy) := centre ksq in CheckOval cx cy (SQUARE_SIZE * 48 / 100).

Section Display.

Context {E : RulesEngine}.

(** What Tk shows for the item on record for a square, for the arrow and
    for the halo. *)
Definition shown_at (sq : Z) (c : Canvas E) : option Item :=
  item_at sq c ≫= fun id => shown c !! id.

Definition arrow_shown (c : Canvas E) : option Item :=
  arrow_item c ≫= fun id => shown c !! id.

Definition halo_shown (c : Canvas E) : option Item :=
  check_item c ≫= fun id => shown c !! id.

(** The items on record are those of the pieces of [b], each at the
    centre of its square, and no square off the board has one. *)
Definition pieces_drawn (c : Canvas E) (b : Board E) : Prop :=
  forall sq,
    shown_at sq c
    = if bool_decide (0 <= sq < 64)
      then (fun p => piece_item (has_images c) p sq) <$> piece_at E b sq
      else None.

(** The pieces of [b] with the arrow of the last move, when there is one,
    and the halo when the side to move is in check. *)
Definition displays (c : Canvas E) (b : Board E) (last : option (Z * Z)) : Prop :=
  pieces_drawn c b /\
  arrow_shown c = (fun ft => arrow_line ft.1 ft.2) <$> last /\
  halo_shown c = (if is_check E b then halo <$> king_to_move E b else None).

(** Tk hands out the ids upwards from 1: the ids on record are ids that
    were handed out. *)
Definition canvas_ok (c : Canvas E) : Prop :=
  0 < next_id c /\ forall id, registered c id -> 0 < id < next_id c.

(** [k] calls of [animate_move] are still to be accounted for. *)
Definition pending_account (k : nat) (a : App E) : Prop :=
  animate_calls (calls a)
  = (length (timers a) + count_calls is_callback (calls a)
     + count_calls is_crash (calls a) + k)%nat /\
  Forall (fun f => is_Some (fr_callback f)) (timers a).

(** The state once the event loop has reported the exception, if any. *)
Definition settled (r : Result E) : App E :=
  match r with
  | Ok a => a
  | Raised e a => log_call (CRaised e) a
  end.

(** The exceptions of a selection do not come out of [r]. *)
Definition no_lookup_error (r : Result E) : Prop :=
  match r with
  | Raised KeyError_openings _ | Raised IndexError_variations _ => False
  | _ => True
  end.

End Display.

(** The rows of the openings, which carry no values. *)
Definition is_opening_row (r : TreeRow) : bool :=
  match row_values r with NoValues => true | _ => false end.

(* ===================================================================== *)
(** * The piece images *)
(* ===================================================================== *)

Definition PIECE_IMGS_DIR : string := "pieces".

(** The dict [PIECE_CODE], in the order written. *)
Definition PIECE_CODE : list (PieceType * bool * string) :=
  [(PAWN, true, "wp"); (KNIGHT, true, "wn"); (BISHOP, true, "wb");
   (ROOK, true, "wr"); (QUEEN, true, "wq"); (KING, true, "wk");
   (PAWN, false, "bp"); (KNIGHT, false, "bn"); (BISHOP, false, "bb");
   (ROOK, false, "br"); (QUEEN, false, "bq"); (KING, false, "bk")].

(** [d[k]] on a dict kept as the list of its items; [None] is [KeyError]. *)
Definition dict_get {K V} `{EqDecision K} (d : list (K * V)) (k : K) : option V :=
  snd <$> List.find (fun kv => bool_decide (kv.1 = k)) d.

(** [os.path.join(PIECE_IMGS_DIR, f"{code}.png")]. *)
Definition image_path (code : string) : string :=
  PIECE_IMGS_DIR +:+ "/" +:+ code +:+ ".png".

(** The fields of [PieceImages]; an image of the cache is known by the
    file it was read from. *)
Record PieceImages := mkPieceImages {
  cache : list (string * string);
  pieces_have_images : bool
}.

(** [PieceImages.load_images], on what [os.path.isdir] says of the folder
    and [os.path.exists] of a file. *)
Definition load_images (isdir : bool) (file_exists : string -> bool) : PieceImages :=
  if negb isdir then mkPieceImages [] false
  else if forallb (fun e => file_exists (image_path e.2)) PIECE_CODE
       then mkPieceImages ((fun e => (e.2, image_path e.2)) <$> PIECE_CODE) true
       else mkPieceImages [] false.

(** [PieceImages.get]: the outer [None] is a [KeyError], the inner one the
    value [None] that the method returns when there are no images. *)
Definition PieceImages_get (imgs : PieceImages) (piece : Piece) : option (option string) :=
  match dict_get PIECE_CODE (piece_type piece, color piece) with
  | None => None
  | Some code =>
      if pieces_have_images imgs then Some <$> dict_get (cache imgs) code
      else Some None
  end.

(** The file-name code of a piece: the colour, then the letter of the
    type. *)
Definition code_of (p : Piece) : string :=
  (if color p then "w" else "b")
  +:+ match piece_type p with
      | PAWN => "p" | KNIGHT => "n" | BISHOP => "b"
      | ROOK => "r" | QUEEN => "q" | KING => "k"
      end.

Ltac not_lookup :=
  first [ by split
        | repeat intro; match goal with H : is_lookup_error _ |- _ => by destruct H end ].

(* ===================================================================== *)
(** * The variations of a load in the order met *)
(* ===================================================================== *)

Section EncounterOrder.

Variable E : RulesEngine.

(** A line at which [process_line] calls [flush_variation]: an opening
    header, a variation header or a separator. *)
Definition closes (line : string) : bool :=
  let line_stripped := PyStr.strip line in
  PyStr.startswith "**" line_stripped || PyStr.startswith "*" line_stripped
  || is_separator line_stripped.

(** What is due to be filed when a variation is closed with the locals
    [loc]: the variation built from the move lines, under the opening in
    force; nothing without an opening, without a variation or without move
    text. *)
Definition closed_block (loc : option string * option string * list string)
    : list (string * Variation) :=
  match loc with
  | (Some o, Some v, lines) =>
      if PyStr.is_empty (PyStr.strip (PyStr.join LF lines)) then []
      else [(o, fst (build_variation E o v lines))]
  | _ => []
  end.

(** The variations of the lines of a file, each with its opening, in the
    order in which they are closed: at every line that closes one, and at
    the end of the file.  Only the locals of the pass are read. *)
Fixpoint closed_in_order (st : PState) (lines : list string)
    : list (string * Variation) :=
  match lines with
  | [] => closed_block (locals st)
  | l :: rest =>
      (if closes l then closed_block (locals st) else [])
      ++ closed_in_order (process_line E st l) rest
  end.

(** The same for the files of a load, one after the other. *)
Definition variations_in_order (files : list string) : list (string * Variation) :=
  List.concat
    (List.map (fun text => closed_in_order (mkPState ∅ [] None None [])
                             (PyStr.splitlines text)) files).

(** [lines] are the move lines gathered under opening [o] and variation
    [v] at a place of [text] where a variation is closed: before a header,
    before a separator or at the end of the file. *)
Definition gathered (text : string) (o v : string) (lines : list string) : Prop :=
  exists before after,
    PyStr.splitlines text = before ++ after /\
    locals (process_lines E (mkPState ∅ [] None None []) before)
    = (Some o, Some v, lines) /\
    match after with [] => True | l :: _ => closes l = true end.

End EncounterOrder.


(* ===================================================================== *)
(** * Facts about the string primitives *)
(* ===================================================================== *)

Section StringFacts.

Lemma lstrip_by_empty p s :
  PyStr.lstrip_by p s = EmptyString -> str_forall p s = true.
Proof.
  induction s as [|c r IH]; simpl; [done|].
  destruct (p c) eqn:Hc; [auto | discriminate].
Qed.

Lemma rstrip_by_empty p s :
  PyStr.rstrip_by p s = EmptyString -> str_forall p s = true.
Proof.
  induction s as [|c r IH]; simpl; [done|].
  destruct (PyStr.rstrip_by p r) eqn:Hr; [|discriminate].
  destruct (p c); [auto | discriminate].
Qed.

Lemma rstrip_by_all p s :
  str_forall p s = true -> PyStr.rstrip_by p s = EmptyString.
Proof.
  induction s as [|c r IH]; simpl; [done|].
  intros [Hc Hr]%andb_prop. by rewrite (IH Hr), Hc.
Qed.

Lemma lstrip_by_all p s :
  str_forall p s = true -> PyStr.lstrip_by p s = EmptyString.
Proof.
  induction s as [|c r IH]; simpl; [done|].
  intros [Hc Hr]%andb_prop. by rewrite Hc, IH.
Qed.

Lemma lstrip_by_suffix p s :
  str_forall p (PyStr.lstrip_by p s) = true -> str_forall p s = true.
Proof.
  induction s as [|c r IH]; simpl; [done|].
  destruct (p c) eqn:Hc; simpl; [auto|]. by rewrite Hc.
Qed.

Lemma strip_empty_iff s :
  PyStr.strip s = EmptyString <-> str_forall PyStr.is_space s = true.
Proof.
  unfold PyStr.strip. split.
  - intros H%rstrip_by_empty. by apply lstrip_by_suffix.
  - intros H. by rewrite (lstrip_by_all _ _ H).
Qed.

Lemma str_forall_app p s t :
  str_forall p (s +:+ t) = str_forall p s && str_forall p t.
Proof. induction s as [|c r IH]; simpl; [done|]. by rewrite IH, andb_assoc. Qed.

Lemma join_all_space (lines : list string) :
  str_forall PyStr.is_space (PyStr.join LF lines) = true ->
  Forall (fun l => str_forall PyStr.is_space l = true) lines.
Proof.
  induction lines as [|l [|l' r] IH]; simpl; intros H.
  - constructor.
  - constructor; [done | constructor].
  - rewrite !str_forall_app in H.
    apply andb_prop in H as [Hl H]. apply andb_prop in H as [_ H].
    constructor; [done | by apply IH].
Qed.

Lemma space_not_special c :
  PyStr.is_space c = true ->
  Ascii.eqb c "{"%char = false /\ PyStr.is_digit c = false /\ Ascii.eqb c "."%char = false.
Proof.
  unfold PyStr.is_space, PyStr.is_digit. intros H.
  destruct (Ascii.eqb_spec c "{"%char) as [->|_]; [discriminate H|].
  destruct (Ascii.eqb_spec c "."%char) as [->|_]; [discriminate H|].
  repeat split. 
  apply orb_prop in H as [H|H]; apply andb_prop in H as [H1 H2];
    apply N.leb_le in H1, H2; apply andb_false_iff; left; apply N.leb_gt; lia.
Qed.

Lemma sub_braces_space s :
  str_forall PyStr.is_space s = true -> PyStr.sub_braces false s = s.
Proof.
  induction s as [|c r IH]; simpl; [done|].
  intros [Hc Hr]%andb_prop.
  destruct (space_not_special c Hc) as (-> & _ & _). simpl. by rewrite IH.
Qed.

Lemma sub_move_numbers_space s :
  str_forall PyStr.is_space s = true -> PyStr.sub_move_numbers EmptyString s = s.
Proof.
  induction s as [|c r IH]; simpl; [done|].
  intros [Hc Hr]%andb_prop.
  destruct (space_not_special c Hc) as (_ & -> & ->). simpl. by rewrite IH.
Qed.

End StringFacts.


(* ===================================================================== *)
(** * Facts about the parser *)
(* ===================================================================== *)

Section ParserFacts.

Variable E : RulesEngine.

Lemma resolved_run_lengths toks : forall b b' us fs,
  resolved_run E b toks = Some (b', us, fs) ->
  length us = length toks /\ length fs = length toks.
Proof.
  induction toks as [|t r IH]; simpl; intros b b' us fs H.
  - by inversion H.
  - destruct (parse_san E b _) as [m|e]; [|discriminate].
    destruct (resolved_run E (push E b m) r) as [[[bf us'] fs']|] eqn:Hr; [|discriminate].
    inversion H; subst. destruct (IH _ _ _ _ Hr). simpl. lia.
Qed.

(** The loop over the tokens stops at the first one that fails: what it
    has built comes from the tokens before it, and nothing from those
    after it. *)
Lemma resolve_prefix_fail o v pre bad post e : forall b b' us fs ucis fens sans,
  resolved_run E b pre = Some (b', us, fs) ->
  parse_san E b' (PyStr.sub_trailing_glyphs bad) = inr e ->
  resolve E o v (pre ++ bad :: post) b ucis fens sans
  = mkResolved (ucis ++ us) (fens ++ fs) (sans ++ pre) [warning bad o v e].
Proof.
  induction pre as [|t r IH]; simpl; intros b b' us fs ucis fens sans Hrun Hbad.
  - inversion Hrun; subst. rewrite Hbad. by rewrite !app_nil_r.
  - destruct (parse_san E b _) as [m|e']; [|discriminate].
    destruct (resolved_run E (push E b m) r) as [[[bf us'] fs']|] eqn:Hr; [|discriminate].
    inversion Hrun; subst.
    rewrite (IH _ _ _ _ _ _ _ Hr Hbad). by rewrite <- !app_assoc.
Qed.

Lemma resolve_all_ok o v toks : forall b b' us fs ucis fens sans,
  resolved_run E b toks = Some (b', us, fs) ->
  resolve E o v toks b ucis fens sans
  = mkResolved (ucis ++ us) (fens ++ fs) (sans ++ toks) [].
Proof.
  induction toks as [|t r IH]; simpl; intros b b' us fs ucis fens sans Hrun.
  - inversion Hrun; subst. by rewrite !app_nil_r.
  - destruct (parse_san E b _) as [m|e']; [|discriminate].
    destruct (resolved_run E (push E b m) r) as [[[bf us'] fs']|] eqn:Hr; [|discriminate].
    inversion Hrun; subst.
    rewrite (IH _ _ _ _ _ _ _ Hr). by rewrite <- !app_assoc.
Qed.

(** Whatever the tokens, the loop has resolved a prefix of them, and it
    stopped either at the end or at a token that does not resolve. *)
Lemma resolve_shape o v toks : forall b ucis fens sans,
  exists n b' us fs,
    (n <= length toks)%nat /\
    resolved_run E b (take n toks) = Some (b', us, fs) /\
    resolve E o v toks b ucis fens sans
    = mkResolved (ucis ++ us) (fens ++ fs) (sans ++ take n toks)
        (match toks !! n with
         | Some bad =>
             match parse_san E b' (PyStr.sub_trailing_glyphs bad) with
             | inr e => [warning bad o v e]
             | inl _ => []
             end
         | None => []
         end) /\
    (n = length toks \/
     exists bad e, toks !! n = Some bad /\
       parse_san E b' (PyStr.sub_trailing_glyphs bad) = inr e).
Proof.
  induction toks as [|t r IH]; intros b ucis fens sans.
  - exists 0%nat, b, [], []. simpl. rewrite !app_nil_r. auto.
  - cbn [resolve]. destruct (parse_san E b (PyStr.sub_trailing_glyphs t)) as [m|e] eqn:Hp.
    + destruct (IH (push E b m) (ucis ++ [uci E m]) (fens ++ [fen E (push E b m)])
                  (sans ++ [t])) as (n & b' & us & fs & Hn & Hrun & Hres & Hend).
      exists (S n), b', (uci E m :: us), (fen E (push E b m) :: fs).
      simpl. rewrite Hp, Hrun, Hres, <- !app_assoc. simpl.
      split; [lia|]. split; [done|]. split; [done|].
      destruct Hend as [->|Hbad]; [by left | by right].
    + exists 0%nat, b, [], []. simpl. rewrite Hp, !app_nil_r.
      split; [lia|]. split; [done|]. split; [done|]. right. by exists t, e.
Qed.

Lemma build_variation_name o v lines : name (fst (build_variation E o v lines)) = v.
Proof. reflexivity. Qed.

Lemma build_variation_aligned o v lines :
  let x := fst (build_variation E o v lines) in
  length (states_fen x) = S (length (moves_uci x)) /\
  length (moves_san x) = length (moves_uci x).
Proof.
  unfold build_variation. simpl.
  destruct (resolve_shape o v (extract_tokens lines) (new_board E) [] [fen E (new_board E)] [])
    as (n & b' & us & fs & Hn & Hrun & -> & _).
  simpl. destruct (resolved_run_lengths _ _ _ _ _ Hrun) as [Hu Hf].
  rewrite length_take in Hu, Hf. rewrite length_take. lia.
Qed.

(** ** The store only grows, one variation at a time *)

Lemma setdefault_append_lookup k x (m : gmap string (list Variation)) o :
  setdefault_append k x m !! o
  = if decide (k = o) then Some (default [] (m !! k) ++ [x]) else m !! o.
Proof. unfold setdefault_append. by rewrite lookup_insert. Qed.

Lemma store_all_empty P : store_all P ∅.
Proof. intros o vars H. by rewrite lookup_empty in H. Qed.

Lemma store_all_append P k x m :
  store_all P m -> P k x -> store_all P (setdefault_append k x m).
Proof.
  intros Hm Hx o vars. rewrite setdefault_append_lookup.
  case_decide as Hk; [|by apply Hm].
  subst. intros [= <-]. apply Forall_app. split; [|by constructor].
  destruct (m !! o) as [vs|] eqn:Ho; simpl; [by eapply Hm | constructor].
Qed.

(** What a flush adds to the store and prints depends on the locals
    alone. *)
Lemma flush_frame st :
  exists added out loc, forall st2,
    locals st2 = locals st ->
    openings (flush_variation E st2) = add_all added (openings st2) /\
    printed (flush_variation E st2) = printed st2 ++ out /\
    locals (flush_variation E st2) = loc.
Proof.
  destruct st as [m pr o v ls]. unfold locals; simpl.
  destruct o as [o|]; [destruct v as [v|]|]; cycle 1.
  { exists [], [], (Some o, @None string, ls).
    intros [m2 pr2 o2 v2 ls2]; simpl; intros [= -> -> ->].
    unfold flush_variation; simpl. by rewrite app_nil_r. }
  { exists [], [], (@None string, v, ls).
    intros [m2 pr2 o2 v2 ls2]; simpl; intros [= -> -> ->].
    unfold flush_variation; simpl. by rewrite app_nil_r. }
  destruct (PyStr.is_empty (PyStr.strip (PyStr.join LF ls))) eqn:Hempty.
  - exists [], [], (Some o, Some v, ls).
    intros [m2 pr2 o2 v2 ls2]; simpl; intros [= -> -> ->].
    unfold flush_variation; simpl. rewrite Hempty. simpl. by rewrite app_nil_r.
  - exists [(o, fst (build_variation E o v ls))], (snd (build_variation E o v ls)),
      (Some o, Some v, @nil string).
    intros [m2 pr2 o2 v2 ls2]; simpl; intros [= -> -> ->].
    unfold flush_variation; simpl. rewrite Hempty.
    by destruct (build_variation E o v ls).
Qed.

Lemma process_line_frame st line :
  exists added out loc, forall st2,
    locals st2 = locals st ->
    openings (process_line E st2 line) = add_all added (openings st2) /\
    printed (process_line E st2 line) = printed st2 ++ out /\
    locals (process_line E st2 line) = loc.
Proof.
  destruct (flush_frame st) as (added & out & [[fo fv] fl] & Hflush).
  destruct (PyStr.startswith "**" (PyStr.strip line)) eqn:H1.
  { exists added, out, (Some (header_name (PyStr.strip line)), None, []).
    intros st2 H2. unfold process_line. rewrite H1.
    by destruct (Hflush st2 H2) as (-> & -> & _). }
  destruct (PyStr.startswith "*" (PyStr.strip line)) eqn:H2.
  { exists added, out, (fo, Some (header_name (PyStr.strip line)), []).
    intros st2 Hl. unfold process_line. rewrite H1, H2.
    destruct (Hflush st2 Hl) as (-> & -> & Hloc).
    unfold locals in *. simpl. by inversion Hloc. }
  destruct (is_separator (PyStr.strip line)) eqn:H3.
  { exists added, out, (fo, None, []).
    intros st2 Hl. unfold process_line. rewrite H1, H2, H3.
    destruct (Hflush st2 Hl) as (-> & -> & Hloc).
    unfold locals in *. simpl. by inversion Hloc. }
  exists [], [], (locals (process_line E st line)).
  intros [m2 pr2 o2 v2 ls2]. destruct st as [m pr o v ls].
  unfold locals. simpl. intros [= -> -> ->].
  unfold process_line. rewrite H1, H2, H3. simpl.
  destruct v as [v|]; [|by rewrite app_nil_r].
  destruct (negb (PyStr.is_empty (PyStr.strip line))); simpl; by rewrite app_nil_r.
Qed.

Lemma add_all_app a1 a2 m : add_all (a1 ++ a2) m = add_all a2 (add_all a1 m).
Proof. unfold add_all. by rewrite fold_left_app. Qed.

Lemma process_lines_frame lines : forall st,
  exists added out loc, forall st2,
    locals st2 = locals st ->
    openings (process_lines E st2 lines) = add_all added (openings st2) /\
    printed (process_lines E st2 lines) = printed st2 ++ out /\
    locals (process_lines E st2 lines) = loc.
Proof.
  induction lines as [|l ls IH]; intros st.
  - exists [], [], (locals st). intros st2 H2. simpl. by rewrite app_nil_r.
  - destruct (process_line_frame st l) as (a1 & o1 & loc1 & H1).
    destruct (IH (process_line E st l)) as (a2 & o2 & loc2 & H2).
    exists (a1 ++ a2), (o1 ++ o2), loc2. intros st2 Hl.
    destruct (H1 st2 Hl) as (Ho & Hp & Hloc).
    destruct (H1 st eq_refl) as (_ & _ & Hloc').
    destruct (H2 (process_line E st2 l)) as (Ho2 & Hp2 & Hloc2); [congruence|].
    cbn [process_lines fold_left]. change (fold_left (process_line E) ls ?s) with (process_lines E s ls).
    rewrite Ho2, Hp2, Ho, Hp, add_all_app, app_assoc. done.
Qed.

(** The same for the whole pass over the lines of a file, which starts
    from fresh locals. *)
Lemma parse_lines_frame lines :
  exists added out, forall acc,
    parse_lines E acc lines = (add_all added (fst acc), snd acc ++ out).
Proof.
  destruct (process_lines_frame lines (mkPState ∅ [] None None [])) as (a1 & o1 & loc1 & H1).
  destruct (flush_frame (process_lines E (mkPState ∅ [] None None []) lines))
    as (a2 & o2 & loc2 & H2).
  exists (a1 ++ a2), (o1 ++ o2). intros [m pr]. unfold parse_lines. simpl.
  destruct (H1 (mkPState m pr None None []) eq_refl) as (Ho & Hp & Hloc).
  destruct (H1 (mkPState ∅ [] None None []) eq_refl) as (_ & _ & Hloc').
  destruct (H2 (process_lines E (mkPState m pr None None []) lines)) as (Ho2 & Hp2 & _);
    [congruence|].
  rewrite Ho2, Hp2, Ho, Hp, add_all_app, app_assoc. done.
Qed.

Lemma parse_assets_out_frame files :
  exists added out, forall acc,
    fold_left (parse_file E) files acc = (add_all added (fst acc), snd acc ++ out).
Proof.
  induction files as [|f fs IH].
  - exists [], []. intros [m pr]. simpl. by rewrite app_nil_r.
  - destruct (parse_lines_frame (PyStr.splitlines f)) as (a1 & o1 & H1).
    destruct IH as (a2 & o2 & H2).
    exists (a1 ++ a2), (o1 ++ o2). intros acc. simpl. unfold parse_file at 2.
    rewrite H1, H2. simpl. by rewrite add_all_app, app_assoc.
Qed.

(** ** Filing and merging *)

Lemma add_all_lookup added : forall m o,
  add_all added m !! o
  = match (filter (fun kx => fst kx = o) added).*2 with
    | [] => m !! o
    | vs => Some (default [] (m !! o) ++ vs)
    end.
Proof.
  induction added as [|[k x] r IH]; intros m o; [done|].
  cbn [add_all fold_left]. change (fold_left _ r ?s) with (add_all r s).
  rewrite IH, filter_cons. cbn [fst snd]. rewrite setdefault_append_lookup.
  case_decide as Hk.
  - subst k. cbn [fmap list_fmap default snd].
    destruct ((filter _ r).*2) as [|y ys]; [done|].
    unfold id. by rewrite <- app_assoc.
  - done.
Qed.

Lemma add_all_merge added m :
  (forall o, m !! o <> Some []) ->
  add_all added m = merge_openings m (add_all added ∅).
Proof.
  intros Hne. apply map_eq. intros o. unfold merge_openings.
  rewrite lookup_union_with, !add_all_lookup, lookup_empty.
  destruct ((filter _ added).*2) as [|y ys]; destruct (m !! o) as [vs|] eqn:Hm; simpl; done.
Qed.

Lemma add_all_nonempty added m :
  (forall o, m !! o <> Some []) -> forall o, add_all added m !! o <> Some [].
Proof.
  intros Hne o. rewrite add_all_lookup.
  destruct ((filter _ added).*2) as [|y ys]; [apply Hne|].
  intros [= H]. by destruct (default [] (m !! o)).
Qed.

(** ** Every variation in the store was built by a flush *)

Lemma add_all_store P added : forall m,
  store_all P m -> Forall (fun kx => P (fst kx) (snd kx)) added ->
  store_all P (add_all added m).
Proof.
  induction added as [|[k x] r IH]; intros m Hm Hadd; [done|].
  inversion Hadd; subst. cbn [add_all fold_left]. apply IH; [|done].
  by apply store_all_append.
Qed.

Lemma flush_store P st :
  (forall o v lines, P o (fst (build_variation E o v lines))) ->
  store_all P (openings st) -> store_all P (openings (flush_variation E st)).
Proof.
  intros HP Hst. unfold flush_variation.
  destruct (cur_opening st) as [o|]; [|done].
  destruct (cur_variation st) as [v|]; [|done].
  destruct (PyStr.is_empty _); [done|].
  destruct (build_variation E o v (cur_moves_lines st)) as [x out] eqn:Hb. simpl.
  apply store_all_append; [done|]. specialize (HP o v (cur_moves_lines st)).
  by rewrite Hb in HP.
Qed.

Lemma process_line_store P st line :
  (forall o v lines, P o (fst (build_variation E o v lines))) ->
  store_all P (openings st) -> store_all P (openings (process_line E st line)).
Proof.
  intros HP Hst. unfold process_line.
  repeat (destruct (_ : bool); [simpl; by apply flush_store|]).
  destruct (cur_variation st); [|done]. by destruct (negb _).
Qed.

Lemma process_lines_store P lines : forall st,
  (forall o v lines, P o (fst (build_variation E o v lines))) ->
  store_all P (openings st) -> store_all P (openings (process_lines E st lines)).
Proof.
  induction lines as [|l ls IH]; intros st HP Hst; [done|].
  simpl. apply IH; [done|]. by apply process_line_store.
Qed.

Lemma parse_assets_store P files :
  (forall o v lines, P o (fst (build_variation E o v lines))) ->
  store_all P (parse_assets E files).
Proof.
  intros HP. unfold parse_assets, parse_assets_out.
  assert (forall acc, store_all P (fst acc) ->
            store_all P (fst (fold_left (parse_file E) files acc))) as H.
  { induction files as [|f fs IH]; intros acc Hacc; [done|].
    simpl. apply IH. unfold parse_file, parse_lines. simpl.
    apply flush_store; [done|]. by apply process_lines_store. }
  apply H. apply store_all_empty.
Qed.

End ParserFacts.


(* ===================================================================== *)
(** * The parser: what [parse_assets] returns *)
(* ===================================================================== *)

Section ParserClaims.

Variable E : RulesEngine.

Lemma startswith_two_stars s :
  PyStr.startswith "**" s = true -> PyStr.startswith "*" s = true.
Proof.
  destruct s as [|c r]; cbn [PyStr.startswith]; [done|].
  intros [H _]%andb_prop. rewrite H. by destruct r.
Qed.

(** Move lines that yield a token are not blank, so the guard on the
    joined move text lets them through. *)
Lemma tokens_need_text lines :
  PyStr.is_empty (PyStr.strip (PyStr.join LF lines)) = true -> extract_tokens lines = [].
Proof.
  intros H. assert (PyStr.strip (PyStr.join LF lines) = EmptyString) as Hs.
  { by destruct (PyStr.strip _). }
  apply strip_empty_iff, join_all_space in Hs.
  unfold extract_tokens.
  assert (concat (List.map line_tokens lines) = []) as Hc.
  { clear H. induction Hs as [|l ls Hl _ IH]; [done|]. simpl. rewrite IH, app_nil_r.
    unfold line_tokens. rewrite (sub_braces_space _ Hl), (sub_move_numbers_space _ Hl).
    apply strip_empty_iff in Hl. by rewrite Hl. }
  by rewrite Hc.
Qed.

Lemma flush_with_text st o v :
  cur_opening st = Some o -> cur_variation st = Some v ->
  PyStr.is_empty (PyStr.strip (PyStr.join LF (cur_moves_lines st))) = false ->
  flush_variation E st
  = mkPState (setdefault_append o (fst (build_variation E o v (cur_moves_lines st)))
                (openings st))
             (printed st ++ snd (build_variation E o v (cur_moves_lines st)))
             (Some o) (Some v) [].
Proof.
  intros Ho Hv Ht. unfold flush_variation. rewrite Ho, Hv, Ht.
  by destruct (build_variation E o v (cur_moves_lines st)).
Qed.

Lemma built_shape o v lines :
  let x := fst (build_variation E o v lines) in
  let toks := extract_tokens lines in
  exists n b' fs,
    moves_san x = take n toks /\
    resolved_run E (new_board E) (take n toks) = Some (b', moves_uci x, fs) /\
    states_fen x = fen E (new_board E) :: fs /\
    (n = length toks \/
     exists bad e, toks !! n = Some bad /\
       parse_san E b' (PyStr.sub_trailing_glyphs bad) = inr e).
Proof.
  unfold build_variation. cbn [fst].
  destruct (resolve_shape E o v (extract_tokens lines) (new_board E) []
              [fen E (new_board E)] [])
    as (n & b' & us & fs & Hn & Hrun & -> & Hend).
  exists n, b', fs. by cbn.
Qed.

(** C1 (as amended): a flush leaves a variation out only when no move text
    was gathered for it; a variation with move text none of whose tokens
    resolves (no token at all, or a first token that is rejected) is still
    appended to its opening, with no move and the initial position as its
    only snapshot. *)
Theorem variation_without_moves_is_kept st o v :
  cur_opening st = Some o -> cur_variation st = Some v ->
  (cur_moves_lines st = [] -> flush_variation E st = st) /\
  (PyStr.is_empty (PyStr.strip (PyStr.join LF (cur_moves_lines st))) = false ->
   (extract_tokens (cur_moves_lines st) = [] \/
    exists bad rest e,
      extract_tokens (cur_moves_lines st) = bad :: rest /\
      parse_san E (new_board E) (PyStr.sub_trailing_glyphs bad) = inr e) ->
   openings (flush_variation E st) !! o
   = Some (default [] (openings st !! o)
           ++ [mkVariation v [] [] [fen E (new_board E)]])).
Proof.
  intros Ho Hv. split.
  - intros Hl. unfold flush_variation. by rewrite Ho, Hv, Hl.
  - intros Ht Hzero. rewrite (flush_with_text st o v Ho Hv Ht). cbn [openings].
    rewrite setdefault_append_lookup, decide_True by done.
    do 3 f_equal. unfold build_variation. cbn [fst].
    destruct Hzero as [-> | (bad & rest & e & -> & Hbad)]; [done|].
    cbn [resolve]. by rewrite Hbad.
Qed.

(** ** The mapping is the variations met, filed in the order met *)

Lemma flush_closed st :
  openings (flush_variation E st) = add_all (closed_block E (locals st)) (openings st).
Proof.
  unfold flush_variation, locals, closed_block.
  destruct (cur_opening st) as [o|]; [|done].
  destruct (cur_variation st) as [v|]; [|done].
  destruct (PyStr.is_empty _); [done|].
  by destruct (build_variation E o v (cur_moves_lines st)).
Qed.

Lemma process_line_closed st l :
  openings (process_line E st l)
  = add_all (if closes l then closed_block E (locals st) else []) (openings st).
Proof.
  unfold process_line, closes.
  destruct (PyStr.startswith "**" (PyStr.strip l)); [apply flush_closed|].
  destruct (PyStr.startswith "*" (PyStr.strip l)); [apply flush_closed|].
  destruct (is_separator (PyStr.strip l)); [apply flush_closed|].
  cbn [orb]. destruct (cur_variation st); [|done]. by destruct (negb _).
Qed.

Lemma process_line_locals st st' l :
  locals st = locals st' -> locals (process_line E st l) = locals (process_line E st' l).
Proof.
  intros H. destruct (process_line_frame E st l) as (a1 & o1 & loc & Hf).
  destruct (Hf st eq_refl) as (_ & _ & ->).
  by destruct (Hf st' (eq_sym H)) as (_ & _ & ->).
Qed.

Lemma closed_in_order_locals lines : forall st st',
  locals st = locals st' -> closed_in_order E st lines = closed_in_order E st' lines.
Proof.
  induction lines as [|l r IH]; intros st st' H; cbn [closed_in_order]; rewrite H; [done|].
  f_equal. apply IH. by apply process_line_locals.
Qed.

Lemma process_lines_closed lines : forall st,
  openings (flush_variation E (process_lines E st lines))
  = add_all (closed_in_order E st lines) (openings st).
Proof.
  induction lines as [|l r IH]; intros st; [apply flush_closed|].
  cbn [process_lines fold_left closed_in_order].
  change (fold_left (process_line E) r ?s) with (process_lines E s r).
  by rewrite IH, process_line_closed, add_all_app.
Qed.

Lemma parse_assets_closed files :
  parse_assets E files = add_all (variations_in_order E files) ∅.
Proof.
  unfold parse_assets, parse_assets_out.
  assert (forall acc, fst (fold_left (parse_file E) files acc)
                      = add_all (variations_in_order E files) (fst acc)) as H; [|apply H].
  induction files as [|f fs IH]; intros acc; [done|].
  cbn [fold_left]. rewrite IH. unfold variations_in_order. cbn [List.map List.concat].
  rewrite add_all_app. f_equal. unfold parse_file, parse_lines. cbn [fst].
  rewrite process_lines_closed. cbn [openings]. f_equal.
  by apply closed_in_order_locals.
Qed.

(** The entry of a name: the variations closed under it, in the order
    met. *)
Lemma parse_assets_lookup files o :
  parse_assets E files !! o
  = match (filter (fun kx => kx.1 = o) (variations_in_order E files)).*2 with
    | [] => None
    | vs => Some vs
    end.
Proof.
  rewrite parse_assets_closed, add_all_lookup, lookup_empty.
  by destruct ((filter _ (variations_in_order E files)).*2).
Qed.

(** Each variation of the list was closed at some place of the lines. *)
Lemma closed_in_order_elem lines : forall st o x,
  (o, x) ∈ closed_in_order E st lines ->
  exists before after v ls,
    lines = before ++ after /\
    locals (process_lines E st before) = (Some o, Some v, ls) /\
    match after with [] => True | l :: _ => closes l = true end /\
    x = fst (build_variation E o v ls).
Proof.
  assert (forall st o x, (o, x) ∈ closed_block E (locals st) ->
            exists v ls, locals st = (Some o, Some v, ls) /\
              x = fst (build_variation E o v ls)) as Hblock.
  { intros st o x. unfold locals, closed_block.
    destruct (cur_opening st) as [o'|]; [|by intros ?%elem_of_nil].
    destruct (cur_variation st) as [v|]; [|by intros ?%elem_of_nil].
    destruct (PyStr.is_empty _); [by intros ?%elem_of_nil|].
    intros [= -> ->]%list_elem_of_singleton. by exists v, (cur_moves_lines st). }
  induction lines as [|l r IH]; intros st o x Hin; cbn [closed_in_order] in Hin.
  - destruct (Hblock st o x Hin) as (v & ls & Hloc & Hx).
    by exists [], [], v, ls.
  - apply elem_of_app in Hin as [Hin|Hin].
    + destruct (closes l) eqn:Hl; [|by apply elem_of_nil in Hin].
      destruct (Hblock st o x Hin) as (v & ls & Hloc & Hx).
      by exists [], (l :: r), v, ls.
    + destruct (IH _ o x Hin) as (before & after & v & ls & -> & Hloc & Hafter & Hx).
      by exists (l :: before), after, v, ls.
Qed.

(** C2: in every variation of the mapping that [parse_assets] returns,
    [states_fen] has one entry more than [moves_uci], which has as many as
    [moves_san].  The variation was closed at some place of one of the
    files, and the three sequences hold what the first [n] tokens of the
    move lines gathered there resolve to, where either all the tokens
    resolved or the token after them was rejected: nothing of the tail
    that follows a rejected token shows in any of them. *)
Theorem parsed_sequences_aligned files o vars x :
  parse_assets E files !! o = Some vars -> x ∈ vars ->
  length (states_fen x) = (length (moves_uci x) + 1)%nat /\
  (length (moves_uci x) + 1 = length (moves_san x) + 1)%nat /\
  exists text lines n b' fs,
    text ∈ files /\ gathered E text o (name x) lines /\
    let toks := extract_tokens lines in
    moves_san x = take n toks /\
    resolved_run E (new_board E) (take n toks) = Some (b', moves_uci x, fs) /\
    states_fen x = fen E (new_board E) :: fs /\
    (n = length toks \/
     exists bad e, toks !! n = Some bad /\
       parse_san E b' (PyStr.sub_trailing_glyphs bad) = inr e).
Proof.
  intros Hlook Hin. rewrite parse_assets_lookup in Hlook.
  assert ((o, x) ∈ variations_in_order E files) as Hmet.
  { destruct ((filter _ (variations_in_order E files)).*2) as [|y ys] eqn:Hvs; [done|].
    injection Hlook as <-. rewrite <- Hvs in Hin.
    apply list_elem_of_fmap in Hin as ([k x'] & -> & Hk).
    apply list_elem_of_filter in Hk as [Hk Hk']. cbn in Hk. by subst k. }
  apply list_elem_of_In, List.in_concat in Hmet as (l & Hl & Hx).
  apply List.in_map_iff in Hl as (text & <- & Htext).
  apply list_elem_of_In, closed_in_order_elem in Hx
    as (before & after & v & ls & Hsplit & Hloc & Hafter & Hx).
  assert (name x = v) as Hname by (by rewrite Hx).
  destruct (build_variation_aligned E o v ls) as [Hf Hs].
  destruct (built_shape o v ls) as (n & b' & fs & H1 & H2 & H3 & H4).
  rewrite <- Hx in *. split; [lia|]. split; [lia|].
  exists text, ls, n, b', fs. split; [by apply list_elem_of_In|]. split.
  - rewrite Hname. by exists before, after.
  - done.
Qed.

(** C3: when the tokens [pre] of a variation resolve and the next one,
    [bad], does not, the flush files the variation with the moves of [pre]
    only, whatever follows [bad]; it prints one warning that names the
    opening, the variation and [bad]; every other entry of the mapping
    stays as it was and the variations filed before under the same opening
    stay in front; and the lines that follow are parsed as after any other
    flush: what they add to the mapping depends on the locals alone. *)
Theorem bad_token_stops_one_variation st o v pre bad post b' us fs e :
  cur_opening st = Some o -> cur_variation st = Some v ->
  extract_tokens (cur_moves_lines st) = pre ++ bad :: post ->
  resolved_run E (new_board E) pre = Some (b', us, fs) ->
  parse_san E b' (PyStr.sub_trailing_glyphs bad) = inr e ->
  let st' := flush_variation E st in
  let x := mkVariation v pre us (fen E (new_board E) :: fs) in
  openings st' = setdefault_append o x (openings st) /\
  printed st' = printed st ++ [warning bad o v e] /\
  locals st' = (Some o, Some v, []) /\
  (forall o', o' <> o -> openings st' !! o' = openings st !! o') /\
  openings st' !! o = Some (default [] (openings st !! o) ++ [x]) /\
  (forall lines, exists added,
     openings (process_lines E st' lines) = add_all added (openings st') /\
     forall st2, locals st2 = (Some o, Some v, []) ->
       openings (process_lines E st2 lines) = add_all added (openings st2)).
Proof.
  intros Ho Hv Htoks Hrun Hbad st' x.
  assert (PyStr.is_empty (PyStr.strip (PyStr.join LF (cur_moves_lines st))) = false) as Ht.
  { destruct (PyStr.is_empty _) eqn:Hem; [|done].
    apply tokens_need_text in Hem. rewrite Hem in Htoks. by destruct pre. }
  assert (build_variation E o v (cur_moves_lines st) = (x, [warning bad o v e])) as Hb.
  { unfold build_variation. rewrite Htoks.
    by rewrite (resolve_prefix_fail E o v pre bad post e _ _ _ _ [] _ [] Hrun Hbad). }
  assert (st' = mkPState (setdefault_append o x (openings st))
                  (printed st ++ [warning bad o v e]) (Some o) (Some v) []) as Hst'.
  { unfold st'. by rewrite (flush_with_text st o v Ho Hv Ht), Hb. }
  rewrite Hst'. cbn [openings printed]. split; [done|]. split; [done|]. split; [done|].
  split; [|split].
  - intros o' Hne. rewrite setdefault_append_lookup. by rewrite decide_False.
  - rewrite setdefault_append_lookup. by rewrite decide_True.
  - intros lines.
    destruct (process_lines_frame E lines
                (mkPState (setdefault_append o x (openings st))
                   (printed st ++ [warning bad o v e]) (Some o) (Some v) []))
      as (added & out & loc & Hframe).
    exists added. split.
    + by destruct (Hframe _ eq_refl) as (-> & _).
    + intros st2 H2. by destruct (Hframe st2 H2) as (-> & _).
Qed.

(** C9: an opening name is one key of the mapping, however many headers
    carry it: the entry of a name is the list of the variations closed
    while that name was the opening in force, from all headers and all
    files of the load, in the order in which they were met, and a name
    under which none was closed has no entry.  Across the files of one
    load, and within a file at every opening header, the result is the
    result for what came before merged with the result for what follows:
    under each name, the variations of the later part are appended after
    those of the earlier part. *)
Theorem repeated_opening_name_merges files files2 lines1 l lines2 :
  PyStr.startswith "**" (PyStr.strip l) = true ->
  (forall fs o,
     parse_assets E fs !! o
     = match (filter (fun kx => kx.1 = o) (variations_in_order E fs)).*2 with
       | [] => None
       | vs => Some vs
       end) /\
  variations_in_order E (files ++ files2)
  = variations_in_order E files ++ variations_in_order E files2 /\
  parse_assets E (files ++ files2)
  = merge_openings (parse_assets E files) (parse_assets E files2) /\
  fst (parse_lines E (parse_assets_out E files) (lines1 ++ l :: lines2))
  = merge_openings (fst (parse_lines E (parse_assets_out E files) lines1))
      (fst (parse_lines E (∅, []) (l :: lines2))).
Proof.
  intros Hhdr.
  destruct (parse_assets_out_frame E files) as (a1 & o1 & H1).
  assert (forall o, add_all a1 ∅ !! o <> Some []) as Hne1.
  { apply add_all_nonempty. intros o. by rewrite lookup_empty. }
  split.
  { intros fs o. apply parse_assets_lookup. }
  split.
  { unfold variations_in_order. by rewrite List.map_app, List.concat_app. }
  split.
  - destruct (parse_assets_out_frame E files2) as (a2 & o2 & H2).
    unfold parse_assets, parse_assets_out. rewrite fold_left_app, !H2, H1. cbn [fst snd].
    by apply add_all_merge.
  - unfold parse_assets_out. rewrite H1. cbn [fst snd].
    destruct (parse_lines_frame E lines1) as (b1 & p1 & Hl1).
    rewrite Hl1. cbn [fst].
    unfold parse_lines. cbn [fst snd].
    unfold process_lines. rewrite fold_left_app. cbn [fold_left].
    set (s1 := fold_left (process_line E) lines1 (mkPState (add_all a1 ∅) ([] ++ o1) None None [])).
    assert (openings (flush_variation E s1) = add_all b1 (add_all a1 ∅)) as Hs1.
    { specialize (Hl1 (add_all a1 ∅, [] ++ o1)). unfold parse_lines in Hl1.
      cbn [fst snd] in Hl1. by inversion Hl1. }
    assert (forall s, process_line E s l
              = mkPState (openings (flush_variation E s)) (printed (flush_variation E s))
                  (Some (header_name (PyStr.strip l))) None []) as Hline.
    { intros s. unfold process_line. by rewrite Hhdr. }
    rewrite !Hline.
    change (fold_left (process_line E) lines2 ?s) with (process_lines E s lines2).
    set (t1 := mkPState (openings (flush_variation E s1)) _ _ _ _).
    set (t2 := mkPState (openings (flush_variation E (mkPState ∅ [] None None []))) _ _ _ _).
    destruct (process_lines_frame E lines2 t1) as (a2 & o2 & loc2 & Hf2).
    destruct (flush_frame E (process_lines E t1 lines2)) as (a3 & o3 & loc3 & Hf3).
    destruct (Hf2 t1 eq_refl) as (Ht1 & _ & Hloc1).
    destruct (Hf2 t2 eq_refl) as (Ht2 & _ & Hloc2).
    destruct (Hf3 (process_lines E t1 lines2) eq_refl) as (-> & _).
    destruct (Hf3 (process_lines E t2 lines2)) as (-> & _); [congruence|].
    rewrite Ht1, Ht2. cbn [openings t1 t2 flush_variation cur_opening].
    rewrite <- !add_all_app.
    fold (flush_variation E s1). rewrite Hs1. rewrite <- add_all_app.
    rewrite (add_all_app b1), <- (add_all_app a1 b1).
    rewrite (add_all_merge (a2 ++ a3) (add_all (a1 ++ b1) ∅)); [done|].
    apply add_all_nonempty. intros o. by rewrite lookup_empty.
Qed.

(** C10: a line that is neither a header nor a separator is ignored while
    no variation is open, and a flush without a current variation does
    nothing; while no opening is open, variation headers, move lines and
    separators leave the mapping and the output as they were, up to the
    end of the file. *)
Theorem text_outside_a_variation_is_dropped :
  (forall st line,
     cur_variation st = None ->
     flush_variation E st = st /\
     (PyStr.startswith "*" (PyStr.strip line) = false ->
      is_separator (PyStr.strip line) = false ->
      process_line E st line = st)) /\
  (forall st lines,
     cur_opening st = None ->
     Forall (fun l => PyStr.startswith "**" (PyStr.strip l) = false) lines ->
     let st' := process_lines E st lines in
     cur_opening st' = None /\ flush_variation E st' = st' /\
     openings st' = openings st /\ printed st' = printed st).
Proof.
  split.
  - intros st line Hv. split.
    + unfold flush_variation. rewrite Hv. by destruct (cur_opening st).
    + intros H1 H3. unfold process_line.
      destruct (PyStr.startswith "**" (PyStr.strip line)) eqn:H2.
      { apply startswith_two_stars in H2. congruence. }
      by rewrite H1, H3, Hv.
  - intros st lines Ho Hall. revert st Ho.
    induction Hall as [|l ls Hl _ IH]; intros st Ho.
    + simpl. unfold flush_variation. by rewrite Ho.
    + assert (flush_variation E st = st) as Hflush.
      { unfold flush_variation. by rewrite Ho. }
      assert (cur_opening (process_line E st l) = None /\
              openings (process_line E st l) = openings st /\
              printed (process_line E st l) = printed st) as (Ho' & Hop & Hpr).
      { unfold process_line. rewrite Hl, Hflush.
        destruct (PyStr.startswith "*" _); [done|].
        destruct (is_separator _); [done|].
        destruct (cur_variation st); [|done]. by destruct (negb _). }
      cbn [process_lines fold_left].
      change (fold_left (process_line E) ls ?s) with (process_lines E s ls).
      destruct (IH _ Ho') as (H1 & H2 & H3 & H4).
      cbn zeta. rewrite H3, H4. done.
Qed.

End ParserClaims.


(* ===================================================================== *)
(** * The parser on concrete files *)
(* ===================================================================== *)

Section ParserExamples.

Import MiniChess Samples.

(** The example of the specification: one opening, one variation, six
    moves and seven snapshots. *)
Example caro_kann_parses :
  exists x,
    parse_assets engine [caro_kann] = {[ "Caro-Kann Defence" := [x] ]} /\
    name x = "Classical Variation" /\
    moves_san x = ["e4"; "c6"; "d4"; "d5"; "Nc3"; "dxe4"] /\
    moves_uci x = ["e2e4"; "c7c6"; "d2d4"; "d7d5"; "b1c3"; "d5e4"] /\
    length (states_fen x) = 7%nat.
Proof. eexists. repeat split; vm_compute; reflexivity. Qed.

Example two_lines_parses :
  parse_assets engine [two_lines] = {[ "Open" := [line_A; line_B] ]}.
Proof. vm_compute. reflexivity. Qed.

(** Text before the first header and a variation before the first opening
    leave no trace; nor does a move line under an opening with no
    variation open. *)
Example stray_parses :
  exists x,
    parse_assets_out engine [stray] = ({[ "A" := [x] ]}, []) /\
    name x = "B" /\ moves_san x = ["e4"].
Proof. eexists. repeat split; vm_compute; reflexivity. Qed.

(** C1, the claim as written fails: the variation [B] of [illegal_first]
    resolves no move and is returned all the same. *)
Lemma zero_move_variation_is_returned :
  exists vars x,
    parse_assets engine [illegal_first] !! "A" = Some vars /\ x ∈ vars /\
    moves_san x = [] /\ moves_uci x = [] /\ states_fen x = [start_fen].
Proof.
  exists [mkVariation "B" [] [] [start_fen]], (mkVariation "B" [] [] [start_fen]).
  split; [vm_compute; reflexivity|]. split; [apply list_elem_of_here|]. done.
Qed.

Lemma variation_without_moves_is_kept_witness :
  openings (flush_variation engine
              (mkPState ∅ [] (Some "A") (Some "B") ["1. Qh9 e5"])) !! "A"
  = Some [mkVariation "B" [] [] [start_fen]].
Proof.
  destruct (variation_without_moves_is_kept engine
              (mkPState ∅ [] (Some "A") (Some "B") ["1. Qh9 e5"]) "A" "B"
              eq_refl eq_refl) as [_ H].
  apply H.
  - vm_compute. reflexivity.
  - right. exists "Qh9", ["e5"], "invalid san: 'Qh9'".
    split; vm_compute; reflexivity.
Defined.

Lemma parsed_sequences_aligned_witness :
  let x := mkVariation "Broken" ["e4"; "e5!"; "Nf3"] ["e2e4"; "e7e5"; "g1f3"]
             [start_fen;
              "rnbqkbnr/pppppppp/8/8/4P3/8/PPPP1PPP/RNBQKBNR b KQkq - 0 1";
              "rnbqkbnr/pppp1ppp/8/4p3/4P3/8/PPPP1PPP/RNBQKBNR w KQkq - 0 2";
              "rnbqkbnr/pppp1ppp/8/4p3/4P3/5N2/PPPP1PPP/RNBQKB1R b KQkq - 1 2"] in
  length (states_fen x) = (length (moves_uci x) + 1)%nat /\
  (length (moves_uci x) + 1 = length (moves_san x) + 1)%nat /\
  exists text lines n b' fs,
    text ∈ [broken_tail] /\ gathered engine text "A" "Broken" lines /\
    moves_san x = take n (extract_tokens lines) /\
    resolved_run engine start (take n (extract_tokens lines)) = Some (b', moves_uci x, fs) /\
    states_fen x = board_fen start :: fs /\
    (n = length (extract_tokens lines) \/
     exists bad e, extract_tokens lines !! n = Some bad /\
       do_parse_san b' (PyStr.sub_trailing_glyphs bad) = inr e).
Proof.
  intros x.
  apply (parsed_sequences_aligned engine [broken_tail] "A"
           (default [] (parse_assets engine [broken_tail] !! "A")) x).
  - vm_compute. reflexivity.
  - vm_compute. apply list_elem_of_further, list_elem_of_here.
Defined.

(** The variation [Broken] of [broken_tail] was closed before the header
    of [Later], with one line gathered; its tokens are [e4], [e5!], [Nf3],
    [Qh9] and [d4], and the moves kept are the three before [Qh9]. *)
Example broken_tail_is_cut_at_the_bad_token :
  gathered engine broken_tail "A" "Broken" ["1. e4 {best} e5! 2. Nf3 Qh9 d4"] /\
  extract_tokens ["1. e4 {best} e5! 2. Nf3 Qh9 d4"] = ["e4"; "e5!"; "Nf3"; "Qh9"; "d4"] /\
  (moves_san <$> default [] (parse_assets engine [broken_tail] !! "A"))
  = [["e4"; "e5"]; ["e4"; "e5!"; "Nf3"]; ["d4"; "d5"]].
Proof.
  split; [|split; vm_compute; reflexivity].
  exists ["** A:"; "* Sound:"; "1. e4 e5"; "* Broken:"; "1. e4 {best} e5! 2. Nf3 Qh9 d4"],
    ["* Later:"; "1. d4 d5"; "** Z:"; "* Other:"; "1. Nf3"].
  repeat split; vm_compute; reflexivity.
Qed.

Lemma bad_token_stops_one_variation_witness :
  let st := mkPState {[ "A" := [mkVariation "Sound" ["e4"] ["e2e4"] [start_fen; start_fen]] ]}
              [] (Some "A") (Some "Broken") ["1. e4 {best} e5! 2. Nf3 Qh9 d4"] in
  printed (flush_variation engine st)
  = ["Warning: could not parse move 'Qh9' in A -> Broken: invalid san: 'Qh9'"] /\
  locals (flush_variation engine st) = (Some "A", Some "Broken", []).
Proof.
  intros st.
  edestruct (bad_token_stops_one_variation engine st "A" "Broken"
               ["e4"; "e5!"; "Nf3"] "Qh9" ["d4"]) as (_ & H2 & H3 & _).
  - reflexivity.
  - reflexivity.
  - vm_compute. reflexivity.
  - vm_compute. reflexivity.
  - vm_compute. reflexivity.
  - split; [exact H2 | exact H3].
Defined.

Lemma repeated_opening_name_merges_witness :
  parse_assets engine ([two_lines] ++ [twice_named]) !! "Open"
  = Some [line_A; line_B; line_A; line_B] /\
  (variations_in_order engine [twice_named]).*1 = ["Open"; "Other"; "Open"] /\
  parse_assets engine [twice_named] !! "Open" = Some [line_A; line_B] /\
  (name <$> default [] (parse_assets engine [twice_named] !! "Other")) = ["X"] /\
  parse_assets engine ([two_lines] ++ [twice_named])
  = merge_openings (parse_assets engine [two_lines]) (parse_assets engine [twice_named]) /\
  fst (parse_lines engine (parse_assets_out engine [two_lines])
         (["** Open:"; "* A:"; "1. e4 e5"] ++ "** Open:" :: ["* B:"; "1. e4 d5 2. exd5"]))
  = merge_openings
      (fst (parse_lines engine (parse_assets_out engine [two_lines])
              ["** Open:"; "* A:"; "1. e4 e5"]))
      (fst (parse_lines engine (∅, []) ("** Open:" :: ["* B:"; "1. e4 d5 2. exd5"]))).
Proof.
  destruct (repeated_opening_name_merges engine [two_lines] [twice_named]
              ["** Open:"; "* A:"; "1. e4 e5"] "** Open:" ["* B:"; "1. e4 d5 2. exd5"])
    as (Hentry & Horder & Hfiles & Hlines).
  - vm_compute. reflexivity.
  - split; [rewrite Hentry, Horder; vm_compute; reflexivity|].
    split; [vm_compute; reflexivity|].
    split; [rewrite Hentry; vm_compute; reflexivity|].
    split; [rewrite Hentry; vm_compute; reflexivity|].
    split; [exact Hfiles | exact Hlines].
Defined.

(** The same name under two headers of one file: one key, the variations
    in the order met. *)
Example twice_named_parses :
  parse_assets engine [twice_named] !! "Open" = Some [line_A; line_B] /\
  dom (parse_assets engine [twice_named]) = {[ "Open"; "Other" ]}.
Proof. split; vm_compute; reflexivity. Qed.

Lemma text_outside_a_variation_is_dropped_witness :
  let st := process_lines engine (mkPState ∅ [] None None [])
              ["1. e4 e5"; "* Orphan:"; "1. d4 d5"; "------"] in
  cur_opening st = None /\ flush_variation engine st = st /\
  openings st = ∅ /\ printed st = [].
Proof.
  destruct (text_outside_a_variation_is_dropped engine) as [_ H].
  apply (H (mkPState ∅ [] None None [])); [reflexivity|].
  repeat constructor.
Defined.

End ParserExamples.


(* ===================================================================== *)
(** * Facts about the canvas *)
(* ===================================================================== *)

Section CanvasFacts.

Variable E : RulesEngine.

Implicit Types (c : Canvas E) (b : Board E).

Lemma on_canvas_maps sq c c' :
  piece_maps c = piece_maps c' -> on_canvas sq c = on_canvas sq c'.
Proof. unfold piece_maps, on_canvas. by intros [= -> ->]. Qed.

Lemma clear_arrow_maps c : piece_maps (clear_arrow c) = piece_maps c.
Proof. unfold clear_arrow. by destruct (arrow_item c). Qed.

Lemma clear_check_maps c : piece_maps (clear_check c) = piece_maps c.
Proof. unfold clear_check. by destruct (check_item c). Qed.

Lemma draw_arrow_maps f t c : piece_maps (_draw_last_move_arrow f t c) = piece_maps c.
Proof.
  unfold _draw_last_move_arrow. destruct (centre f), (centre t). cbn.
  apply clear_arrow_maps.
Qed.

Lemma highlight_check_maps b c : piece_maps (highlight_check b c) = piece_maps c.
Proof.
  unfold highlight_check. destruct (is_check E b); [|apply clear_check_maps].
  destruct (king_to_move E b); [|apply clear_check_maps].
  destruct (centre z). cbn. apply clear_check_maps.
Qed.

Lemma clear_arrow_board c : current_board (clear_arrow c) = current_board c.
Proof. unfold clear_arrow. by destruct (arrow_item c). Qed.

Lemma clear_check_board c : current_board (clear_check c) = current_board c.
Proof. unfold clear_check. by destruct (check_item c). Qed.

Lemma draw_arrow_board f t c :
  current_board (_draw_last_move_arrow f t c) = current_board c.
Proof.
  unfold _draw_last_move_arrow. destruct (centre f), (centre t). cbn.
  apply clear_arrow_board.
Qed.

Lemma highlight_check_board b c : current_board (highlight_check b c) = current_board c.
Proof.
  unfold highlight_check. destruct (is_check E b); [|apply clear_check_board].
  destruct (king_to_move E b); [|apply clear_check_board].
  destruct (centre z). cbn. apply clear_check_board.
Qed.

Lemma place_piece_board b c sq : current_board (place_piece b c sq) = current_board c.
Proof.
  unfold place_piece. destruct (piece_at E b sq); [|done].
  cbn. by destruct (has_images c).
Qed.

Lemma place_piece_keeps b c sq sq' :
  on_canvas sq c = true -> on_canvas sq (place_piece b c sq') = true.
Proof.
  unfold place_piece, on_canvas. intros H.
  destruct (piece_at E b sq'); [|done]. cbn.
  destruct (has_images c); cbn.
  - destruct (decide (sq' = sq)) as [->|Hne].
    + by rewrite lookup_insert_eq, bool_decide_eq_true_2.
    + by rewrite lookup_insert_ne.
  - destruct (decide (sq' = sq)) as [->|Hne].
    + rewrite lookup_insert_eq, (bool_decide_eq_true_2 (is_Some (Some _))) by done.
      apply orb_true_r.
    + by rewrite lookup_insert_ne.
Qed.

Lemma place_piece_puts b c sq :
  is_Some (piece_at E b sq) -> on_canvas sq (place_piece b c sq) = true.
Proof.
  unfold place_piece, on_canvas. intros [p ->]. cbn.
  destruct (has_images c); cbn; rewrite lookup_insert_eq.
  - by rewrite bool_decide_eq_true_2.
  - rewrite (bool_decide_eq_true_2 (is_Some (Some _))) by done. apply orb_true_r.
Qed.

Lemma place_all_keeps b sqs : forall c sq,
  on_canvas sq c = true -> on_canvas sq (fold_left (place_piece b) sqs c) = true.
Proof.
  induction sqs as [|s r IH]; intros c sq H; [done|].
  simpl. apply IH. by apply place_piece_keeps.
Qed.

Lemma place_all_puts b sqs : forall c sq,
  sq ∈ sqs -> is_Some (piece_at E b sq) ->
  on_canvas sq (fold_left (place_piece b) sqs c) = true.
Proof.
  induction sqs as [|s r IH]; intros c sq Hin Hp; [by apply elem_of_nil in Hin|].
  simpl. apply elem_of_cons in Hin as [->|Hin].
  - apply place_all_keeps. by apply place_piece_puts.
  - by apply IH.
Qed.

Lemma place_all_board b sqs : forall c,
  current_board (fold_left (place_piece b) sqs c) = current_board c.
Proof.
  induction sqs as [|s r IH]; intros c; [done|].
  simpl. by rewrite IH, place_piece_board.
Qed.

(** After a redraw every piece of the board is on the canvas. *)
Lemma reset_shows b c : shows E (reset_pieces_from_board b c) b.
Proof.
  intros sq Hsq Hp. unfold reset_pieces_from_board.
  erewrite on_canvas_maps; [|by rewrite clear_check_maps, clear_arrow_maps].
  apply place_all_puts; [|done]. unfold SQUARES. apply elem_of_seqZ. lia.
Qed.

Lemma reset_board b c : current_board (reset_pieces_from_board b c) = b.
Proof.
  unfold reset_pieces_from_board.
  by rewrite clear_check_board, clear_arrow_board, place_all_board.
Qed.

Lemma shows_maps c c' b : piece_maps c = piece_maps c' -> shows E c b -> shows E c' b.
Proof.
  intros Hm Hs sq Hsq Hp. rewrite <- (on_canvas_maps sq c c' Hm). by apply Hs.
Qed.

Lemma remove_piece_items_other sq sq' c :
  sq <> sq' -> on_canvas sq (remove_piece_items sq' c) = on_canvas sq c.
Proof.
  intros Hne. unfold remove_piece_items, on_canvas.
  destruct (images_on_board c !! sq') as [i|] eqn:Hi; cbn.
  - destruct (text_items c !! sq') as [t|] eqn:Ht; cbn;
      rewrite ?lookup_delete_ne by done; done.
  - destruct (text_items c !! sq') as [t|] eqn:Ht; cbn;
      rewrite ?lookup_delete_ne by done; done.
Qed.

Lemma tk_create_on_canvas sq it c : on_canvas sq (tk_create it c).2 = on_canvas sq c.
Proof. done. Qed.

End CanvasFacts.


(* ===================================================================== *)
(** * One animation session *)
(* ===================================================================== *)

Section SessionFacts.

Variable E : RulesEngine.

Implicit Types (a : App E) (c : Canvas E) (f : Frame E) (cb : AfterAnim E).

Lemma py_index_in_range {A} (l : list A) i :
  0 <= i < Z.of_nat (length l) -> py_index l i = l !! Z.to_nat i.
Proof.
  intros [H0 H1]. unfold py_index.
  apply Z.leb_le in H0. apply Z.ltb_lt in H1. by rewrite H0, H1.
Qed.

Lemma py_index_head {A} (x : A) l : py_index (x :: l) 0 = Some x.
Proof.
  unfold py_index. cbn [length].
  destruct (Z.ltb_spec 0 (Z.of_nat (S (length l)))) as [_|H]; [done | lia].
Qed.

Lemma py_index_elem {A} (l : list A) i x : py_index l i = Some x -> x ∈ l.
Proof.
  unfold py_index. intros H.
  destruct (_ && _); [by eapply list_elem_of_lookup_2|].
  destruct (_ && _); [by eapply list_elem_of_lookup_2 | done].
Qed.

Lemma py_slice_to_nonneg {A} (l : list A) n :
  0 <= n -> py_slice_to l n = take (Z.to_nat n) l.
Proof. intros H. unfold py_slice_to. by rewrite (proj2 (Z.ltb_ge n 0) H). Qed.

Lemma replay_snoc fen0 ucis u :
  replay E fen0 (ucis ++ [u]) = push E (replay E fen0 ucis) (from_uci E u).
Proof. unfold replay. by rewrite fold_left_app. Qed.

(** A frame before the last one moves the clone and sets the next timer:
    it touches the canvas and the timers only. *)
Lemma frame_tick invoke f a :
  fr_i f < ANIM_FRAMES ->
  exists c' f',
    frame invoke f a = Ok (set_timers (timers a ++ [f']) (with_canvas (fun _ => c') a)) /\
    fr_i f' = fr_i f + 1 /\ fr_callback f' = fr_callback f.
Proof.
  intros Hi. unfold frame.
  destruct (centre (fr_from_sq f)) as [fx fy], (centre (fr_to_sq f)) as [tx ty].
  destruct (Z.geb_spec (fr_i f) ANIM_FRAMES) as [Hge|_]; [lia|].
  destruct (fr_captured_item_sq f) as [sq|]; [destruct (fr_i f =? ANIM_FRAMES / 2)|];
    eexists _, _; (split; [reflexivity | by split]).
Qed.

(** The last frame puts the piece down, draws the arrow and completes, all
    in the same step. *)
Lemma frame_final invoke f a :
  ANIM_FRAMES <= fr_i f ->
  exists c', frame invoke f a = call_back invoke (fr_callback f) (with_canvas (fun _ => c') a).
Proof.
  intros Hi. unfold frame.
  destruct (centre (fr_from_sq f)) as [fx fy], (centre (fr_to_sq f)) as [tx ty].
  destruct (Z.geb_spec (fr_i f) ANIM_FRAMES) as [_|Hlt]; [|lia].
  destruct (fr_captured_item_sq f) as [sq|]; eexists; reflexivity.
Qed.

(** With one session in flight and nothing else happening, the timers that
    precede the last frame change the canvas only. *)
Lemma wait_frames (j : nat) : forall f c a,
  fr_i f + Z.of_nat j = ANIM_FRAMES ->
  exists c' f',
    run (set_timers [f] (with_canvas (fun _ => c) a)) (repeat Timer j)
    = set_timers [f'] (with_canvas (fun _ => c') a) /\
    fr_i f' = ANIM_FRAMES /\ fr_callback f' = fr_callback f.
Proof.
  induction j as [|j IH]; intros f c a Hi.
  - exists c, f. split; [done|]. split; [lia | done].
  - destruct (frame_tick run_callback f
                (set_timers [] (set_timers [f] (with_canvas (fun _ => c) a))))
      as (c1 & f1 & Hf & Hi1 & Hcb1); [lia|].
    destruct (IH f1 c1 a) as (c' & f' & Hrun & Hi' & Hcb'); [lia|].
    exists c', f'. split; [|split; [done | congruence]].
    cbn [repeat run fold_left]. unfold handle at 2. cbn [dispatch timers set_timers].
    change (frame run_callback f ?x) with
      (frame run_callback f (set_timers [] (set_timers [f] (with_canvas (fun _ => c) a)))).
    rewrite Hf. exact Hrun.
Qed.

(** ** The search for the captured piece, when the canvas shows the board *)

(** What the proofs need of the chess library: a move read from a UCI
    string ends on one of the 64 squares, and a capture leaves its
    square. *)
Hypothesis to_square_on_board : forall u, 0 <= to_square E (from_uci E u) < 64.
Hypothesis capture_moves : forall b u,
  is_capture E b (from_uci E u) = true ->
  from_square E (from_uci E u) <> to_square E (from_uci E u).

Lemma captured_item_found bb u mp clone c :
  shows E c bb ->
  exists r,
    find_captured_item_sq (from_uci E u) mp
      (if is_capture E bb (from_uci E u)
       then piece_at E bb (to_square E (from_uci E u)) else None)
      (remove_piece_items (from_square E (from_uci E u)) (tk_create clone c).2)
    = inr r.
Proof.
  intros Hshow. unfold find_captured_item_sq.
  destruct (is_capture E bb (from_uci E u)) eqn:Hcap; [|by eexists].
  destruct (piece_at E bb (to_square E (from_uci E u))) as [p|] eqn:Hp; [|by eexists].
  rewrite remove_piece_items_other by (intros Heq; by apply (capture_moves bb u)).
  rewrite tk_create_on_canvas, Hshow; [by eexists | apply to_square_on_board | by rewrite Hp].
Qed.

(** A call of [animate_move] on a canvas that shows the board either
    completes at once (nothing to animate) or sets one timer, for frame 1,
    that carries the callback. *)
Lemma animate_move_paths invoke bb u cb a :
  shows E (board_canvas a) bb ->
  exists c',
    animate_move invoke bb u (Some cb) a
    = invoke cb (log_call CCallback
                   (with_canvas (fun _ => c')
                      (log_call (CAnimate u (current_move_index a)) a)))
    \/
    exists f',
      animate_move invoke bb u (Some cb) a
      = Ok (set_timers (timers a ++ [f'])
              (with_canvas (fun _ => c')
                 (log_call (CAnimate u (current_move_index a)) a))) /\
      fr_i f' = 1 /\ fr_callback f' = Some cb.
Proof.
  intros Hshow. unfold animate_move.
  destruct (piece_at E bb (from_square E (from_uci E u))) as [mp|] eqn:Hmp.
  2: { exists (reset_pieces_from_board (push E bb (from_uci E u)) (board_canvas a)).
       left. unfold animate_fallback, call_back, with_canvas, log_call.
       cbn [board_canvas]. reflexivity. }
  cbn [board_canvas log_call].
  destruct (item_at _ (board_canvas a)) as [it|] eqn:Hit.
  2: { exists (reset_pieces_from_board (push E bb (from_uci E u)) (board_canvas a)).
       left. unfold animate_fallback, call_back, with_canvas, log_call.
       cbn [board_canvas]. reflexivity. }
  destruct (centre (from_square E (from_uci E u))) as [cx cy].
  set (clone := PieceItem _ mp _ _).
  destruct (captured_item_found bb u mp clone (board_canvas a) Hshow) as [r Hr].
  destruct (tk_create clone (board_canvas a)) as [moving_item c1].
  cbn [snd] in Hr. rewrite Hr.
  match goal with |- context [frame invoke ?f ?x] =>
    destruct (frame_tick invoke f x) as (c' & f' & Hf & Hi & Hcb); [done|]
  end.
  exists c'. right. exists f'. rewrite Hf. split; [reflexivity|]. by split.
Qed.

Lemma run_app a evs1 evs2 : run (run a evs1) evs2 = run a (evs1 ++ evs2).
Proof. unfold run. by rewrite fold_left_app. Qed.

Lemma sessions_animate_calls ucis k : forall idx,
  animate_calls (sessions ucis idx k) = k.
Proof.
  induction k as [|k IH]; intros idx; [done|].
  unfold animate_calls in *. cbn. by rewrite IH.
Qed.

Lemma animate_calls_app cs1 cs2 :
  animate_calls (cs1 ++ cs2) = (animate_calls cs1 + animate_calls cs2)%nat.
Proof. unfold animate_calls. by rewrite List.filter_app, length_app. Qed.

(** ** Forward from ply [idx], [k] plies in a row *)

Section Forward.

Variables (var : Variation) (N : Z) (fen0 : string) (more : list string).
Hypothesis first_snapshot : states_fen var = fen0 :: more.

Lemma forward_run (k : nat) : forall depth idx a,
  (k < depth)%nat -> 0 <= idx ->
  idx + Z.of_nat k <= Z.of_nat (length (moves_uci var)) ->
  timers a = [] -> current_move_index a = idx ->
  shows E (board_canvas a) (replay E fen0 (take (Z.to_nat idx) (moves_uci var))) ->
  exists a1 n a2,
    step_to_depth depth var N idx (idx + Z.of_nat k) a = Ok a1 /\
    (n <= 25 * k)%nat /\
    run a1 (repeat Timer n) = a2 /\
    timers a2 = [] /\
    current_move_index a2 = idx + Z.of_nat k /\
    calls a2 = calls a ++ sessions (moves_uci var) idx k /\
    shows E (board_canvas a2)
      (replay E fen0 (take (Z.to_nat (idx + Z.of_nat k)) (moves_uci var))) /\
    ((0 < k)%nat ->
     current_board (board_canvas a2)
     = replay E fen0 (take (Z.to_nat (idx + Z.of_nat k)) (moves_uci var))) /\
    current_opening a2 = current_opening a /\
    current_variation_idx a2 = current_variation_idx a /\
    app_openings a2 = app_openings a.
Proof.
  induction k as [|k IH]; intros depth idx a Hdepth Hidx Hlen Htimers Hcur Hshow.
  - destruct depth as [|depth]; [lia|].
    exists (show_position var N (set_move_index idx a)), 0%nat,
      (show_position var N (set_move_index idx a)).
    cbn [step_to_depth]. rewrite Z.add_0_r, Z.eqb_refl.
    cbn. rewrite app_nil_r. repeat split; try done; lia.
  - destruct depth as [|depth]; [lia|].
    assert (exists u, moves_uci var !! Z.to_nat idx = Some u) as [u Hu].
    { apply lookup_lt_is_Some. lia. }
    set (bb := replay E fen0 (take (Z.to_nat idx) (moves_uci var))) in *.
    set (cb := mkAfterAnim var N (idx + Z.of_nat (S k)) (idx + 1) u bb).
    assert (step_to_depth (S depth) var N idx (idx + Z.of_nat (S k)) a
            = animate_move (after_anim (step_to_depth depth)) bb u (Some cb) a) as ->.
    { cbn [step_to_depth].
      destruct (Z.eqb_spec idx (idx + Z.of_nat (S k))) as [Heq|_]; [lia|].
      destruct (Z.gtb_spec (idx + Z.of_nat (S k)) idx) as [_|Hle]; [|lia].
      replace (idx + 1 - 1) with idx by lia.
      rewrite py_index_in_range by lia. rewrite Hu, first_snapshot, py_index_head.
      rewrite py_slice_to_nonneg by lia. reflexivity. }
    (* what happens once the session completes, whoever runs the callback *)
    assert (forall depth2 c2, (k < depth2)%nat ->
      exists a1 n a2,
        after_anim (step_to_depth depth2) cb
          (log_call CCallback (with_canvas (fun _ => c2) (log_call (CAnimate u idx) a)))
        = Ok a1 /\
        (n <= 25 * k)%nat /\
        run a1 (repeat Timer n) = a2 /\
        timers a2 = [] /\
        current_move_index a2 = idx + Z.of_nat (S k) /\
        calls a2 = calls a ++ sessions (moves_uci var) idx (S k) /\
        shows E (board_canvas a2)
          (replay E fen0 (take (Z.to_nat (idx + Z.of_nat (S k))) (moves_uci var))) /\
        current_board (board_canvas a2)
        = replay E fen0 (take (Z.to_nat (idx + Z.of_nat (S k))) (moves_uci var)) /\
        current_opening a2 = current_opening a /\
        current_variation_idx a2 = current_variation_idx a /\
        app_openings a2 = app_openings a) as Hdone.
    { intros depth2 c2 Hd2. unfold after_anim. cbn [aa_uci aa_board_before aa_var
        aa_max_moves aa_next_index aa_idx_to cb].
      set (board := push E bb (from_uci E u)).
      assert (board = replay E fen0 (take (Z.to_nat (idx + 1)) (moves_uci var))) as Hboard.
      { replace (Z.to_nat (idx + 1)) with (S (Z.to_nat idx)) by lia.
        rewrite (take_S_r _ _ _ Hu). unfold board, bb. by rewrite replay_snoc. }
      match goal with |- context [step_to_depth depth2 var N (idx + 1) _ ?x] =>
        set (aY := x) end.
      destruct (IH depth2 (idx + 1) aY) as (a1 & n & a2 & H1 & H2 & H3 & H4 & H5 & H6 & H7 & H8 & H9 & H10 & H11).
      + lia.
      + lia.
      + lia.
      + unfold aY. cbn. exact Htimers.
      + reflexivity.
      + rewrite <- Hboard. unfold aY. cbn [board_canvas show_position set_status
          set_move_index with_canvas log_call].
        eapply shows_maps; [|apply (reset_shows E board c2)].
        by rewrite highlight_check_maps, draw_arrow_maps.
      + exists a1, n, a2.
        replace (idx + Z.of_nat (S k)) with (idx + 1 + Z.of_nat k) by lia.
        split; [exact H1|]. split; [lia|]. split; [exact H3|]. split; [exact H4|].
        split; [exact H5|]. split.
        { rewrite H6. unfold aY. cbn [calls show_position set_status set_move_index
            with_canvas log_call sessions]. rewrite Hu. cbn [default].
          rewrite <- !app_assoc. reflexivity. }
        split; [exact H7|]. split.
        { destruct k as [|k'].
          - (* the last ply: no further session *)
            destruct depth2 as [|depth2]; [lia|].
            cbn [step_to_depth] in H1. rewrite Z.add_0_r, Z.eqb_refl in H1.
            inversion H1; subst a1. clear H1.
            assert (n = 0)%nat as -> by lia. cbn [repeat run fold_left] in H3. subst a2.
            rewrite Z.add_0_r, <- Hboard. unfold aY.
            cbn [board_canvas show_position set_status set_move_index with_canvas log_call].
            by rewrite highlight_check_board, draw_arrow_board, reset_board.
          - apply H8. lia. }
        split; [exact H9|]. split; [exact H10 | exact H11]. }
    destruct (animate_move_paths (after_anim (step_to_depth depth)) bb u cb a Hshow)
      as (c1 & [Hsync | (f1 & Hasync & Hi1 & Hcb1)]).
    + (* nothing to animate: the callback runs inside the call *)
      rewrite Hsync, Hcur.
      destruct (Hdone depth c1) as (a1 & n & a2 & H1 & H2 & H3 & H4 & H5 & H6 & H7 & H8 & H9);
        [lia|].
      exists a1, n, a2. split; [exact H1|]. split; [lia|].
      split; [exact H3|]. split; [exact H4|]. split; [exact H5|]. split; [exact H6|].
      split; [exact H7|]. split; [intros _; exact H8 | exact H9].
    + (* one session: 24 frames, then the last one runs the callback *)
      rewrite Hasync, Hcur, Htimers. cbn [app].
      destruct (wait_frames 24 f1 c1 (log_call (CAnimate u idx) a))
        as (c2 & f2 & Hwait & Hi2 & Hcb2); [rewrite Hi1; reflexivity|].
      destruct (frame_final run_callback f2
                  (set_timers [] (set_timers [f2]
                     (with_canvas (fun _ => c2) (log_call (CAnimate u idx) a)))))
        as (c3 & Hfinal); [lia|].
      destruct (Hdone (S (Z.to_nat (idx + Z.of_nat (S k) - (idx + 1)))) c3)
        as (a1 & n & a2 & H1 & H2 & H3 & H4 & H5 & H6 & H7 & H8 & H9); [lia|].
      eexists _, (24 + S n)%nat, a2. split; [reflexivity|]. split; [lia|].
      split.
      { rewrite repeat_app, <- run_app, Hwait. cbn [repeat run fold_left].
        unfold handle at 2. cbn [dispatch timers set_timers].
        change (frame run_callback f2 ?x) with
          (frame run_callback f2 (set_timers [] (set_timers [f2]
             (with_canvas (fun _ => c2) (log_call (CAnimate u idx) a))))).
        rewrite Hfinal, Hcb2, Hcb1. cbn [call_back]. unfold run_callback, step_to.
        cbn [aa_idx_to aa_next_index cb] in *.
        assert (set_timers [] (log_call (CAnimate u idx) a) = log_call (CAnimate u idx) a) as Hsame.
        { destruct a. cbn in Htimers. subst. reflexivity. }
        change (log_call CCallback (with_canvas (fun _ => c3) (set_timers [] (set_timers [f2]
                  (with_canvas (fun _ => c2) (log_call (CAnimate u idx) a))))))
          with (log_call CCallback (with_canvas (fun _ => c3)
                  (set_timers [] (log_call (CAnimate u idx) a)))).
        rewrite Hsame.
        unfold after_anim in H1 |- *. cbn [aa_var aa_max_moves aa_next_index aa_idx_to
          aa_uci aa_board_before cb] in H1 |- *.
        rewrite H1. exact H3. }
      split; [exact H4|]. split; [exact H5|]. split; [exact H6|].
      split; [exact H7|]. split; [intros _; exact H8 | exact H9].
Qed.

End Forward.

(** ** Backward: a redraw and nothing else *)

Lemma backward_step depth var N fen0 more idx_from idx_to a :
  states_fen var = fen0 :: more ->
  0 <= idx_to < idx_from -> idx_to <= Z.of_nat (length (moves_uci var)) ->
  let nb := replay E fen0 (take (Z.to_nat idx_to) (moves_uci var)) in
  exists a1,
    step_to_depth (S depth) var N idx_from idx_to a = Ok a1 /\
    calls a1 = calls a /\ timers a1 = timers a /\
    current_move_index a1 = idx_to /\
    current_board (board_canvas a1) = nb /\
    shows E (board_canvas a1) nb /\
    current_opening a1 = current_opening a /\
    current_variation_idx a1 = current_variation_idx a /\
    app_openings a1 = app_openings a.
Proof.
  intros Hfen Hidx Hlen nb. cbn [step_to_depth].
  destruct (Z.eqb_spec idx_from idx_to) as [Heq|_]; [lia|].
  destruct (Z.gtb_spec idx_to idx_from) as [Hgt|_]; [lia|].
  rewrite Hfen, py_index_head.
  rewrite py_slice_to_nonneg by lia. fold nb.
  destruct (Z.gtb_spec idx_to 0) as [Hpos|Hzero].
  - rewrite py_index_in_range by lia.
    assert (is_Some (moves_uci var !! Z.to_nat (idx_to - 1))) as [last_m ->].
    { apply lookup_lt_is_Some. lia. }
    eexists. split; [reflexivity|]. cbn [calls timers current_move_index board_canvas current_opening current_variation_idx
      app_openings show_position set_status set_move_index with_canvas].
    rewrite highlight_check_board, draw_arrow_board, reset_board.
    repeat split; try done.
    eapply shows_maps; [|apply (reset_shows E nb (board_canvas a))].
    by rewrite highlight_check_maps, draw_arrow_maps.
  - eexists. split; [reflexivity|]. cbn [calls timers current_move_index board_canvas current_opening current_variation_idx
      app_openings show_position set_status set_move_index with_canvas].
    rewrite highlight_check_board, reset_board.
    repeat split; try done.
    eapply shows_maps; [|apply (reset_shows E nb (board_canvas a))].
    by rewrite highlight_check_maps.
Qed.

Lemma play_move_sequence_to_selected a o vi var target :
  current_opening a = Some o -> current_variation_idx a = Some vi ->
  get_variation o vi a = inr var ->
  play_move_sequence_to target a
  = step_to var (Z.of_nat (length (moves_uci var))) (current_move_index a)
      (Z.max 0 (Z.min target (Z.of_nat (length (moves_uci var))))) a.
Proof. intros Ho Hv Hvar. unfold play_move_sequence_to. by rewrite Ho, Hv, Hvar. Qed.

(** X19: with a variation selected, a navigation request whose clamped
    target lies behind the cursor calls [animate_move] not once and sets no
    timer: it redraws the position of the target at once.  From a state at
    rest whose canvas shows the position of the cursor, a request whose
    target [t] lies ahead runs, over the timers that follow, exactly
    [t - cur] sessions, one per ply: the log gains, for each ply in turn,
    the call of [animate_move] made with the cursor at that ply and then
    its completion, which comes before the next call. *)
Theorem navigation_sessions a o vi var fen0 more target :
  current_opening a = Some o -> current_variation_idx a = Some vi ->
  get_variation o vi a = inr var ->
  states_fen var = fen0 :: more ->
  0 <= current_move_index a ->
  let N := Z.of_nat (length (moves_uci var)) in
  let cur := current_move_index a in
  let t := Z.max 0 (Z.min target N) in
  let at_ply i := replay E fen0 (take (Z.to_nat i) (moves_uci var)) in
  (t < cur ->
   exists a1,
     play_move_sequence_to target a = Ok a1 /\
     calls a1 = calls a /\ timers a1 = timers a /\
     current_move_index a1 = t /\
     current_board (board_canvas a1) = at_ply t /\
     shows E (board_canvas a1) (at_ply t)) /\
  (cur < t -> timers a = [] -> shows E (board_canvas a) (at_ply cur) ->
   exists a1 n a2,
     play_move_sequence_to target a = Ok a1 /\
     (n <= 25 * Z.to_nat (t - cur))%nat /\
     run a1 (repeat Timer n) = a2 /\
     timers a2 = [] /\
     current_move_index a2 = t /\
     calls a2 = calls a ++ sessions (moves_uci var) cur (Z.to_nat (t - cur)) /\
     animate_calls (calls a2) = (animate_calls (calls a) + Z.to_nat (t - cur))%nat /\
     current_board (board_canvas a2) = at_ply t).
Proof.
  intros Ho Hv Hvar Hfen Hcur N cur t at_ply.
  rewrite (play_move_sequence_to_selected a o vi var target Ho Hv Hvar).
  fold N t cur. unfold step_to. split.
  - intros Hback.
    destruct (backward_step (Z.to_nat (t - cur)) var N fen0 more cur t a Hfen)
      as (a1 & H1 & H2 & H3 & H4 & H5 & H6 & _); [lia | lia |].
    exists a1. by repeat split.
  - intros Hfwd Htimers Hshow.
    destruct (forward_run var N fen0 more Hfen (Z.to_nat (t - cur))
                (S (Z.to_nat (t - cur))) cur a)
      as (a1 & n & a2 & H1 & H2 & H3 & H4 & H5 & H6 & H7 & H8 & _);
      [lia | lia | lia | done | done | done |].
    replace (cur + Z.of_nat (Z.to_nat (t - cur))) with t in * by lia.
    exists a1, n, a2. split; [exact H1|]. split; [exact H2|]. split; [exact H3|].
    split; [exact H4|]. split; [exact H5|]. split; [exact H6|]. split.
    + by rewrite H6, animate_calls_app, sessions_animate_calls.
    + apply H8. lia.
Qed.

End SessionFacts.


(* ===================================================================== *)
(** * What every handler preserves *)
(* ===================================================================== *)

(** ** Fields that navigation never writes *)

Section Untouched.

Variable E : RulesEngine.
Variable X : Type.
Variable proj : App E -> X.

Hypothesis proj_canvas : forall f a, proj (with_canvas f a) = proj a.
Hypothesis proj_timers : forall t a, proj (set_timers t a) = proj a.
Hypothesis proj_index : forall i a, proj (set_move_index i a) = proj a.
Hypothesis proj_status : forall s a, proj (set_status s a) = proj a.
Hypothesis proj_log : forall c a, proj (log_call c a) = proj a.


Lemma call_back_keeps invoke cbo a :
  (forall cb a', proj (state_of (invoke cb a')) = proj a') ->
  proj (state_of (call_back invoke cbo a)) = proj a.
Proof.
  intros Hinv. unfold call_back. destruct cbo as [cb|]; [|done].
  by rewrite Hinv, proj_log.
Qed.

Lemma frame_keeps invoke f a :
  (forall cb a', proj (state_of (invoke cb a')) = proj a') ->
  proj (state_of (frame invoke f a)) = proj a.
Proof.
  intros Hinv. unfold frame.
  destruct (centre (fr_from_sq f)), (centre (fr_to_sq f)).
  destruct (fr_i f >=? ANIM_FRAMES).
  - rewrite call_back_keeps by done. rewrite !proj_canvas.
    destruct (fr_captured_item_sq f); by rewrite ?proj_canvas.
  - cbn [state_of]. rewrite proj_timers.
    destruct (fr_captured_item_sq f); [destruct (fr_i f =? _)|];
      by rewrite ?proj_canvas.
Qed.

Lemma animate_move_keeps invoke bb u cbo a :
  (forall cb a', proj (state_of (invoke cb a')) = proj a') ->
  proj (state_of (animate_move invoke bb u cbo a)) = proj a.
Proof.
  intros Hinv. unfold animate_move, animate_fallback.
  destruct (piece_at E bb _).
  2: { rewrite call_back_keeps by done. by rewrite proj_canvas, proj_log. }
  destruct (item_at _ _).
  2: { rewrite call_back_keeps by done. by rewrite proj_canvas, proj_log. }
  destruct (centre _). destruct (tk_create _ _).
  destruct (find_captured_item_sq _ _ _ _).
  - cbn [state_of]. by rewrite proj_canvas, proj_log.
  - rewrite frame_keeps by done. by rewrite proj_canvas, proj_log.
Qed.

Lemma step_to_depth_keeps depth : forall var N i j a,
  proj (state_of (step_to_depth depth var N i j a)) = proj a.
Proof.
  induction depth as [|depth IH]; intros var N i j a; [done|].
  cbn [step_to_depth].
  destruct (i =? j). { cbn [state_of]. unfold show_position. by rewrite proj_status, proj_index. }
  destruct (j >? i).
  - destruct (py_index (moves_uci var) _); [|done].
    destruct (py_index (states_fen var) 0); [|done].
    apply animate_move_keeps. intros cb a'. unfold after_anim.
    rewrite IH. unfold show_position.
    by rewrite proj_status, proj_index, !proj_canvas.
  - destruct (py_index (states_fen var) 0); [|done].
    destruct (j >? 0).
    + destruct (py_index (moves_uci var) _); cbn [state_of]; unfold show_position;
        by rewrite ?proj_status, ?proj_index, ?proj_canvas.
    + cbn [state_of]. unfold show_position. by rewrite proj_status, proj_index, !proj_canvas.
Qed.

Lemma run_callback_keeps cb a : proj (state_of (run_callback cb a)) = proj a.
Proof.
  unfold run_callback, after_anim, step_to. rewrite step_to_depth_keeps.
  unfold show_position. by rewrite proj_status, proj_index, !proj_canvas.
Qed.

Lemma play_move_sequence_to_keeps target a : proj (state_of (play_move_sequence_to target a)) = proj a.
Proof.
  unfold play_move_sequence_to.
  destruct (current_opening a); [|done]. destruct (current_variation_idx a); [|done].
  destruct (get_variation _ _ _); [done|]. apply step_to_depth_keeps.
Qed.

Lemma dispatch_keeps ev a :
  keeps_selection ev = true -> proj (state_of (dispatch ev a)) = proj a.
Proof.
  destruct ev; try discriminate; intros _; unfold dispatch.
  - destruct (timers a) as [|f rest]; [done|].
    rewrite frame_keeps; [apply proj_timers | apply run_callback_keeps].
  - unfold on_prev. destruct (current_opening a); [|done].
    destruct (current_variation_idx a); [|done]. apply play_move_sequence_to_keeps.
  - unfold on_next. destruct (current_opening a); [|done].
    destruct (current_variation_idx a); [|done]. apply play_move_sequence_to_keeps.
Qed.

Lemma handle_keeps ev a : keeps_selection ev = true -> proj (handle a ev) = proj a.
Proof.
  intros Hev. unfold handle. pose proof (dispatch_keeps ev a Hev) as H.
  destruct (dispatch ev a); cbn [state_of] in H; [done|].
  by rewrite proj_log.
Qed.

End Untouched.

(* ===================================================================== *)
(** * Navigation stays inside the variation *)
(* ===================================================================== *)

Section Soundness.

Variable E : RulesEngine.

Implicit Types (a : App E) (f : Frame E) (cb : AfterAnim E).

Lemma sound_with_canvas g a : sound_app E a -> sound_app E (with_canvas g a).
Proof. done. Qed.

Lemma sound_set_status s a : sound_app E a -> sound_app E (set_status s a).
Proof. done. Qed.

Lemma sound_log_call c a :
  in_range_call c -> sound_app E a -> sound_app E (log_call c a).
Proof.
  intros Hc (H1 & H2 & H3 & H4). repeat split; try done.
  cbn. apply Forall_app. split; [done | by constructor].
Qed.

Lemma sound_set_move_index i a :
  0 <= i -> sound_app E a -> sound_app E (set_move_index i a).
Proof. intros Hi (H1 & H2 & H3 & H4). by repeat split. Qed.

Lemma sound_set_timers t a :
  Forall (frame_in_range E) t -> sound_app E a -> sound_app E (set_timers t a).
Proof. intros Ht (H1 & H2 & H3 & H4). by repeat split. Qed.

Lemma sound_set_selection o v a : sound_app E a -> sound_app E (set_selection o v a).
Proof. done. Qed.

Lemma in_range_animate u i : in_range_call (CAnimate u i).
Proof. by repeat split. Qed.

Lemma in_range_callback : in_range_call CCallback.
Proof. by repeat split. Qed.

Lemma call_back_sound invoke cbo a :
  (forall cb, cbo = Some cb -> forall a', sound_app E a' -> sound_result E (invoke cb a')) ->
  sound_app E a -> sound_result E (call_back invoke cbo a).
Proof.
  intros Hinv Ha. unfold call_back. destruct cbo as [cb|]; [|done].
  apply (Hinv cb eq_refl). by apply sound_log_call; [apply in_range_callback|].
Qed.

Lemma frame_sound invoke f a :
  (forall cb, fr_callback f = Some cb ->
     forall a', sound_app E a' -> sound_result E (invoke cb a')) ->
  frame_in_range E f -> sound_app E a -> sound_result E (frame invoke f a).
Proof.
  intros Hinv Hf Ha. unfold frame.
  destruct (centre (fr_from_sq f)), (centre (fr_to_sq f)).
  destruct (fr_i f >=? ANIM_FRAMES).
  - apply call_back_sound; [done|]. do 2 apply sound_with_canvas.
    destruct (fr_captured_item_sq f); [by apply sound_with_canvas|].
    by apply sound_with_canvas.
  - split; [done|]. cbn [state_of].
    assert (forall a', sound_app E a' ->
              sound_app E (set_timers (timers a' ++ [mkFrame (fr_i f + 1) (fr_moving_item f)
                 (fr_captured_item_sq f) (fr_from_sq f) (fr_to_sq f) (fr_moving_piece f)
                 (fr_callback f)]) a')) as Hnext.
    { intros a' Ha'. apply sound_set_timers; [|done].
      apply Forall_app. split; [apply Ha' | by constructor]. }
    destruct (fr_captured_item_sq f); [destruct (fr_i f =? _)|];
      apply Hnext; by repeat apply sound_with_canvas.
Qed.

Lemma animate_move_sound invoke bb u cb a :
  (forall a', sound_app E a' -> sound_result E (invoke cb a')) ->
  callback_in_range E cb -> sound_app E a ->
  sound_result E (animate_move invoke bb u (Some cb) a).
Proof.
  intros Hinv Hcb Ha. unfold animate_move, animate_fallback.
  assert (sound_app E (log_call (CAnimate u (current_move_index a)) a)) as Hl.
  { by apply sound_log_call; [apply in_range_animate|]. }
  assert (forall cb', Some cb = Some cb' ->
            forall a', sound_app E a' -> sound_result E (invoke cb' a')) as Hinv'.
  { by intros cb' [= <-]. }
  destruct (piece_at E bb _).
  2: { apply call_back_sound; [done|]. by apply sound_with_canvas. }
  destruct (item_at _ _).
  2: { apply call_back_sound; [done|]. by apply sound_with_canvas. }
  destruct (centre _). destruct (tk_create _ _).
  destruct (find_captured_item_sq _ _ _ _) as [e|r] eqn:Hfind.
  - assert (e = AttributeError_is_en_passant) as ->.
    { unfold find_captured_item_sq in Hfind.
      repeat (match type of Hfind with
              | context [match ?x with _ => _ end] => destruct x
              end; try discriminate).
      by inversion Hfind. }
    split; [done|]. by apply sound_with_canvas.
  - apply frame_sound; [done | done | by apply sound_with_canvas].
Qed.

Lemma has_start_index var :
  has_start var -> exists fen0, py_index (states_fen var) 0 = Some fen0.
Proof.
  unfold has_start. destruct (states_fen var) as [|x l]; cbn [length]; [lia|].
  intros _. exists x. apply py_index_head.
Qed.

Lemma step_to_depth_sound depth : forall var N i j a,
  has_start var -> 0 <= i -> 0 <= j <= Z.of_nat (length (moves_uci var)) ->
  (Z.to_nat (j - i) < depth)%nat -> sound_app E a ->
  sound_result E (step_to_depth depth var N i j a).
Proof.
  induction depth as [|depth IH]; intros var N i j a Hstart Hi Hj Hdepth Ha; [lia|].
  cbn [step_to_depth].
  destruct (Z.eqb_spec i j) as [Heq|Hne].
  { split; [done|]. cbn [state_of]. apply sound_set_status.
    apply sound_set_move_index; [lia | done]. }
  destruct (has_start_index var Hstart) as [fen0 Hfen]. rewrite Hfen.
  destruct (Z.gtb_spec j i) as [Hfwd|Hback].
  - replace (i + 1 - 1) with i by lia.
    rewrite py_index_in_range by lia.
    assert (is_Some (moves_uci var !! Z.to_nat i)) as [u ->].
    { apply lookup_lt_is_Some. lia. }
    apply animate_move_sound; [| |done].
    + intros a' Ha'. unfold after_anim.
      cbn [aa_var aa_max_moves aa_next_index aa_idx_to aa_uci aa_board_before].
      apply IH; [done | lia | lia | lia |].
      apply sound_set_status. apply sound_set_move_index; [lia|].
      by repeat apply sound_with_canvas.
    + repeat split; cbn; try done; lia.
  - destruct (Z.gtb_spec j 0) as [Hpos|Hzero].
    + rewrite py_index_in_range by lia.
      assert (is_Some (moves_uci var !! Z.to_nat (j - 1))) as [last_m ->].
      { apply lookup_lt_is_Some. lia. }
      split; [done|]. cbn [state_of]. apply sound_set_status.
      apply sound_set_move_index; [lia|]. by repeat apply sound_with_canvas.
    + split; [done|]. cbn [state_of]. apply sound_set_status.
      apply sound_set_move_index; [lia|]. by repeat apply sound_with_canvas.
Qed.

Lemma run_callback_sound cb a :
  callback_in_range E cb -> sound_app E a -> sound_result E (run_callback cb a).
Proof.
  intros (Hstart & Hnext & Hto) Ha. unfold run_callback, after_anim, step_to.
  apply step_to_depth_sound; [done | lia | lia | lia |].
  apply sound_set_status. apply sound_set_move_index; [lia|].
  by repeat apply sound_with_canvas.
Qed.

Lemma get_variation_sound o vi a var :
  sound_app E a -> get_variation o vi a = inr var -> has_start var.
Proof.
  intros (_ & Hstore & _) Hget. unfold get_variation in Hget.
  destruct (app_openings a !! o) as [vars|] eqn:Ho; [|done].
  destruct (py_index vars vi) as [x|] eqn:Hx; [|done]. inversion Hget; subst x.
  eapply Forall_forall; [by eapply Hstore | by eapply py_index_elem].
Qed.

Lemma get_variation_range o vi a e : get_variation o vi a = inl e ->
  e = KeyError_openings \/ e = IndexError_variations.
Proof.
  unfold get_variation. destruct (app_openings a !! o); [|intros [= <-]; by left].
  destruct (py_index _ _); [done | intros [= <-]; by right].
Qed.

Lemma play_move_sequence_to_sound target a :
  sound_app E a -> sound_result E (play_move_sequence_to target a).
Proof.
  intros Ha. unfold play_move_sequence_to.
  destruct (current_opening a) as [o|]; [|done].
  destruct (current_variation_idx a) as [vi|]; [|done].
  destruct (get_variation o vi a) as [e|var] eqn:Hget.
  { by destruct (get_variation_range _ _ _ _ Hget) as [-> | ->]. }
  unfold step_to. apply step_to_depth_sound;
    [by eapply get_variation_sound | apply Ha | lia | lia | done].
Qed.

Lemma build_variation_has_start o v lines :
  has_start (fst (build_variation E o v lines)).
Proof.
  unfold has_start. destruct (build_variation_aligned E o v lines) as [H _].
  cbn zeta in H. lia.
Qed.

Lemma populate_tree_sound a :
  store_all (fun _ x => has_start x) (app_openings a) ->
  Forall (frame_in_range E) (timers a) -> Forall in_range_call (calls a) ->
  sound_app E (populate_tree a).
Proof. intros H1 H2 H3. by repeat split. Qed.

Lemma reload_assets_sound files a : sound_app E a -> sound_app E (reload_assets files a).
Proof.
  intros (H1 & H2 & H3 & H4). unfold reload_assets.
  pose proof (parse_assets_store E (fun _ x => has_start x) files
                build_variation_has_start) as Hstore.
  unfold parse_assets in Hstore. destruct (parse_assets_out E files) as [ops out].
  by apply populate_tree_sound.
Qed.

Lemma new_app_sound images files : sound_app E (new_app E images files).
Proof.
  unfold new_app.
  pose proof (parse_assets_store E (fun _ x => has_start x) files
                build_variation_has_start) as Hstore.
  unfold parse_assets in Hstore. destruct (parse_assets_out E files) as [ops out].
  by apply populate_tree_sound.
Qed.

Lemma dispatch_sound ev a : sound_app E a -> sound_result E (dispatch ev a).
Proof.
  intros Ha. destruct ev as [| | |o vi|o vi mi|files]; cbn [dispatch].
  - destruct (timers a) as [|f rest] eqn:Ht; [done|].
    destruct Ha as (H1 & H2 & H3 & H4). rewrite Ht in H3.
    apply Forall_cons in H3 as [Hf Hrest].
    apply frame_sound; [|done|by repeat split].
    intros cb Hcb a' Ha'. apply run_callback_sound; [|done].
    unfold frame_in_range in Hf. by rewrite Hcb in Hf.
  - unfold on_prev. destruct (current_opening a); [|done].
    destruct (current_variation_idx a); [|done]. by apply play_move_sequence_to_sound.
  - unfold on_next. destruct (current_opening a); [|done].
    destruct (current_variation_idx a); [|done]. by apply play_move_sequence_to_sound.
  - unfold open_variation.
    destruct (get_variation _ _ _) as [e|var] eqn:Hget.
    + destruct (get_variation_range _ _ _ _ Hget) as [-> | ->];
        (split; [done|]); cbn [state_of]; apply sound_with_canvas;
        apply sound_set_move_index; done.
    + split; [done|]. cbn [state_of]. apply sound_set_status, sound_with_canvas.
      by apply sound_set_move_index.
  - unfold open_and_jump. destruct (app_openings a !! o); [|done].
    destruct (get_variation _ _ _) as [e|var] eqn:Hget.
    + by destruct (get_variation_range _ _ _ _ Hget) as [-> | ->].
    + by apply play_move_sequence_to_sound.
  - split; [done|]. by apply reload_assets_sound.
Qed.

Lemma handle_sound ev a : sound_app E a -> sound_app E (handle a ev).
Proof.
  intros Ha. unfold handle. destruct (dispatch_sound ev a Ha) as [Hr Hs].
  destruct (dispatch ev a) as [a'|e a']; [done|]. cbn [state_of] in Hs.
  apply sound_log_call; [|done]. by destruct e; repeat split.
Qed.

Lemma run_sound evs : forall a, sound_app E a -> sound_app E (run a evs).
Proof.
  induction evs as [|ev evs IH]; intros a Ha; [done|].
  cbn [run fold_left]. apply IH. by apply handle_sound.
Qed.

End Soundness.


(* ===================================================================== *)
(** * The playback controller *)
(* ===================================================================== *)

Section PlaybackClaims.

Variable E : RulesEngine.

Implicit Types (a : App E).

Lemma set_move_index_same a : set_move_index (current_move_index a) a = a.
Proof. by destruct a. Qed.

Lemma step_to_same var N i a :
  step_to var N i i a = Ok (show_position var N (set_move_index i a)).
Proof. unfold step_to. cbn [step_to_depth]. by rewrite Z.eqb_refl. Qed.

(** C5: with a variation of [N] moves selected, [play_move_sequence_to]
    steps to the target clamped to [0, N]; [on_next] with the cursor at [N]
    and [on_prev] with the cursor at [0] only rewrite the status label, so
    the cursor, the canvas, the timers and the log stay as they are; and
    from the start of the application, whatever the files and the events,
    the cursor never goes below zero and no handler ever raises an
    [IndexError] on [moves_uci] or [states_fen] (nor does the depth of the
    model run out). *)
Theorem navigation_stays_in_range :
  (forall a o vi var target,
     current_opening a = Some o -> current_variation_idx a = Some vi ->
     get_variation o vi a = inr var ->
     let N := Z.of_nat (length (moves_uci var)) in
     (exists t,
        0 <= t <= N /\ (0 <= target <= N -> t = target) /\
        (target < 0 -> t = 0) /\ (N < target -> t = N) /\
        play_move_sequence_to target a = step_to var N (current_move_index a) t a) /\
     (current_move_index a = N -> on_next a = Ok (show_position var N a)) /\
     (current_move_index a = 0 -> on_prev a = Ok (show_position var N a))) /\
  (forall images files evs,
     let a := run (new_app E images files) evs in
     0 <= current_move_index a /\ Forall in_range_call (calls a)).
Proof.
  split.
  - intros a o vi var target Ho Hv Hvar N. split; [|split].
    + exists (Z.max 0 (Z.min target N)).
      rewrite (play_move_sequence_to_selected E a o vi var target Ho Hv Hvar).
      fold N. repeat split; lia.
    + intros Hcur. unfold on_next. rewrite Ho, Hv.
      rewrite (play_move_sequence_to_selected E a o vi var _ Ho Hv Hvar). fold N.
      replace (Z.max 0 (Z.min (current_move_index a + 1) N)) with (current_move_index a)
        by lia.
      by rewrite step_to_same, set_move_index_same.
    + intros Hcur. unfold on_prev. rewrite Ho, Hv.
      rewrite (play_move_sequence_to_selected E a o vi var _ Ho Hv Hvar). fold N.
      replace (Z.max 0 (Z.min (current_move_index a - 1) N)) with (current_move_index a)
        by lia.
      by rewrite step_to_same, set_move_index_same.
  - intros images files evs a.
    destruct (run_sound E evs (new_app E images files) (new_app_sound E images files))
      as (H1 & _ & _ & H4).
    by split.
Qed.

Lemma selection_canvas f a : selection (with_canvas f a) = selection a.
Proof. done. Qed.

(** X20: a reload, whether or not a transition is in flight, leaves the
    controller with no opening and no variation selected, the cursor at 0,
    the initial position as the board of the canvas and the library just
    parsed; and whatever timers fire and whatever steps are requested
    afterwards, no opening and no variation is selected again by them and
    the library stays, so that [on_prev] and [on_next] do nothing.  (The
    cursor, the status and the canvas are not covered: a session in flight
    goes on changing them.) *)
Theorem reload_clears_selection a files evs :
  forallb keeps_selection evs = true ->
  let a1 := handle a (Refresh files) in
  let a2 := run a1 evs in
  current_opening a1 = None /\ current_variation_idx a1 = None /\
  current_move_index a1 = 0 /\
  current_board (board_canvas a1) = new_board E /\
  app_openings a1 = parse_assets E files /\
  current_opening a2 = None /\ current_variation_idx a2 = None /\
  app_openings a2 = parse_assets E files /\
  on_prev a2 = Ok a2 /\ on_next a2 = Ok a2.
Proof.
  intros Hevs a1 a2.
  assert (selection a1 = (None, None, parse_assets E files) /\
          current_move_index a1 = 0 /\
          current_board (board_canvas a1) = new_board E) as (Hsel1 & Hidx & Hboard).
  { unfold a1, handle. cbn [dispatch]. unfold reload_assets, parse_assets.
    destruct (parse_assets_out E files) as [ops out]. cbn.
    by rewrite reset_board. }
  assert (selection a2 = selection a1) as Hsel2.
  { unfold a2. generalize a1. clear -Hevs.
    induction evs as [|ev evs IH]; intros b; [done|].
    cbn [forallb] in Hevs. apply andb_prop in Hevs as [Hev Hevs].
    cbn [run fold_left]. fold (run (handle b ev) evs). rewrite (IH Hevs).
    by apply (handle_keeps E _ selection). }
  rewrite Hsel1 in Hsel2. clearbody a2. clearbody a1.
  unfold selection in Hsel1, Hsel2.
  injection Hsel1 as Ho1 Hv1 Hl1. injection Hsel2 as Ho2 Hv2 Hl2.
  repeat split; try done.
  - unfold on_prev. by rewrite Ho2.
  - unfold on_next. by rewrite Ho2.
Qed.

End PlaybackClaims.


(* ===================================================================== *)
(** * One call of [animate_move], from start to completion *)
(* ===================================================================== *)

Section Completion.

Variable E : RulesEngine.

Hypothesis to_square_on_board : forall u, 0 <= to_square E (from_uci E u) < 64.
Hypothesis capture_moves : forall b u,
  is_capture E b (from_uci E u) = true ->
  from_square E (from_uci E u) <> to_square E (from_uci E u).

(** On a canvas that shows the board, and with no other session in flight,
    the callback of [animate_move] runs exactly once: either inside the
    call (nothing to animate), or inside the 25th timer, the one of the
    last frame, the 24 timers before it changing the canvas only. *)
Lemma animate_move_completes_once invoke bb u cb (a : App E) :
  shows E (board_canvas a) bb -> timers a = [] ->
  let started := log_call (CAnimate u (current_move_index a)) a in
  (exists c,
     animate_move invoke bb u (Some cb) a
     = invoke cb (log_call CCallback (with_canvas (fun _ => c) started)))
  \/
  (exists a1 f c c',
     animate_move invoke bb u (Some cb) a = Ok a1 /\
     calls a1 = calls started /\
     run a1 (repeat Timer 24) = set_timers [f] (with_canvas (fun _ => c) started) /\
     dispatch Timer (set_timers [f] (with_canvas (fun _ => c) started))
     = run_callback cb (log_call CCallback (with_canvas (fun _ => c') started))).
Proof.
  intros Hshow Htimers started.
  destruct (animate_move_paths E to_square_on_board capture_moves invoke bb u cb a Hshow)
    as (c1 & [Hsync | (f1 & Hasync & Hi1 & Hcb1)]).
  - left. by exists c1.
  - right. rewrite Htimers in Hasync. cbn [app] in Hasync. fold started in Hasync.
    destruct (wait_frames E 24 f1 c1 started) as (c2 & f2 & Hwait & Hi2 & Hcb2);
      [rewrite Hi1; reflexivity|].
    destruct (frame_final E run_callback f2
                (set_timers [] (set_timers [f2] (with_canvas (fun _ => c2) started))))
      as (c3 & Hfinal); [lia|].
    eexists _, f2, c2, c3. split; [exact Hasync|]. split; [reflexivity|].
    split; [exact Hwait|].
    cbn [dispatch timers set_timers].
    change (frame run_callback f2 ?x) with
      (frame run_callback f2 (set_timers [] (set_timers [f2]
         (with_canvas (fun _ => c2) started)))).
    rewrite Hfinal, Hcb2, Hcb1. cbn [call_back].
    assert (set_timers [] started = started) as Hsame.
    { unfold started. destruct a. cbn in Htimers. subst. reflexivity. }
    change (log_call CCallback (with_canvas (fun _ => c3)
              (set_timers [] (set_timers [f2] (with_canvas (fun _ => c2) started)))))
      with (log_call CCallback (with_canvas (fun _ => c3) (set_timers [] started))).
    by rewrite Hsame.
Qed.

End Completion.

(* ===================================================================== *)
(** * The small engine obeys what the proofs ask of the chess library *)
(* ===================================================================== *)

Section MiniChessFacts.

Import MiniChess.

Lemma parse_sq_on_board f r sq : parse_sq f r = Some sq -> 0 <= sq < 64.
Proof.
  unfold parse_sq, square.
  destruct (Z.leb_spec 97 (ord f)); [|done]. destruct (Z.leb_spec (ord f) 104); [|done].
  destruct (Z.leb_spec 49 (ord r)); [|done]. destruct (Z.leb_spec (ord r) 56); [|done].
  cbn [andb]. intros [= <-]. lia.
Qed.

Lemma move_from_uci_on_board u :
  0 <= m_from (move_from_uci u) < 64 /\ 0 <= m_to (move_from_uci u) < 64.
Proof.
  unfold move_from_uci.
  destruct u as [|a [|b [|c [|d r]]]]; cbn [m_from m_to]; try lia.
  destruct (parse_sq a b) as [x|] eqn:Hx; [|cbn; lia].
  destruct (parse_sq c d) as [y|] eqn:Hy; [|cbn; lia].
  cbn [m_from m_to]. split; by eapply parse_sq_on_board.
Qed.

Lemma mini_to_square_on_board u : 0 <= to_square engine (from_uci engine u) < 64.
Proof. apply move_from_uci_on_board. Qed.

Lemma mini_capture_moves (b : Board engine) u :
  is_capture engine b (from_uci engine u) = true ->
  from_square engine (from_uci engine u) <> to_square engine (from_uci engine u).
Proof.
  cbn [is_capture from_square to_square from_uci engine]. unfold captures.
  intros [Hne _]%andb_prop. apply negb_true_iff, Z.eqb_neq in Hne. exact Hne.
Qed.

End MiniChessFacts.

(* ===================================================================== *)
(** * The controller on a concrete library *)
(* ===================================================================== *)

Lemma select_variation_canvas E (a : App E) o vi :
  board_canvas (handle a (SelectVariation o vi))
  = reset_pieces_from_board (new_board E) (board_canvas a).
Proof.
  unfold handle. cbn [dispatch]. unfold open_variation.
  by destruct (get_variation _ _ _).
Qed.

Section PlaybackExamples.

Import MiniChess Samples.

(** The navigation example of the specification, on line [B]: to the end,
    then one step back. *)
Example jump_then_step_back :
  let a := run ready_B (SelectMove "Open" 1 2 :: repeat Timer 75 ++ [ClickPrev]) in
  current_move_index a = 2 /\ length (timers a) = 0%nat /\
  animate_calls (calls a) = 3%nat /\
  fen engine (current_board (board_canvas a))
  = "rnbqkbnr/ppp1pppp/8/3p4/4P3/8/PPPP1PPP/RNBQKBNR w KQkq - 0 2".
Proof. vm_compute. repeat split. Qed.

(** C4, a request during a transition is carried out: with the first ply
    of line [A] in flight (its timer pending, its callback not yet run, the
    flag [playing_animation] still false), a click on Next, like a click on
    a move of the tree, calls [animate_move] again at once. *)
Theorem request_during_transition_is_executed :
  length (timers first_ply_in_flight) = 1%nat /\
  calls first_ply_in_flight = [CAnimate "e2e4" 0] /\
  playing_animation first_ply_in_flight = false /\
  calls (handle first_ply_in_flight ClickNext)
  = [CAnimate "e2e4" 0; CAnimate "e2e4" 0; CCallback] /\
  current_move_index (handle first_ply_in_flight ClickNext) = 1 /\
  length (timers (handle first_ply_in_flight ClickNext)) = 1%nat /\
  calls (handle first_ply_in_flight (SelectMove "Open" 0 1))
  = [CAnimate "e2e4" 0; CAnimate "e2e4" 0; CCallback; CAnimate "e7e5" 1].
Proof. vm_compute. repeat split. Qed.

Lemma idle_timers (a : App engine) n : timers a = [] -> run a (repeat Timer n) = a.
Proof.
  intros Ht. induction n as [|n IH]; [done|].
  cbn [repeat run fold_left]. unfold handle at 2. cbn [dispatch]. by rewrite Ht.
Qed.

(** C7, a call of [animate_move] that never completes: with line [A]
    played to its end, a click on the third move of line [B] animates the
    capture [e4d5] on a canvas that has no piece on d5; the search for the
    captured piece reaches [move.is_en_passant()], which raises, and the
    callback is lost: no timer is pending, the log never grows again and
    the cursor stays where it was. *)
Theorem capture_on_other_line_never_completes :
  let a := handle after_A (SelectMove "Open" 1 2) in
  calls after_A = [CAnimate "e2e4" 0; CCallback; CAnimate "e7e5" 1; CCallback] /\
  calls a = calls after_A ++ [CAnimate "e4d5" 2; CRaised AttributeError_is_en_passant] /\
  timers a = [] /\ current_move_index a = 2 /\
  current_opening a = Some "Open" /\ current_variation_idx a = Some 1 /\
  forall n, calls (run a (repeat Timer n)) = calls a.
Proof.
  intros a.
  assert (timers a = []) as Hidle.
  { apply nil_length_inv. vm_compute. reflexivity. }
  split; [vm_compute; reflexivity|]. split; [vm_compute; reflexivity|].
  split; [exact Hidle|]. split; [vm_compute; reflexivity|].
  split; [vm_compute; reflexivity|]. split; [vm_compute; reflexivity|].
  intros n. by rewrite idle_timers.
Qed.

(** C6, forward requests whose sessions do not run to their end one
    after the other.  With line [A] of [longer_lines] played to its end
    (cursor 2, nothing pending), a click on the fourth move of line [B]
    asks for the plies 3 and 4: [animate_move] is called once, for the
    capture [e4d5] on a canvas that has no piece on d5, raises in
    [move.is_en_passant()], and this one session never completes: whatever
    timers fire, the log and the cursor stay as they are.  With the first
    ply of line [A] in flight, a click on its second move starts two
    sessions while the timer of the first is pending; the completion of
    the older session comes after the start of the session for [e7e5]. *)
Theorem forward_sessions_cut_short_or_overlapping :
  (let a := handle after_A_longer (SelectMove "Open" 1 3) in
   moves_uci <$> default [] (app_openings after_A_longer !! "Open")
   = [["e2e4"; "e7e5"]; ["e2e4"; "d7d5"; "e4d5"; "g8f6"]] /\
   current_move_index after_A_longer = 2 /\ timers after_A_longer = [] /\
   current_opening a = Some "Open" /\ current_variation_idx a = Some 1 /\
   calls a
   = calls after_A_longer ++ [CAnimate "e4d5" 2; CRaised AttributeError_is_en_passant] /\
   animate_calls (calls a) = (animate_calls (calls after_A_longer) + 1)%nat /\
   timers a = [] /\
   forall n,
     calls (run a (repeat Timer n)) = calls a /\
     current_move_index (run a (repeat Timer n)) = 2) /\
  (let a := handle first_ply_in_flight (SelectMove "Open" 0 1) in
   calls first_ply_in_flight = [CAnimate "e2e4" 0] /\
   length (timers first_ply_in_flight) = 1%nat /\
   current_move_index first_ply_in_flight = 0 /\
   calls a = [CAnimate "e2e4" 0; CAnimate "e2e4" 0; CCallback; CAnimate "e7e5" 1] /\
   length (timers a) = 2%nat /\
   calls (run a (repeat Timer 49))
   = [CAnimate "e2e4" 0; CAnimate "e2e4" 0; CCallback; CAnimate "e7e5" 1; CCallback] /\
   length (timers (run a (repeat Timer 49))) = 1%nat /\
   current_move_index (run a (repeat Timer 49)) = 1 /\
   calls (run a (repeat Timer 50))
   = [CAnimate "e2e4" 0; CAnimate "e2e4" 0; CCallback; CAnimate "e7e5" 1;
      CCallback; CCallback] /\
   length (timers (run a (repeat Timer 50))) = 0%nat /\
   current_move_index (run a (repeat Timer 50)) = 2).
Proof.
  split.
  - intros a.
    assert (timers after_A_longer = []) as Hidle0
      by (apply nil_length_inv; vm_compute; reflexivity).
    assert (timers a = []) as Hidle
      by (apply nil_length_inv; vm_compute; reflexivity).
    assert (current_move_index a = 2) as Hcur by (vm_compute; reflexivity).
    split; [vm_compute; reflexivity|]. split; [vm_compute; reflexivity|].
    split; [exact Hidle0|]. split; [vm_compute; reflexivity|].
    split; [vm_compute; reflexivity|]. split; [vm_compute; reflexivity|].
    split; [vm_compute; reflexivity|]. split; [exact Hidle|].
    intros n. rewrite (idle_timers a n Hidle). split; [reflexivity | exact Hcur].
  - vm_compute. repeat split.
Qed.

(** C8, a reload with a transition in flight: the library is reloaded ten
    frames into a jump along line [A].  The reload clears the selection
    and the cursor and sets the status to the count of openings, but the
    timer of the session stays, and the clone stays on the canvas beside
    the 32 pieces just drawn; the next frame moves the clone; fifteen
    timers later the old callback has drawn the position after [e2e4],
    moved the cursor to 1, written a status for line [A] of no opening
    and started to animate the next ply of the old line; after forty
    timers the old line has been played to its end, with no variation
    selected. *)
Theorem reload_leaves_session_running :
  let a1 := handle jumping_A (Refresh [two_lines]) in
  let a2 := run a1 (repeat Timer 15) in
  let a3 := run a1 (repeat Timer 40) in
  length (timers jumping_A) = 1%nat /\
  current_opening a1 = None /\ current_variation_idx a1 = None /\
  current_move_index a1 = 0 /\ status a1 = StatusLoaded 1 /\
  length (timers a1) = 1%nat /\
  length (map_to_list (text_items (board_canvas a1))) = 32%nat /\
  length (map_to_list (shown (board_canvas a1))) = 33%nat /\
  shown (board_canvas a1) !! 129
  = Some (PieceItem false (mkPiece PAWN true) 7400 9192) /\
  shown (board_canvas (handle a1 Timer)) !! 129
  = Some (PieceItem false (mkPiece PAWN true) 7400 9064) /\
  fen engine (current_board (board_canvas a1)) = start_fen /\
  fen engine (current_board (board_canvas a2))
  = "rnbqkbnr/pppppppp/8/8/4P3/8/PPPP1PPP/RNBQKBNR b KQkq - 0 1" /\
  current_move_index a2 = 1 /\
  current_opening a2 = None /\ current_variation_idx a2 = None /\
  status a2 = StatusAt None "A" 1 2 /\
  calls a2 = calls a1 ++ [CCallback; CAnimate "e7e5" 1] /\
  length (timers a2) = 1%nat /\
  calls a3 = calls a1 ++ [CCallback; CAnimate "e7e5" 1; CCallback] /\
  current_move_index a3 = 2 /\ status a3 = StatusAt None "A" 2 2 /\
  current_opening a3 = None /\
  fen engine (current_board (board_canvas a3))
  = "rnbqkbnr/pppp1ppp/8/4p3/4P3/8/PPPP1PPP/RNBQKBNR w KQkq - 0 2".
Proof. vm_compute. repeat split. Qed.

Lemma reload_clears_selection_witness :
  let a2 := run (handle jumping_A (Refresh [two_lines])) (repeat Timer 15 ++ [ClickNext]) in
  current_opening a2 = None /\ current_variation_idx a2 = None /\ on_next a2 = Ok a2.
Proof.
  intros a2.
  destruct (reload_clears_selection engine jumping_A [two_lines]
              (repeat Timer 15 ++ [ClickNext]))
    as (_ & _ & _ & _ & _ & H1 & H2 & _ & _ & H3).
  - reflexivity.
  - split; [exact H1|]. split; [exact H2 | exact H3].
Defined.

Lemma navigation_stays_in_range_witness :
  on_next after_A = Ok (show_position line_A 2 after_A) /\
  on_prev ready_B = Ok (show_position line_B 3 ready_B).
Proof.
  destruct (navigation_stays_in_range engine) as [H _]. split.
  - destruct (H after_A "Open" 0 line_A 0) as (_ & Hnext & _).
    + vm_compute. reflexivity.
    + vm_compute. reflexivity.
    + vm_compute. reflexivity.
    + apply Hnext. vm_compute. reflexivity.
  - destruct (H ready_B "Open" 1 line_B 0) as (_ & _ & Hprev).
    + vm_compute. reflexivity.
    + vm_compute. reflexivity.
    + vm_compute. reflexivity.
    + apply Hprev. vm_compute. reflexivity.
Defined.

Lemma ready_B_shows_start : shows engine (board_canvas ready_B) start.
Proof.
  unfold ready_B, run. cbn [fold_left]. rewrite select_variation_canvas.
  apply reset_shows.
Qed.

Lemma navigation_sessions_witness :
  exists a1 n a2,
    play_move_sequence_to 3 ready_B = Ok a1 /\
    run a1 (repeat Timer n) = a2 /\
    timers a2 = [] /\ current_move_index a2 = 3 /\
    calls a2 = [CAnimate "e2e4" 0; CCallback; CAnimate "d7d5" 1; CCallback;
                CAnimate "e4d5" 2; CCallback] /\
    animate_calls (calls a2) = 3%nat.
Proof.
  destruct (navigation_sessions engine mini_to_square_on_board mini_capture_moves
              ready_B "Open" 1 line_B start_fen (tail (states_fen line_B)) 3)
    as [_ Hforward].
  - vm_compute. reflexivity.
  - vm_compute. reflexivity.
  - vm_compute. reflexivity.
  - reflexivity.
  - vm_compute. discriminate.
  - destruct Hforward as (a1 & n & a2 & H1 & _ & H3 & H4 & H5 & H6 & H7 & _).
    + vm_compute. reflexivity.
    + apply nil_length_inv. vm_compute. reflexivity.
    + assert (replay engine start_fen
                (take (Z.to_nat (current_move_index ready_B)) (moves_uci line_B))
              = start) as ->.
      { vm_compute. reflexivity. }
      apply ready_B_shows_start.
    + exists a1, n, a2. split; [exact H1|]. split; [exact H3|]. split; [exact H4|].
      split; [exact H5|]. split; [exact H6 | exact H7].
Defined.

End PlaybackExamples.


(* ===================================================================== *)
(** * More on the parser *)
(* ===================================================================== *)

Section ParserExtras.

Variable E : RulesEngine.


(** ** The keys of the mapping *)

(** The locals and the mapping only hold names that satisfy [H], when the
    headers read do. *)
Lemma flush_keys (H : string -> Prop) st :
  (forall o, cur_opening st = Some o -> H o) ->
  (forall o, is_Some (openings st !! o) -> H o) ->
  (forall o, cur_opening (flush_variation E st) = Some o -> H o) /\
  (forall o, is_Some (openings (flush_variation E st) !! o) -> H o).
Proof.
  intros Hcur Hkeys. unfold flush_variation.
  destruct (cur_opening st) as [o|] eqn:Ho; [|by rewrite Ho].
  destruct (cur_variation st) as [v|]; [|by rewrite Ho].
  destruct (PyStr.is_empty _); [by rewrite Ho|].
  destruct (build_variation E o v (cur_moves_lines st)) as [x out]. cbn.
  split; [done|]. intros o'. rewrite setdefault_append_lookup.
  case_decide as Heq; [subst; intros _; by apply Hcur | apply Hkeys].
Qed.

Lemma process_line_keys (H : string -> Prop) st line :
  (PyStr.startswith "**" (PyStr.strip line) = true -> H (header_name (PyStr.strip line))) ->
  (forall o, cur_opening st = Some o -> H o) ->
  (forall o, is_Some (openings st !! o) -> H o) ->
  (forall o, cur_opening (process_line E st line) = Some o -> H o) /\
  (forall o, is_Some (openings (process_line E st line) !! o) -> H o).
Proof.
  intros Hline Hcur Hkeys.
  destruct (flush_keys H st Hcur Hkeys) as [Hcur' Hkeys'].
  unfold process_line.
  destruct (PyStr.startswith "**" _).
  { cbn. split; [|done]. intros o [= <-]. by apply Hline. }
  destruct (PyStr.startswith "*" _); [done|].
  destruct (is_separator _); [done|].
  destruct (cur_variation st); [|done]. by destruct (negb _).
Qed.

Lemma process_lines_keys (H : string -> Prop) lines : forall st,
  Forall (fun line => PyStr.startswith "**" (PyStr.strip line) = true ->
                      H (header_name (PyStr.strip line))) lines ->
  (forall o, cur_opening st = Some o -> H o) ->
  (forall o, is_Some (openings st !! o) -> H o) ->
  (forall o, cur_opening (process_lines E st lines) = Some o -> H o) /\
  (forall o, is_Some (openings (process_lines E st lines) !! o) -> H o).
Proof.
  induction lines as [|l ls IH]; intros st Hall Hcur Hkeys; [done|].
  apply Forall_cons in Hall as [Hl Hls].
  destruct (process_line_keys H st l Hl Hcur Hkeys) as [Hcur' Hkeys'].
  cbn [process_lines fold_left]. by apply IH.
Qed.

(** X2: every name of the mapping that [parse_assets] returns is the name
    written on an opening header of one of the files, and no name comes
    with an empty list: an opening that files no variation has no entry. *)
Theorem parsed_keys_come_from_headers files o vars :
  parse_assets E files !! o = Some vars ->
  vars <> [] /\
  exists text line,
    text ∈ files /\ line ∈ PyStr.splitlines text /\
    PyStr.startswith "**" (PyStr.strip line) = true /\
    o = header_name (PyStr.strip line).
Proof.
  intros Hlook. split.
  - destruct (parse_assets_out_frame E files) as (added & out & Hframe).
    unfold parse_assets, parse_assets_out in Hlook. rewrite Hframe in Hlook.
    cbn [fst] in Hlook. intros ->.
    eapply add_all_nonempty; [|exact Hlook]. intros k. by rewrite lookup_empty.
  - set (H := fun (files : list string) (o : string) => exists text line,
                text ∈ files /\ line ∈ PyStr.splitlines text /\
                PyStr.startswith "**" (PyStr.strip line) = true /\
                o = header_name (PyStr.strip line)).
    assert (forall fs acc,
              (forall o, is_Some (acc.1 !! o) -> H files o) ->
              (forall text, text ∈ fs -> text ∈ files) ->
              forall o, is_Some ((fold_left (parse_file E) fs acc).1 !! o) -> H files o)
      as Hfold.
    { induction fs as [|f fs IH]; intros acc Hacc Hsub; [done|].
      cbn [fold_left]. apply IH; [|intros t Ht; apply Hsub; by right].
      unfold parse_file, parse_lines.
      destruct (process_lines_keys (H files) (PyStr.splitlines f)
                  (mkPState acc.1 acc.2 None None [])) as [Hcur Hkeys]; [|done|done|].
      { apply Forall_forall. intros line Hline Hhdr. exists f, line.
        split; [apply Hsub; by left|]. by split. }
      destruct (flush_keys (H files) _ Hcur Hkeys) as [_ Hk]. exact Hk. }
    apply (Hfold files (∅, [])).
    + intros k [? Hk]. cbn [fst] in Hk. by rewrite lookup_empty in Hk.
    + done.
    + unfold parse_assets, parse_assets_out in Hlook. rewrite Hlook. by eexists.
Qed.

(** ** Annotation glyphs *)

Lemma rstrip_by_app_all p s g :
  str_forall p g = true -> PyStr.rstrip_by p (s +:+ g) = PyStr.rstrip_by p s.
Proof.
  intros Hg. induction s as [|c r IH]; simpl.
  - by apply rstrip_by_all.
  - by rewrite IH.
Qed.

Lemma resolve_ignores_glyphs o v toks toks' : forall b ucis fens sans sans',
  Forall2 (fun t t' => exists g,
             t' = t +:+ g /\ str_forall (fun c => PyStr.mem_char c "!?+#") g = true)
          toks toks' ->
  r_ucis (resolve E o v toks' b ucis fens sans')
  = r_ucis (resolve E o v toks b ucis fens sans) /\
  r_fens (resolve E o v toks' b ucis fens sans')
  = r_fens (resolve E o v toks b ucis fens sans) /\
  (length (r_sans (resolve E o v toks' b ucis fens sans')) + length sans
   = length (r_sans (resolve E o v toks b ucis fens sans)) + length sans')%nat.
Proof.
  intros b ucis fens sans sans' Hall. revert b ucis fens sans sans'.
  induction Hall as [|t t' ts ts' (g & -> & Hg) _ IH]; intros b ucis fens sans sans'.
  - cbn. repeat split; lia.
  - cbn [resolve]. unfold PyStr.sub_trailing_glyphs, PyStr.rstrip_chars.
    rewrite rstrip_by_app_all by done.
    destruct (parse_san E b _) as [m|e]; [|cbn; repeat split; lia].
    destruct (IH (push E b m) (ucis ++ [uci E m]) (fens ++ [fen E (push E b m)])
                (sans ++ [t]) (sans' ++ [t +:+ g])) as (H1 & H2 & H3).
    rewrite H1, H2. rewrite !length_app in H3. cbn [length] in H3.
    split; [done|]. split; [done|]. lia.
Qed.

(** X3: trailing annotation glyphs never change what a token resolves to:
    two token lists that differ only by runs of [!], [?], [+] and [#]
    appended to their tokens give the same moves, the same positions and as
    many displayed moves (each kept as written). *)
Theorem glyphs_do_not_change_moves o v toks toks' :
  Forall2 (fun t t' => exists g,
             t' = t +:+ g /\ str_forall (fun c => PyStr.mem_char c "!?+#") g = true)
          toks toks' ->
  let start := new_board E in
  let r := resolve E o v toks start [] [fen E start] [] in
  let r' := resolve E o v toks' start [] [fen E start] [] in
  r_ucis r' = r_ucis r /\ r_fens r' = r_fens r /\
  length (r_sans r') = length (r_sans r).
Proof.
  intros Hall start r r'.
  destruct (resolve_ignores_glyphs o v toks toks' start [] [fen E start] [] [] Hall)
    as (H1 & H2 & H3).
  cbn [length] in H3. split; [done|]. split; [done|]. unfold r, r'. lia.
Qed.

End ParserExtras.


(* ===================================================================== *)
(** * The tokens of a move line *)
(* ===================================================================== *)

Section TokenFacts.

Lemma split_from_words s : forall cur,
  str_forall not_space cur = true ->
  Forall (fun t => t <> EmptyString /\ str_forall not_space t = true)
         (PyStr.split_from cur s).
Proof.
  induction s as [|c r IH]; intros cur Hcur; cbn [PyStr.split_from].
  - destruct cur; cbn [PyStr.is_empty]; [constructor|]. by repeat constructor.
  - destruct (PyStr.is_space c) eqn:Hc.
    + destruct cur; cbn [PyStr.is_empty]; [by apply IH|].
      constructor; [done | by apply IH].
    + apply IH. unfold PyStr.snoc. rewrite str_forall_app, Hcur. cbn.
      unfold not_space. by rewrite Hc.
Qed.

Lemma rstrip_by_none p s :
  str_forall (fun c => negb (p c)) s = true -> PyStr.rstrip_by p s = s.
Proof.
  induction s as [|c r IH]; cbn; [done|].
  intros [Hc Hr]%andb_prop. rewrite (IH Hr).
  destruct r; [|done]. by rewrite (proj1 (negb_true_iff _) Hc).
Qed.

Lemma strip_word t :
  str_forall not_space t = true -> PyStr.strip t = t.
Proof.
  intros Ht. unfold PyStr.strip.
  destruct t as [|c r]; [done|]. cbn [PyStr.lstrip_by].
  cbn in Ht. apply andb_prop in Ht as [Hc Hr].
  unfold not_space in Hc. rewrite (proj1 (negb_true_iff _) Hc).
  apply (rstrip_by_none PyStr.is_space (String c r)). cbn. by rewrite Hc.
Qed.

Lemma line_tokens_words ln :
  Forall (fun t => t <> EmptyString /\ str_forall not_space t = true) (line_tokens ln).
Proof.
  unfold line_tokens. destruct (PyStr.is_empty _); [constructor|].
  by apply split_from_words.
Qed.

Lemma rstrip_by_split p s :
  exists g, s = PyStr.rstrip_by p s +:+ g /\ str_forall p g = true.
Proof.
  induction s as [|c r (g & Hr & Hg)]; [by exists EmptyString|].
  cbn [PyStr.rstrip_by]. destruct (PyStr.rstrip_by p r) as [|d r'] eqn:Hrs.
  - change (EmptyString +:+ g) with g in Hr. subst g.
    destruct (p c) eqn:Hc.
    + exists (String c r). split; [done|]. cbn. by rewrite Hc.
    + by exists r.
  - exists g. split; [|done].
    change (String c (String d r') +:+ g) with (String c (String d r' +:+ g)).
    by rewrite <- Hr.
Qed.

Lemma rstrip_by_idem p s :
  PyStr.rstrip_by p (PyStr.rstrip_by p s) = PyStr.rstrip_by p s.
Proof.
  induction s as [|c r IH]; [done|].
  cbn [PyStr.rstrip_by]. destruct (PyStr.rstrip_by p r) as [|d r'] eqn:Hrs.
  - destruct (p c) eqn:Hc; [done|]. cbn. by rewrite Hc.
  - cbn [PyStr.rstrip_by] in IH |- *. by rewrite IH.
Qed.

(** X4: every token that the token loop runs over, and so every displayed
    move kept in [moves_san], is a word: it is not empty, holds no white
    space and is not the placeholder [...].  What is handed to the chess
    library is the token without its trailing run of [!], [?], [+] and
    [#]: it holds no white space and ends in none of the four, the token
    is that text followed by glyphs only, and the text can be empty (the
    token [!?]) or [...] (the token [...!]). *)
Theorem tokens_are_words lines :
  Forall (fun t => t <> EmptyString /\ str_forall not_space t = true /\ t <> "...")
         (extract_tokens lines) /\
  Forall (fun t =>
            let tok_clean := PyStr.sub_trailing_glyphs t in
            str_forall not_space tok_clean = true /\
            PyStr.sub_trailing_glyphs tok_clean = tok_clean /\
            exists g, t = tok_clean +:+ g /\
              str_forall (fun c => PyStr.mem_char c "!?+#") g = true)
         (extract_tokens lines) /\
  (forall E o v,
     Forall (fun t => t <> EmptyString /\ str_forall not_space t = true /\ t <> "...")
            (moves_san (fst (build_variation E o v lines)))) /\
  extract_tokens ["!? ...!"] = ["!?"; "...!"] /\
  PyStr.sub_trailing_glyphs "!?" = EmptyString /\
  PyStr.sub_trailing_glyphs "...!" = "...".
Proof.
  assert (Forall (fun t => t <> EmptyString /\ str_forall not_space t = true /\ t <> "...")
            (extract_tokens lines)) as Hwords.
  { unfold extract_tokens. apply Forall_forall. intros t Ht.
    apply list_elem_of_In, List.filter_In in Ht as [Hin Hkeep].
    assert (t <> EmptyString /\ str_forall not_space t = true) as [Hne Hw].
    { apply List.in_concat in Hin as (l & Hl & Ht).
      apply List.in_map_iff in Hl as (ln & <- & _).
      pose proof (line_tokens_words ln) as Hall. rewrite Forall_forall in Hall.
      apply Hall. by apply list_elem_of_In. }
    split; [done|]. split; [done|].
    unfold keep_token in Hkeep. rewrite (strip_word t Hw) in Hkeep.
    apply andb_prop in Hkeep as [_ Hdots]. intros ->. discriminate. }
  split; [done|]. split; [|split].
  - eapply Forall_impl; [exact Hwords|]. intros t (_ & Hw & _). cbn zeta.
    unfold PyStr.sub_trailing_glyphs, PyStr.rstrip_chars.
    destruct (rstrip_by_split (fun c => PyStr.mem_char c "!?+#") t) as (g & Ht & Hg).
    split; [|split; [apply rstrip_by_idem | by exists g]].
    rewrite Ht, str_forall_app in Hw. by apply andb_prop in Hw as [? _].
  - intros E o v.
    destruct (built_shape E o v lines) as (n & b' & fs & -> & _).
    by apply Forall_take.
  - repeat split; vm_compute; reflexivity.
Qed.

(** ** Move numbers and comments *)

Lemma sub_braces_prefix a s :
  str_forall (not_char "{") a = true ->
  PyStr.sub_braces false (a +:+ s) = a +:+ PyStr.sub_braces false s.
Proof.
  induction a as [|c r IH]; [done|]. cbn [str_forall]. intros [Hc Hr]%andb_prop.
  change (String c r +:+ s) with (String c (r +:+ s)). cbn [PyStr.sub_braces].
  rewrite (proj1 (negb_true_iff _) Hc). cbn [andb]. by rewrite IH.
Qed.

Lemma sub_braces_skip cmt s :
  str_forall (not_char "}") cmt = true ->
  PyStr.sub_braces true (cmt +:+ String "}"%char s) = PyStr.sub_braces false s.
Proof.
  induction cmt as [|c r IH]; cbn [str_forall].
  - intros _. done.
  - intros [Hc Hr]%andb_prop.
    change (String c r +:+ ?x) with (String c (r +:+ x)). cbn [PyStr.sub_braces].
    rewrite (proj1 (negb_true_iff _) Hc). by apply IH.
Qed.

Lemma mem_char_app c a s :
  PyStr.mem_char c (a +:+ s) = PyStr.mem_char c a || PyStr.mem_char c s.
Proof.
  induction a as [|d r IH]; [done|].
  change (String d r +:+ s) with (String d (r +:+ s)). cbn [PyStr.mem_char].
  by rewrite IH, orb_assoc.
Qed.

Lemma digits_no_brace digits :
  str_forall PyStr.is_digit digits = true ->
  str_forall (not_char "{") digits = true.
Proof.
  induction digits as [|c r IH]; [done|]. cbn [str_forall].
  intros [Hc Hr]%andb_prop. rewrite (IH Hr), andb_true_r. unfold not_char.
  destruct (Ascii.eqb_spec c "{"%char) as [->|_]; [by vm_compute in Hc | done].
Qed.

Lemma append_empty_r s : s +:+ EmptyString = s.
Proof.
  induction s as [|c r IH]; [done|].
  change (String c r +:+ EmptyString) with (String c (r +:+ EmptyString)). by rewrite IH.
Qed.

Lemma append_snoc s c t : (s +:+ String c EmptyString) +:+ t = s +:+ String c t.
Proof.
  induction s as [|d r IH]; [done|].
  change ((String d r +:+ String c EmptyString) +:+ t)
    with (String d ((r +:+ String c EmptyString) +:+ t)).
  by rewrite IH.
Qed.

Lemma sub_move_numbers_digits digits : forall pending s,
  str_forall PyStr.is_digit digits = true ->
  PyStr.sub_move_numbers pending (digits +:+ s)
  = PyStr.sub_move_numbers (pending +:+ digits) s.
Proof.
  induction digits as [|c r IH]; intros pending s.
  - intros _. by rewrite append_empty_r.
  - cbn [str_forall]. intros [Hc Hr]%andb_prop.
    change (String c r +:+ s) with (String c (r +:+ s)). cbn [PyStr.sub_move_numbers].
    rewrite Hc, (IH _ _ Hr). unfold PyStr.snoc. by rewrite append_snoc.
Qed.

Lemma nonempty_app_r p d : d <> EmptyString -> PyStr.is_empty (p +:+ d) = false.
Proof. destruct p; [by destruct d | done]. Qed.

(** X5: a move number gives no token, and neither does a comment.  A run
    of digits followed by three dots, or by one dot when what follows
    starts with neither a dot nor a brace, is as if it were not there; so
    is a span in braces, whatever it holds. *)
Theorem numbers_and_comments_give_no_token digits rest :
  digits <> EmptyString -> str_forall PyStr.is_digit digits = true ->
  line_tokens (digits +:+ "..." +:+ rest) = line_tokens rest /\
  (match rest with
   | EmptyString => True
   | String c _ => c <> "."%char /\ c <> "{"%char
   end ->
   line_tokens (digits +:+ "." +:+ rest) = line_tokens rest) /\
  (forall a cmt b,
     str_forall (not_char "{") a = true ->
     str_forall (not_char "}") cmt = true ->
     line_tokens (a +:+ "{" +:+ cmt +:+ "}" +:+ b) = line_tokens (a +:+ b)).
Proof.
  intros Hne Hdig. pose proof (digits_no_brace digits Hdig) as Hnb.
  split; [|split].
  - unfold line_tokens. rewrite sub_braces_prefix by done.
    change ("..." +:+ rest) with (String "."%char (String "."%char (String "."%char rest))).
    cbn [PyStr.sub_braces Ascii.eqb Bool.eqb andb].
    rewrite sub_move_numbers_digits by done. cbn [PyStr.sub_move_numbers].
    change (PyStr.is_digit ".") with false. cbn [Ascii.eqb Bool.eqb andb].
    change (EmptyString +:+ digits) with digits.
    destruct digits; [done|]. reflexivity.
  - intros Hrest. unfold line_tokens. rewrite sub_braces_prefix by done.
    change ("." +:+ rest) with (String "."%char rest).
    cbn [PyStr.sub_braces Ascii.eqb Bool.eqb andb].
    rewrite sub_move_numbers_digits by done. cbn [PyStr.sub_move_numbers].
    change (PyStr.is_digit ".") with false. cbn [Ascii.eqb Bool.eqb andb].
    change (EmptyString +:+ digits) with digits.
    assert (negb (PyStr.is_empty digits) = true) as -> by by destruct digits.
    destruct rest as [|c r]; [done|]. destruct Hrest as [Hdot Hbrace].
    cbn [PyStr.sub_braces].
    destruct (Ascii.eqb_spec c "{"%char) as [?|_]; [done|]. cbn [andb].
    destruct c as [[] [] [] [] [] [] [] []]; try reflexivity. by destruct Hdot.
  - intros a cmt b Ha Hcmt. unfold line_tokens.
    rewrite !sub_braces_prefix by done.
    change ("{" +:+ cmt +:+ "}" +:+ b) with (String "{"%char (cmt +:+ String "}"%char b)).
    cbn [PyStr.sub_braces]. rewrite Ascii.eqb_refl, mem_char_app. cbn [PyStr.mem_char].
    rewrite Ascii.eqb_refl, orb_true_r. cbn [orb andb].
    rewrite sub_braces_skip by done. by rewrite (sub_braces_prefix a b).
Qed.

End TokenFacts.


Section ParserExtrasExamples.

Import MiniChess Samples.

Lemma parsed_keys_come_from_headers_witness :
  [line_A; line_B] <> [] /\
  exists text line,
    text ∈ [two_lines] /\ line ∈ PyStr.splitlines text /\
    PyStr.startswith "**" (PyStr.strip line) = true /\
    "Open" = header_name (PyStr.strip line).
Proof.
  apply (parsed_keys_come_from_headers engine [two_lines] "Open" [line_A; line_B]).
  vm_compute. reflexivity.
Defined.

Lemma glyphs_do_not_change_moves_witness :
  let r := resolve engine "Open" "A" ["e4"; "e5"] start [] [board_fen start] [] in
  let r' := resolve engine "Open" "A" ["e4!"; "e5?!"] start [] [board_fen start] [] in
  r_ucis r' = r_ucis r /\ r_fens r' = r_fens r /\
  length (r_sans r') = length (r_sans r).
Proof.
  apply (glyphs_do_not_change_moves engine "Open" "A" ["e4"; "e5"] ["e4!"; "e5?!"]).
  repeat constructor.
  - exists "!". split; reflexivity.
  - exists "?!". split; reflexivity.
Defined.

Lemma numbers_and_comments_give_no_token_witness :
  line_tokens ("12" +:+ "..." +:+ " Nf6 d4") = line_tokens " Nf6 d4" /\
  line_tokens ("12" +:+ "." +:+ " Nf6 d4") = line_tokens " Nf6 d4" /\
  line_tokens ("e4 " +:+ "{" +:+ "best by test" +:+ "}" +:+ " e5") = line_tokens ("e4 " +:+ " e5").
Proof.
  destruct (numbers_and_comments_give_no_token "12" " Nf6 d4") as (H1 & H2 & H3).
  - discriminate.
  - reflexivity.
  - split; [exact H1|]. split.
    + apply H2. split; discriminate.
    + apply H3; reflexivity.
Defined.

End ParserExtrasExamples.


(* ===================================================================== *)
(** * The parser and the player agree on the positions *)
(* ===================================================================== *)

Section SnapshotReplay.

Variable E : RulesEngine.

(** What the program expects of python-chess: a move that [parse_san]
    returned is read back from its UCI text, and the initial position is
    read back from its FEN. *)
Hypothesis uci_round_trip : forall b t m,
  parse_san E b t = inl m -> from_uci E (uci E m) = m.

Hypothesis start_fen_round_trip : board_from_fen E (fen E (new_board E)) = new_board E.

Lemma resolved_run_replay toks : forall b b' us fs k,
  resolved_run E b toks = Some (b', us, fs) -> (k <= length us)%nat ->
  (fen E b :: fs) !! k
  = Some (fen E (fold_left (fun b m => push E b (from_uci E m)) (take k us) b)).
Proof.
  induction toks as [|t r IH]; intros b b' us fs k Hrun Hk.
  - injection Hrun as <- <- <-. cbn in Hk. by replace k with 0%nat by lia.
  - cbn [resolved_run] in Hrun.
    destruct (parse_san E b (PyStr.sub_trailing_glyphs t)) as [m|e] eqn:Hp; [|done].
    destruct (resolved_run E (push E b m) r) as [[[bf us'] fs']|] eqn:Hr; [|done].
    injection Hrun as <- <- <-.
    destruct k as [|k]; [done|]. cbn [length] in Hk.
    cbn [lookup list_lookup take fold_left].
    rewrite (uci_round_trip b _ m Hp).
    apply (IH (push E b m) bf us' fs' k Hr). lia.
Qed.

(** X6: the position that the player rebuilds for ply [k] of a parsed
    variation, from its first snapshot and its first [k] moves in UCI, is
    the one whose FEN the parser stored as snapshot [k]. *)
Theorem snapshots_are_replayed o v lines k :
  let x := fst (build_variation E o v lines) in
  (k <= length (moves_uci x))%nat ->
  exists fen0,
    py_index (states_fen x) 0 = Some fen0 /\
    py_index (states_fen x) (Z.of_nat k)
    = Some (fen E (replay E fen0 (py_slice_to (moves_uci x) (Z.of_nat k)))).
Proof.
  intros x Hk.
  destruct (built_shape E o v lines) as (n & b' & fs & _ & Hrun & Hfen & _).
  fold x in Hrun, Hfen. exists (fen E (new_board E)).
  rewrite Hfen. split; [apply py_index_head|].
  pose proof (resolved_run_replay _ _ _ _ _ k Hrun Hk) as Hk'.
  assert (k < length (fen E (new_board E) :: fs))%nat as Hlen
    by (apply lookup_lt_is_Some; by eexists).
  rewrite py_index_in_range by lia.
  rewrite py_slice_to_nonneg by lia. rewrite Nat2Z.id.
  unfold replay. by rewrite start_fen_round_trip.
Qed.

End SnapshotReplay.

(** ** The laws hold of the small engine *)

Section MiniChessLaws.

Import MiniChess.

Lemma is_own_on_board b t sq : is_own b t sq = true -> 0 <= sq < 64.
Proof.
  unfold is_own, at_sq. destruct (Z.leb_spec 0 sq); [|done].
  destruct (Z.ltb_spec sq 64); [|done]. lia.
Qed.


Lemma knight_sources_on_board b to from :
  from ∈ knight_sources b to -> 0 <= from < 64.
Proof.
  unfold knight_sources. intros [_ Hown]%list_elem_of_In%List.filter_In.
  by eapply is_own_on_board.
Qed.

Lemma do_parse_san_on_board b san m :
  do_parse_san b san = inl m -> 0 <= m_from m < 64 /\ 0 <= m_to m < 64.
Proof.
  unfold do_parse_san. intros H.
  repeat (case_match; try discriminate).
  all: injection H as <-; cbn [m_from m_to].
  all: repeat match goal with
       | H : parse_sq _ _ = Some _ |- _ => apply parse_sq_on_board in H
       | H : knight_sources ?b ?to = [?from] |- _ =>
           assert (0 <= from < 64)
             by (apply (knight_sources_on_board b to); rewrite H; apply list_elem_of_here);
           clear H
       | H : is_own _ _ _ = true |- _ => apply is_own_on_board in H
       | H : _ && _ = true |- _ => apply andb_prop in H as [? ?]
       end.
  all: lia.
Qed.

Lemma move_uci_round_trip m :
  0 <= m_from m < 64 -> 0 <= m_to m < 64 -> move_from_uci (move_uci m) = m.
Proof.
  destruct m as [x y]. cbn [m_from m_to]. intros Hx Hy.
  assert (forallb (fun x => forallb (fun y =>
            (m_from (move_from_uci (move_uci (mkMove x y))) =? x)
            && (m_to (move_from_uci (move_uci (mkMove x y))) =? y))
            (seqZ 0 64)) (seqZ 0 64) = true) as Hall by (vm_compute; reflexivity).
  rewrite forallb_forall in Hall.
  assert (In x (seqZ 0 64)) as Hinx by (apply list_elem_of_In, elem_of_seqZ; lia).
  specialize (Hall x Hinx). rewrite forallb_forall in Hall.
  assert (In y (seqZ 0 64)) as Hiny by (apply list_elem_of_In, elem_of_seqZ; lia).
  specialize (Hall y Hiny). apply andb_prop in Hall as [H1 H2].
  apply Z.eqb_eq in H1, H2.
  destruct (move_from_uci (move_uci (mkMove x y))) as [x' y'].
  cbn [m_from m_to] in H1, H2. by subst.
Qed.

Lemma mini_uci_round_trip (b : Board engine) t (m : Move engine) :
  parse_san engine b t = inl m -> from_uci engine (uci engine m) = m.
Proof.
  intros [Hf Ht]%do_parse_san_on_board. by apply move_uci_round_trip.
Qed.

Lemma mini_start_fen_round_trip :
  board_from_fen engine (fen engine (new_board engine)) = new_board engine.
Proof. vm_compute. reflexivity. Qed.

End MiniChessLaws.

Section SnapshotReplayExample.

Import MiniChess Samples.

Lemma snapshots_are_replayed_witness :
  let x := fst (build_variation engine "Open" "B" ["1. e4 d5 2. exd5"]) in
  exists fen0,
    py_index (states_fen x) 0 = Some fen0 /\
    py_index (states_fen x) (Z.of_nat 3)
    = Some (fen engine (replay engine fen0 (py_slice_to (moves_uci x) (Z.of_nat 3)))).
Proof.
  apply (snapshots_are_replayed engine mini_uci_round_trip mini_start_fen_round_trip
           "Open" "B" ["1. e4 d5 2. exd5"] 3).
  vm_compute. lia.
Defined.

End SnapshotReplayExample.


(* ===================================================================== *)
(** * The grid and the squares *)
(* ===================================================================== *)

Section Grid.

Lemma grid_size : length _draw_board_squares = 64%nat.
Proof. reflexivity. Qed.

Lemma grid_corners_distinct :
  NoDup ((fun r => (rx1 r, ry1 r)) <$> _draw_board_squares).
Proof. apply (bool_decide_unpack _). vm_compute. reflexivity. Qed.

Lemma square_to_xy_injective sq sq' :
  0 <= sq < 64 -> 0 <= sq' < 64 -> square_to_xy sq = square_to_xy sq' -> sq = sq'.
Proof.
  intros Hsq Hsq'.
  assert (forallb (fun a => forallb (fun b =>
            implb ((fst (square_to_xy a) =? fst (square_to_xy b))
                   && (snd (square_to_xy a) =? snd (square_to_xy b))) (a =? b))
            (seqZ 0 64)) (seqZ 0 64) = true) as Hall by (vm_compute; reflexivity).
  rewrite forallb_forall in Hall.
  assert (In sq (seqZ 0 64)) as Hin by (apply list_elem_of_In, elem_of_seqZ; lia).
  specialize (Hall sq Hin). rewrite forallb_forall in Hall.
  assert (In sq' (seqZ 0 64)) as Hin' by (apply list_elem_of_In, elem_of_seqZ; lia).
  specialize (Hall sq' Hin'). intros Heq. rewrite Heq, !Z.eqb_refl in Hall.
  by apply Z.eqb_eq.
Qed.

(** X7: the grid has 64 rectangles with distinct corners, and each square
    of the board lies on one of them: the one whose corner is
    [square_to_xy] of the square, one square wide and high, dark when file
    and rank have the same parity (a1 is dark) and light otherwise.  Two
    squares of the board never share a corner. *)
Theorem squares_lie_on_the_grid sq :
  0 <= sq < 64 ->
  length _draw_board_squares = 64%nat /\
  NoDup ((fun r => (rx1 r, ry1 r)) <$> _draw_board_squares) /\
  (exists r,
     r ∈ _draw_board_squares /\
     (rx1 r, ry1 r) = square_to_xy sq /\
     rx2 r = rx1 r + SQUARE_SIZE /\ ry2 r = ry1 r + SQUARE_SIZE /\
     rfill r = (if Z.even (square_file sq + square_rank sq)
                then DARK_COLOR else LIGHT_COLOR)) /\
  (forall sq', 0 <= sq' < 64 -> square_to_xy sq' = square_to_xy sq -> sq' = sq).
Proof.
  intros Hsq. split; [apply grid_size|]. split; [apply grid_corners_distinct|].
  split; [|intros sq' Hsq' Heq; by apply square_to_xy_injective].
  assert (forallb (fun sq => existsb (fun r =>
            (rx1 r =? fst (square_to_xy sq)) && (ry1 r =? snd (square_to_xy sq))
            && (rx2 r =? rx1 r + SQUARE_SIZE) && (ry2 r =? ry1 r + SQUARE_SIZE)
            && String.eqb (rfill r)
                 (if Z.even (square_file sq + square_rank sq)
                  then DARK_COLOR else LIGHT_COLOR))
            _draw_board_squares) (seqZ 0 64) = true) as Hall
    by (vm_compute; reflexivity).
  rewrite forallb_forall in Hall.
  assert (In sq (seqZ 0 64)) as Hin by (apply list_elem_of_In, elem_of_seqZ; lia).
  specialize (Hall sq Hin). apply existsb_exists in Hall as (r & Hr & Hall).
  repeat (apply andb_prop in Hall as [Hall ?]).
  exists r. split; [by apply list_elem_of_In|].
  repeat match goal with
         | H : (_ =? _) = true |- _ => apply Z.eqb_eq in H
         | H : String.eqb _ _ = true |- _ => apply String.eqb_eq in H
         end.
  split; [|done]. rewrite (surjective_pairing (square_to_xy sq)). congruence.
Qed.

Lemma squares_lie_on_the_grid_witness :
  length _draw_board_squares = 64%nat /\
  NoDup ((fun r => (rx1 r, ry1 r)) <$> _draw_board_squares) /\
  (exists r,
     r ∈ _draw_board_squares /\
     (rx1 r, ry1 r) = square_to_xy 0 /\
     rx2 r = rx1 r + SQUARE_SIZE /\ ry2 r = ry1 r + SQUARE_SIZE /\
     rfill r = (if Z.even (square_file 0 + square_rank 0)
                then DARK_COLOR else LIGHT_COLOR)) /\
  (forall sq', 0 <= sq' < 64 -> square_to_xy sq' = square_to_xy 0 -> sq' = 0).
Proof. apply (squares_lie_on_the_grid 0). lia. Defined.

End Grid.


(* ===================================================================== *)
(** * The items of the canvas *)
(* ===================================================================== *)

Section CanvasItems.

Variable E : RulesEngine.

Implicit Types (c : Canvas E) (b : Board E).

Lemma delete_all_eq ids : forall c,
  delete_all ids c
  = mkCanvas E (has_images c) (images_on_board c) (text_items c) (arrow_item c)
      (check_item c) (current_board c)
      (fold_left (fun s id => delete id s) ids (shown c)) (next_id c).
Proof.
  induction ids as [|i r IH]; intros c; [by destruct c|].
  cbn [delete_all fold_left]. fold (delete_all r (tk_delete i c)). by rewrite IH.
Qed.

Lemma fold_delete_lookup (ids : list Z) : forall (s : gmap Z Item) id,
  fold_left (fun s id => delete id s) ids s !! id
  = if bool_decide (id ∈ ids) then None else s !! id.
Proof.
  induction ids as [|i r IH]; intros s id; [done|].
  cbn [fold_left]. rewrite IH.
  destruct (decide (id ∈ r)) as [Hin|Hnin].
  - rewrite !bool_decide_eq_true_2; [done| by right | done].
  - rewrite (bool_decide_eq_false_2 (id ∈ r)) by done.
    destruct (decide (id = i)) as [->|Hne].
    + rewrite bool_decide_eq_true_2 by left. apply lookup_delete_eq.
    + rewrite bool_decide_eq_false_2 by (intros [?|?]%elem_of_cons; done).
      by apply lookup_delete_ne.
Qed.

Lemma values_elem (m : gmap Z Z) id :
  id ∈ (map_to_list m).*2 <-> exists sq, m !! sq = Some id.
Proof.
  rewrite list_elem_of_fmap. split.
  - intros ([sq i] & -> & Hin). exists sq. by apply elem_of_map_to_list.
  - intros (sq & Hsq). exists (sq, id). split; [done|]. by apply elem_of_map_to_list.
Qed.

(** The loop over the squares, from any canvas. *)
Lemma place_all_items b sqs : forall c,
  let c' := fold_left (place_piece b) sqs c in
  has_images c' = has_images c /\ arrow_item c' = arrow_item c /\
  check_item c' = check_item c /\ current_board c' = current_board c /\
  next_id c <= next_id c' /\
  (forall id, id < next_id c -> shown c' !! id = shown c !! id) /\
  (if has_images c then text_items c' = text_items c
   else images_on_board c' = images_on_board c) /\
  (forall sq,
     let m := if has_images c then images_on_board c else text_items c in
     let m' := if has_images c then images_on_board c' else text_items c' in
     match (if bool_decide (sq ∈ sqs) then piece_at E b sq else None) with
     | Some p =>
         exists id, m' !! sq = Some id /\ next_id c <= id < next_id c' /\
           shown c' !! id = Some (piece_item (has_images c) p sq)
     | None => m' !! sq = m !! sq
     end).
Proof.
  induction sqs as [|s r IH]; intros c.
  { cbn. repeat split; try done; try lia. by destruct (has_images c). }
  cbn zeta. cbn [fold_left].
  destruct (IH (place_piece b c s)) as (Hi & Ha & Hc & Hb & Hn & Hold & Hother & Hnew).
  set (c' := fold_left (place_piece b) r (place_piece b c s)) in *.
  assert (has_images (place_piece b c s) = has_images c) as Hi0.
  { unfold place_piece. destruct (piece_at E b s); [|done]. cbn. by destruct (has_images c). }
  assert (next_id c <= next_id (place_piece b c s)) as Hn0.
  { unfold place_piece. destruct (piece_at E b s); [|lia]. cbn.
    destruct (has_images c); cbn; lia. }
  rewrite Hi0 in *.
  split; [done|].
  split. { rewrite Ha. unfold place_piece. destruct (piece_at E b s); [|done]. cbn.
           by destruct (has_images c). }
  split. { rewrite Hc. unfold place_piece. destruct (piece_at E b s); [|done]. cbn.
           by destruct (has_images c). }
  split. { rewrite Hb. apply place_piece_board. }
  split; [lia|].
  split. { intros id Hid. rewrite Hold by lia. unfold place_piece.
           destruct (piece_at E b s); [|done]. cbn.
           destruct (has_images c); cbn; by rewrite lookup_insert_ne by lia. }
  split. { unfold place_piece in Hother. destruct (has_images c) eqn:Himg.
           - rewrite Hother. destruct (piece_at E b s); [|done]. cbn. by rewrite Himg.
           - rewrite Hother. destruct (piece_at E b s); [|done]. cbn. by rewrite Himg. }
  intros sq. specialize (Hnew sq). cbn zeta in Hnew.
  destruct (decide (sq ∈ r)) as [Hin|Hnin].
  - rewrite bool_decide_eq_true_2 in Hnew by done.
    rewrite bool_decide_eq_true_2 by by right.
    destruct (piece_at E b sq) as [p|] eqn:Hp.
    + destruct Hnew as (id & H1 & H2 & H3). exists id. split; [done|]. split; [lia|done].
    + rewrite Hnew. unfold place_piece.
      destruct (piece_at E b s) as [q|] eqn:Hq; [|done].
      assert (s <> sq) by congruence. cbn.
      destruct (has_images c) eqn:Himg; cbn; by rewrite lookup_insert_ne.
  - rewrite bool_decide_eq_false_2 in Hnew by done.
    destruct (decide (sq = s)) as [->|Hne].
    + rewrite bool_decide_eq_true_2 by left.
      destruct (piece_at E b s) as [p|] eqn:Hp.
      * exists (next_id c). rewrite Hnew. unfold place_piece. rewrite Hp.
        assert (next_id (place_piece b c s) = next_id c + 1) as Hn1.
        { unfold place_piece. rewrite Hp. cbn. by destruct (has_images c). }
        rewrite Hold by lia.
        unfold place_piece. rewrite Hp. cbn.
        destruct (has_images c) eqn:Himg; cbn; rewrite !lookup_insert_eq;
          (split; [done|]); (split; [lia|done]).
      * rewrite Hnew. unfold place_piece. by rewrite Hp.
    + rewrite bool_decide_eq_false_2 by (intros [?|?]%elem_of_cons; done).
      rewrite Hnew. unfold place_piece.
      destruct (piece_at E b s) as [q|] eqn:Hq; [|done]. cbn.
      destruct (has_images c) eqn:Himg; cbn; by rewrite lookup_insert_ne.
Qed.

Lemma clear_arrow_eq c :
  clear_arrow c
  = mkCanvas E (has_images c) (images_on_board c) (text_items c) None (check_item c)
      (current_board c)
      (match arrow_item c with Some a => delete a (shown c) | None => shown c end)
      (next_id c).
Proof. unfold clear_arrow. destruct c as [? ? ? [a|] ? ? ? ?]; reflexivity. Qed.

Lemma clear_check_eq c :
  clear_check c
  = mkCanvas E (has_images c) (images_on_board c) (text_items c) (arrow_item c) None
      (current_board c)
      (match check_item c with Some a => delete a (shown c) | None => shown c end)
      (next_id c).
Proof. unfold clear_check. destruct c as [? ? ? ? [a|] ? ? ?]; reflexivity. Qed.

Lemma reset_eq b c :
  reset_pieces_from_board b c
  = clear_check (clear_arrow
      (fold_left (place_piece b) SQUARES
         (mkCanvas E (has_images c) ∅ ∅ (arrow_item c) (check_item c) b
            (fold_left (fun s id => delete id s) (map_to_list (text_items c)).*2
               (fold_left (fun s id => delete id s) (map_to_list (images_on_board c)).*2
                  (shown c)))
            (next_id c)))).
Proof. unfold reset_pieces_from_board. by rewrite !delete_all_eq. Qed.

Lemma delete_opt_lookup (o : option Z) (s : gmap Z Item) id :
  o <> Some id ->
  (match o with Some a => delete a s | None => s end) !! id = s !! id.
Proof. destruct o as [a|]; [|done]. intros Hne. apply lookup_delete_ne. congruence. Qed.

Lemma reset_shown_items b c id :
  id < next_id c ->
  (registered c id -> shown (reset_pieces_from_board b c) !! id = None) /\
  (~ registered c id -> shown (reset_pieces_from_board b c) !! id = shown c !! id).
Proof.
  intros Hid. rewrite reset_eq.
  set (c0 := mkCanvas E _ _ _ _ _ _ _ _).
  destruct (place_all_items b SQUARES c0) as (Hi & Ha & Hc & _ & _ & Hold & _ & _).
  set (c5 := fold_left (place_piece b) SQUARES c0) in *.
  rewrite clear_check_eq, clear_arrow_eq. cbn [shown check_item arrow_item].
  rewrite Ha, Hc. cbn [arrow_item check_item c0].
  assert (shown c5 !! id
          = if bool_decide (id ∈ (map_to_list (text_items c)).*2) then None
            else if bool_decide (id ∈ (map_to_list (images_on_board c)).*2) then None
                 else shown c !! id) as Hs.
  { rewrite Hold by done. cbn [shown c0]. by rewrite !fold_delete_lookup. }
  split.
  - intros Hreg.
    destruct (decide (check_item c = Some id)) as [->|Hnc]; [apply lookup_delete_eq|].
    rewrite delete_opt_lookup by done.
    destruct (decide (arrow_item c = Some id)) as [->|Hna]; [apply lookup_delete_eq|].
    rewrite delete_opt_lookup by done. rewrite Hs.
    destruct Hreg as [Him | [Htx | [? | ?]]]; try done.
    + case_bool_decide; [done|]. rewrite bool_decide_eq_true_2; [done|].
      by apply values_elem.
    + rewrite bool_decide_eq_true_2; [done|]. by apply values_elem.
  - intros Hreg.
    rewrite delete_opt_lookup by (intros ?; apply Hreg; by do 3 right).
    rewrite delete_opt_lookup by (intros ?; apply Hreg; right; right; by left).
    rewrite Hs.
    rewrite bool_decide_eq_false_2
      by (intros ?%values_elem; apply Hreg; right; by left).
    by rewrite bool_decide_eq_false_2 by (intros ?%values_elem; apply Hreg; by left).
Qed.

(** X9: a redraw deletes the items on record and no other: of the items
    that the canvas held before, those on record for a square, as the
    arrow or as the halo are gone afterwards, and every other one (the
    moving clone of an animation, say) is still shown as it was. *)
Theorem reset_deletes_the_recorded_items b c id :
  id < next_id c ->
  (registered c id -> shown (reset_pieces_from_board b c) !! id = None) /\
  (~ registered c id -> shown (reset_pieces_from_board b c) !! id = shown c !! id).
Proof. exact (reset_shown_items b c id). Qed.

Lemma finish_reset b c c5 :
  canvas_ok c ->
  has_images c5 = has_images c -> arrow_item c5 = arrow_item c ->
  check_item c5 = check_item c -> current_board c5 = b ->
  next_id c <= next_id c5 ->
  (if has_images c then text_items c5 = ∅ else images_on_board c5 = ∅) ->
  (forall sq,
     match (if bool_decide (sq ∈ SQUARES) then piece_at E b sq else None) with
     | Some p =>
         exists id, (if has_images c then images_on_board c5 else text_items c5) !! sq
                    = Some id /\ next_id c <= id < next_id c5 /\
           shown c5 !! id = Some (piece_item (has_images c) p sq)
     | None => (if has_images c then images_on_board c5 else text_items c5) !! sq = None
     end) ->
  let c' := clear_check (clear_arrow c5) in
  pieces_drawn c' b /\ arrow_item c' = None /\ check_item c' = None /\
  current_board c' = b /\ has_images c' = has_images c /\
  (if has_images c then text_items c' = ∅ else images_on_board c' = ∅) /\
  next_id c <= next_id c' /\ canvas_ok c'.
Proof.
  intros [Hpos Hreg] Hi Ha Hc Hb Hn Hother Hnew c'. subst c'.
  rewrite clear_check_eq, clear_arrow_eq.
  cbn [shown check_item arrow_item has_images images_on_board text_items current_board
       next_id].
  assert (forall id, next_id c <= id ->
            (match check_item c5 with
             | Some a => delete a (match arrow_item c5 with
                                   | Some a0 => delete a0 (shown c5)
                                   | None => shown c5 end)
             | None => match arrow_item c5 with
                       | Some a0 => delete a0 (shown c5)
                       | None => shown c5 end
             end) !! id = shown c5 !! id) as Hkeep.
  { intros id Hid. rewrite Ha, Hc.
    rewrite delete_opt_lookup.
    2:{ intros Heq. assert (0 < id < next_id c); [|lia]. apply Hreg. by do 3 right. }
    rewrite delete_opt_lookup; [done|].
    intros Heq. assert (0 < id < next_id c); [|lia]. apply Hreg. right. right. by left. }
  assert (forall sq,
            match (if bool_decide (0 <= sq < 64) then piece_at E b sq else None) with
            | Some p =>
                exists id, (if has_images c then images_on_board c5 else text_items c5) !! sq
                           = Some id /\ next_id c <= id < next_id c5 /\
                  shown c5 !! id = Some (piece_item (has_images c) p sq)
            | None => (if has_images c then images_on_board c5 else text_items c5) !! sq = None
            end) as Hsq.
  { intros sq. specialize (Hnew sq).
    assert (bool_decide (sq ∈ SQUARES) = bool_decide (0 <= sq < 64)) as <-; [|done].
    apply bool_decide_ext. unfold SQUARES. rewrite elem_of_seqZ. lia. }
  clear Hnew.
  split.
  { intros sq. specialize (Hsq sq). unfold shown_at, item_at.
    cbn [has_images images_on_board text_items shown]. rewrite Hi.
    destruct (if bool_decide (0 <= sq < 64) then piece_at E b sq else None) as [p|] eqn:Hp.
    - destruct Hsq as (id & Hm & Hrange & Hshown).
      assert (bool_decide (0 <= sq < 64) = true /\ piece_at E b sq = Some p) as [-> ->].
      { destruct (bool_decide (0 <= sq < 64)); [done|discriminate]. }
      destruct (has_images c) eqn:Himg.
      + rewrite Hm. destruct (Z.eqb_spec id 0) as [?|_]; [lia|].
        cbn [mbind option_bind]. rewrite Hkeep by lia. by rewrite Hshown.
      + rewrite Hother, lookup_empty, Hm. cbn [mbind option_bind].
        rewrite Hkeep by lia. by rewrite Hshown.
    - assert ((if bool_decide (0 <= sq < 64)
               then (fun p => piece_item (has_images c) p sq) <$> piece_at E b sq
               else None) = None) as ->.
      { destruct (bool_decide (0 <= sq < 64)); [by rewrite Hp|done]. }
      destruct (has_images c) eqn:Himg.
      + by rewrite Hsq, Hother, lookup_empty.
      + by rewrite Hother, lookup_empty, Hsq. }
  split; [done|]. split; [done|]. split; [done|]. split; [done|].
  split; [done|]. split; [done|].
  split; [cbn [next_id]; lia|]. intros id Hr. unfold registered in Hr.
  cbn [images_on_board text_items arrow_item check_item] in Hr. cbn [next_id].
  assert (exists sq, (if has_images c then images_on_board c5 else text_items c5) !! sq
                     = Some id) as [sq Hid].
  { destruct Hr as [[sq Him] | [[sq Htx] | [? | ?]]]; try done.
    - destruct (has_images c); [by exists sq|].
      by rewrite Hother, lookup_empty in Him.
    - destruct (has_images c); [|by exists sq].
      by rewrite Hother, lookup_empty in Htx. }
  specialize (Hsq sq).
  destruct (if bool_decide (0 <= sq < 64) then piece_at E b sq else None).
  - destruct Hsq as (id' & Hm & Hrange & _). rewrite Hm in Hid. injection Hid as <-. lia.
  - by rewrite Hsq in Hid.
Qed.

(** What a redraw leaves on the canvas. *)
Lemma reset_items b c :
  canvas_ok c ->
  let c' := reset_pieces_from_board b c in
  pieces_drawn c' b /\ arrow_item c' = None /\ check_item c' = None /\
  current_board c' = b /\ has_images c' = has_images c /\
  (if has_images c then text_items c' = ∅ else images_on_board c' = ∅) /\
  next_id c <= next_id c' /\ canvas_ok c'.
Proof.
  intros Hok c'. subst c'. rewrite reset_eq.
  match goal with
  | |- context [fold_left (place_piece b) SQUARES ?c0] =>
      pose proof (place_all_items b SQUARES c0) as H
  end.
  cbn zeta in H.
  cbn [has_images images_on_board text_items arrow_item check_item current_board next_id]
    in H.
  destruct H as (Hi & Ha & Hc & Hb & Hn & _ & Hother & Hnew).
  apply finish_reset; try done.
  intros sq. specialize (Hnew sq).
  destruct (if bool_decide (sq ∈ SQUARES) then piece_at E b sq else None); [done|].
  rewrite Hnew. by destruct (has_images c).
Qed.

(** X8: a redraw of a canvas in order leaves on record exactly the pieces
    of the board, one item for each occupied square of the 64, shown at the
    centre of its square as an image or as a letter according to
    [has_images]; no arrow and no halo are left, and the canvas is in order
    again. *)
Theorem reset_draws_the_board b c :
  canvas_ok c ->
  let c' := reset_pieces_from_board b c in
  pieces_drawn c' b /\ arrow_item c' = None /\ check_item c' = None /\
  current_board c' = b /\ has_images c' = has_images c /\
  (if has_images c then text_items c' = ∅ else images_on_board c' = ∅) /\
  next_id c <= next_id c' /\ canvas_ok c'.
Proof. exact (reset_items b c). Qed.

End CanvasItems.

Section CanvasExamples.

Import MiniChess Samples.

Lemma reset_draws_the_board_witness :
  let c' := reset_pieces_from_board (E:=engine) start
              (mkCanvas engine false ∅ ∅ None None start ∅ 65) in
  pieces_drawn c' start /\ arrow_item c' = None /\ check_item c' = None /\
  current_board c' = start /\ has_images c' = false /\
  images_on_board c' = ∅ /\ 65 <= next_id c' /\ canvas_ok c'.
Proof.
  apply (reset_draws_the_board engine start
           (mkCanvas engine false ∅ ∅ None None start ∅ 65)).
  split; [done|]. intros id [[sq H] | [[sq H] | [H | H]]]; done.
Defined.

Lemma reset_deletes_the_recorded_items_witness :
  (registered (board_canvas first_ply_in_flight) 161 ->
   shown (reset_pieces_from_board (E:=engine) start (board_canvas first_ply_in_flight)) !! 161 = None) /\
  (~ registered (board_canvas first_ply_in_flight) 161 ->
   shown (reset_pieces_from_board (E:=engine) start (board_canvas first_ply_in_flight)) !! 161
   = shown (board_canvas first_ply_in_flight) !! 161).
Proof.
  apply (reset_deletes_the_recorded_items engine start (board_canvas first_ply_in_flight) 161).
  vm_compute. reflexivity.
Defined.

End CanvasExamples.


(* ===================================================================== *)
(** * What holds of the canvas throughout *)
(* ===================================================================== *)

(** A property of the canvas that each drawing operation preserves holds
    after every handler. *)
Section CanvasInvariant.

Variable E : RulesEngine.
Variable P : Canvas E -> Prop.

Hypothesis P_reset : forall b c, P c -> P (reset_pieces_from_board b c).
Hypothesis P_arrow : forall f t c, P c -> P (_draw_last_move_arrow f t c).
Hypothesis P_check : forall b c, P c -> P (highlight_check b c).
Hypothesis P_delete : forall id c, P c -> P (tk_delete id c).
Hypothesis P_move : forall id dx dy c, P c -> P (tk_move id dx dy c).
Hypothesis P_remove : forall sq c, P c -> P (remove_piece_items sq c).
Hypothesis P_create : forall it c, P c -> P (tk_create it c).2.
Hypothesis P_place : forall sq it c,
  P c ->
  P (let '(id, c) := tk_create it c in
     if has_images c then set_images (<[sq := id]> (images_on_board c)) c
     else set_texts (<[sq := id]> (text_items c)) c).

Implicit Types (a : App E).

Lemma call_back_canvas invoke cbo a :
  (forall cb a', P (board_canvas a') -> P (board_canvas (state_of (invoke cb a')))) ->
  P (board_canvas a) -> P (board_canvas (state_of (call_back invoke cbo a))).
Proof.
  intros Hinv Ha. unfold call_back. destruct cbo as [cb|]; [|done]. by apply Hinv.
Qed.

Lemma frame_canvas invoke f a :
  (forall cb a', P (board_canvas a') -> P (board_canvas (state_of (invoke cb a')))) ->
  P (board_canvas a) -> P (board_canvas (state_of (frame invoke f a))).
Proof.
  intros Hinv Ha. unfold frame.
  destruct (centre (fr_from_sq f)), (centre (fr_to_sq f)).
  destruct (fr_i f >=? ANIM_FRAMES).
  - apply call_back_canvas; [done|]. cbn [board_canvas with_canvas].
    apply P_arrow. apply (P_place (fr_to_sq f)).
    destruct (fr_captured_item_sq f); cbn [board_canvas with_canvas];
      [apply P_remove|]; by apply P_delete.
  - cbn [state_of]. cbn [board_canvas set_timers].
    destruct (fr_captured_item_sq f); [destruct (fr_i f =? _)|];
      cbn [board_canvas with_canvas]; [apply P_remove| |]; by apply P_move.
Qed.

Lemma animate_move_canvas invoke bb u cbo a :
  (forall cb a', P (board_canvas a') -> P (board_canvas (state_of (invoke cb a')))) ->
  P (board_canvas a) -> P (board_canvas (state_of (animate_move invoke bb u cbo a))).
Proof.
  intros Hinv Ha. unfold animate_move, animate_fallback.
  destruct (piece_at E bb _).
  2: { apply call_back_canvas; [done|]. by apply P_reset. }
  destruct (item_at _ _).
  2: { apply call_back_canvas; [done|]. by apply P_reset. }
  destruct (centre _).
  match goal with |- context [tk_create ?it ?c] =>
    pose proof (P_create it c Ha) as Hc; destruct (tk_create it c) as [mi c1] end.
  cbn [snd] in Hc.
  destruct (find_captured_item_sq _ _ _ _).
  - cbn [state_of board_canvas with_canvas]. by apply P_remove.
  - apply frame_canvas; [done|]. cbn [board_canvas with_canvas]. by apply P_remove.
Qed.

Lemma step_to_depth_canvas depth : forall var N i j a,
  P (board_canvas a) -> P (board_canvas (state_of (step_to_depth depth var N i j a))).
Proof.
  induction depth as [|depth IH]; intros var N i j a Ha; [done|].
  cbn [step_to_depth].
  destruct (i =? j); [done|].
  destruct (j >? i).
  - destruct (py_index (moves_uci var) _); [|done].
    destruct (py_index (states_fen var) 0); [|done].
    apply animate_move_canvas; [|done]. intros cb a' Ha'. unfold after_anim.
    apply IH. cbn [board_canvas show_position set_status set_move_index with_canvas].
    apply P_check, P_arrow. by apply P_reset.
  - destruct (py_index (states_fen var) 0); [|done].
    destruct (j >? 0).
    + destruct (py_index (moves_uci var) _); cbn [state_of]; [|by apply P_reset].
      cbn [board_canvas show_position set_status set_move_index with_canvas].
      apply P_check, P_arrow. by apply P_reset.
    + cbn [state_of board_canvas show_position set_status set_move_index with_canvas].
      apply P_check. by apply P_reset.
Qed.

Lemma run_callback_canvas cb a :
  P (board_canvas a) -> P (board_canvas (state_of (run_callback cb a))).
Proof.
  intros Ha. unfold run_callback, after_anim, step_to. apply step_to_depth_canvas.
  cbn [board_canvas show_position set_status set_move_index with_canvas].
  apply P_check, P_arrow. by apply P_reset.
Qed.

Lemma play_move_sequence_to_canvas target a :
  P (board_canvas a) -> P (board_canvas (state_of (play_move_sequence_to target a))).
Proof.
  intros Ha. unfold play_move_sequence_to.
  destruct (current_opening a); [|done]. destruct (current_variation_idx a); [|done].
  destruct (get_variation _ _ _); [done|]. by apply step_to_depth_canvas.
Qed.

Lemma dispatch_canvas ev a :
  P (board_canvas a) -> P (board_canvas (state_of (dispatch ev a))).
Proof.
  intros Ha. destruct ev as [| | |o v|o v m|files]; unfold dispatch.
  - destruct (timers a) as [|f rest]; [done|].
    apply frame_canvas; [intros cb a'; apply run_callback_canvas | done].
  - unfold on_prev. destruct (current_opening a); [|done].
    destruct (current_variation_idx a); [|done]. by apply play_move_sequence_to_canvas.
  - unfold on_next. destruct (current_opening a); [|done].
    destruct (current_variation_idx a); [|done]. by apply play_move_sequence_to_canvas.
  - unfold open_variation. destruct (get_variation _ _ _); cbn [state_of]; by apply P_reset.
  - unfold open_and_jump. destruct (app_openings a !! o); [|done].
    destruct (get_variation _ _ _); [done|]. by apply play_move_sequence_to_canvas.
  - cbn [state_of]. unfold reload_assets. destruct (parse_assets_out E files).
    by apply P_reset.
Qed.

Lemma handle_canvas ev a : P (board_canvas a) -> P (board_canvas (handle a ev)).
Proof.
  intros Ha. unfold handle. pose proof (dispatch_canvas ev a Ha) as H.
  by destruct (dispatch ev a).
Qed.

Lemma run_canvas evs : forall a, P (board_canvas a) -> P (board_canvas (run a evs)).
Proof.
  induction evs as [|ev evs IH]; intros a Ha; [done|].
  cbn [run fold_left]. apply IH. by apply handle_canvas.
Qed.

Lemma new_app_canvas images files :
  P (mkCanvas E images ∅ ∅ None None (new_board E) ∅ 65) ->
  P (board_canvas (new_app E images files)).
Proof.
  intros H0. unfold new_app. destruct (parse_assets_out E files).
  apply P_reset. by apply P_reset.
Qed.

End CanvasInvariant.

(** ** The canvas stays in order *)

Section CanvasOrder.

Variable E : RulesEngine.

Implicit Types (c : Canvas E) (b : Board E).

Lemma canvas_ok_delete id c : canvas_ok c -> canvas_ok (tk_delete id c).
Proof. done. Qed.

Lemma canvas_ok_move id dx dy c : canvas_ok c -> canvas_ok (tk_move id dx dy c).
Proof. done. Qed.

Lemma canvas_ok_create it c : canvas_ok c -> canvas_ok (tk_create it c).2.
Proof.
  intros [Hpos Hreg]. split; [cbn; lia|]. intros id Hid. cbn [tk_create snd next_id].
  assert (0 < id < next_id c); [|lia]. by apply Hreg.
Qed.

Lemma canvas_ok_remove sq c : canvas_ok c -> canvas_ok (remove_piece_items sq c).
Proof.
  intros [Hpos Hreg]. unfold remove_piece_items.
  assert (forall c1, next_id c1 = next_id c ->
            (forall id, registered c1 id -> registered c id) -> canvas_ok c1) as Hsub.
  { intros c1 Hn Hr. split; [by rewrite Hn|]. intros id Hid. rewrite Hn. by apply Hreg, Hr. }
  destruct (images_on_board c !! sq) as [i|] eqn:Hi;
    destruct (text_items c !! sq) as [t|] eqn:Ht;
    cbn [text_items set_images tk_delete]; rewrite ?Ht; apply Hsub; try done;
    intros id [[s H] | [[s H] | [H | H]]];
    cbn [images_on_board text_items arrow_item check_item set_images set_texts tk_delete] in H;
    try (apply lookup_delete_Some in H as [_ H]);
    unfold registered; eauto 6.
Qed.

Lemma canvas_ok_place sq it c :
  canvas_ok c ->
  canvas_ok (let '(id, c) := tk_create it c in
             if has_images c then set_images (<[sq := id]> (images_on_board c)) c
             else set_texts (<[sq := id]> (text_items c)) c).
Proof.
  intros [Hpos Hreg]. cbn [tk_create has_images].
  destruct (has_images c); (split; [cbn; lia|]); intros id [[s H] | [[s H] | [H | H]]];
    cbn [images_on_board text_items arrow_item check_item set_images set_texts next_id] in *;
    try (apply lookup_insert_Some in H as [[_ <-] | [_ H]]; [lia|]);
    (assert (0 < id < next_id c); [apply Hreg; unfold registered; eauto 6 | lia]).
Qed.

Lemma canvas_ok_arrow f t c : canvas_ok c -> canvas_ok (_draw_last_move_arrow f t c).
Proof.
  intros [Hpos Hreg]. unfold _draw_last_move_arrow.
  destruct (centre f), (centre t). rewrite clear_arrow_eq. cbn [tk_create].
  split; [cbn; lia|]. intros id [[s H] | [[s H] | [H | H]]];
    cbn [images_on_board text_items arrow_item check_item set_arrow next_id] in *.
  - assert (0 < id < next_id c); [apply Hreg; unfold registered; eauto 6 | lia].
  - assert (0 < id < next_id c); [apply Hreg; unfold registered; eauto 6 | lia].
  - injection H as <-. lia.
  - assert (0 < id < next_id c); [apply Hreg; unfold registered; eauto 6 | lia].
Qed.

Lemma canvas_ok_check b c : canvas_ok c -> canvas_ok (highlight_check b c).
Proof.
  intros [Hpos Hreg]. unfold highlight_check. rewrite clear_check_eq.
  assert (canvas_ok (mkCanvas E (has_images c) (images_on_board c) (text_items c)
                       (arrow_item c) None (current_board c)
                       (match check_item c with
                        | Some a => delete a (shown c) | None => shown c end)
                       (next_id c))) as Hok.
  { split; [done|]. intros id [[s H] | [[s H] | [H | H]]]; try done;
      apply Hreg; unfold registered; eauto 6. }
  destruct (is_check E b); [|done]. destruct (king_to_move E b) as [ksq|]; [|done].
  destruct (centre ksq). cbn [tk_create].
  split; [cbn; lia|]. intros id [[s H] | [[s H] | [H | H]]];
    cbn [images_on_board text_items arrow_item check_item set_check next_id] in *.
  - assert (0 < id < next_id c); [apply Hreg; unfold registered; eauto 6 | lia].
  - assert (0 < id < next_id c); [apply Hreg; unfold registered; eauto 6 | lia].
  - assert (0 < id < next_id c); [apply Hreg; unfold registered; eauto 6 | lia].
  - injection H as <-. lia.
Qed.

Lemma canvas_ok_reset b c : canvas_ok c -> canvas_ok (reset_pieces_from_board b c).
Proof. intros Hok. by apply (reset_items E b c Hok). Qed.

Lemma canvas_ok_blank images b : canvas_ok (mkCanvas E images ∅ ∅ None None b ∅ 65).
Proof. split; [done|]. intros id [[sq H] | [[sq H] | [H | H]]]; done. Qed.

(** Every canvas that the program reaches is in order. *)
Lemma run_canvas_ok images files evs :
  canvas_ok (board_canvas (run (new_app E images files) evs)).
Proof.
  apply (run_canvas E canvas_ok); auto using canvas_ok_reset, canvas_ok_arrow,
    canvas_ok_check, canvas_ok_delete, canvas_ok_move, canvas_ok_remove,
    canvas_ok_create, canvas_ok_place.
  apply (new_app_canvas E canvas_ok); auto using canvas_ok_reset, canvas_ok_blank.
Qed.

End CanvasOrder.

(** ** What a redraw shows *)

Section Redraw.

Variable E : RulesEngine.

Implicit Types (c : Canvas E) (b : Board E).

Lemma run_has_images images files evs :
  has_images (board_canvas (run (new_app E images files) evs)) = images.
Proof.
  assert (forall b c, has_images c = images ->
            has_images (reset_pieces_from_board b c) = images) as Hreset.
  { intros b c <-. rewrite reset_eq.
    match goal with |- context [fold_left (place_piece b) SQUARES ?c0] =>
      destruct (place_all_items E b SQUARES c0) as [H _];
      revert H; generalize (fold_left (place_piece b) SQUARES c0)
    end.
    intros c5 H. by rewrite clear_check_eq, clear_arrow_eq. }
  apply (run_canvas E (fun c => has_images c = images)); try done.
  - intros f t c <-. unfold _draw_last_move_arrow. destruct (centre f), (centre t).
    by rewrite clear_arrow_eq.
  - intros b c <-. unfold highlight_check. rewrite clear_check_eq.
    destruct (is_check E b); [|done]. destruct (king_to_move E b) as [ksq|]; [|done].
    by destruct (centre ksq).
  - intros sq c <-. unfold remove_piece_items.
    destruct (images_on_board c !! sq); cbn [text_items set_images tk_delete];
      by destruct (text_items c !! sq).
  - intros sq it c <-. cbn [tk_create has_images]. by destruct (has_images c).
  - apply (new_app_canvas E (fun c => has_images c = images)); done.
Qed.

Lemma shown_at_keep c c' sq :
  canvas_ok c ->
  images_on_board c' = images_on_board c -> text_items c' = text_items c ->
  (forall id, 0 < id < next_id c -> shown c' !! id = shown c !! id) ->
  shown_at sq c' = shown_at sq c.
Proof.
  intros [Hpos Hreg] Hi Ht Hs. unfold shown_at, item_at. rewrite Hi, Ht.
  assert (forall id, text_items c !! sq = Some id -> shown c' !! id = shown c !! id) as Htx.
  { intros id Hid. apply Hs, Hreg. right. left. by exists sq. }
  destruct (images_on_board c !! sq) as [id|] eqn:Him.
  - destruct (id =? 0).
    + destruct (text_items c !! sq) as [id'|] eqn:Hid; [|done]. cbn. by apply Htx.
    + cbn. apply Hs, Hreg. left. by exists sq.
  - destruct (text_items c !! sq) as [id'|] eqn:Hid; [|done]. cbn. by apply Htx.
Qed.

Lemma draw_arrow_fresh f t c :
  arrow_item c = None ->
  _draw_last_move_arrow f t c
  = mkCanvas E (has_images c) (images_on_board c) (text_items c) (Some (next_id c))
      (check_item c) (current_board c) (<[next_id c := arrow_line f t]> (shown c))
      (next_id c + 1).
Proof.
  intros Ha. unfold _draw_last_move_arrow, arrow_line, clear_arrow. rewrite Ha.
  by destruct (centre f), (centre t).
Qed.

Lemma highlight_fresh b c :
  check_item c = None ->
  highlight_check b c
  = match (if is_check E b then king_to_move E b else None) with
    | Some ksq =>
        mkCanvas E (has_images c) (images_on_board c) (text_items c) (arrow_item c)
          (Some (next_id c)) (current_board c) (<[next_id c := halo ksq]> (shown c))
          (next_id c + 1)
    | None => c
    end.
Proof.
  intros Hc. unfold highlight_check, halo, clear_check. rewrite Hc.
  destruct (is_check E b); [|done]. destruct (king_to_move E b) as [ksq|]; [|done].
  by destruct (centre ksq).
Qed.

(** A redraw, the arrow of the last move if any, and the halo. *)
Lemma redraw_displays b c (last : option (Z * Z)) :
  canvas_ok c ->
  let c1 := reset_pieces_from_board b c in
  let c2 := match last with
            | Some ft => _draw_last_move_arrow ft.1 ft.2 c1
            | None => c1
            end in
  displays (highlight_check b c2) b last /\
  current_board (highlight_check b c2) = b /\
  has_images (highlight_check b c2) = has_images c.
Proof.
  intros Hok c1 c2.
  destruct (reset_items E b c Hok)
    as (Hpd & Harrow & Hcheck & Hb & Hi & _ & _ & Hok1).
  fold c1 in Hpd, Harrow, Hcheck, Hb, Hi, Hok1.
  clearbody c1.
  assert (exists n s,
            c2 = mkCanvas E (has_images c1) (images_on_board c1) (text_items c1)
                   (match last with Some _ => Some (next_id c1) | None => None end)
                   None b s n /\
            next_id c1 <= n /\ (last <> None -> next_id c1 < n) /\
            (forall id, 0 < id < next_id c1 -> s !! id = shown c1 !! id) /\
            (match last with Some _ => s !! next_id c1 | None => None end)
            = (fun ft => arrow_line ft.1 ft.2) <$> last)
    as (n & s & -> & Hn & Hlt & Hs & Hal).
  { subst c2. destruct last as [[f t]|].
    - rewrite draw_arrow_fresh by done. rewrite Hcheck, Hb. eexists _, _.
      split; [reflexivity|]. split; [lia|]. split; [intros _; lia|]. split.
      + intros id Hid. apply lookup_insert_ne. lia.
      + cbn. by rewrite lookup_insert_eq.
    - exists (next_id c1), (shown c1). split; [|by split; [lia|]].
      destruct c1. cbn in *. by subst. }
  rewrite highlight_fresh by done. cbn [next_id has_images images_on_board text_items
    arrow_item current_board shown].
  assert (forall c3 s3,
            has_images c3 = has_images c1 -> images_on_board c3 = images_on_board c1 ->
            text_items c3 = text_items c1 -> shown c3 = s3 ->
            (forall id, 0 < id < next_id c1 -> s3 !! id = shown c1 !! id) ->
            pieces_drawn c3 b) as Hkeep.
  { intros c3 s3 H1 H2 H3 H4 H5 sq. rewrite H1, <- Hpd.
    apply shown_at_keep; try done. by rewrite H4. }
  destruct (if is_check E b then king_to_move E b else None) as [ksq|] eqn:Hk.
  - split; [|by rewrite Hi]. split; [|split].
    + eapply Hkeep; try done. intros id Hid. cbn [shown].
      rewrite lookup_insert_ne by lia. by apply Hs.
    + unfold arrow_shown. cbn [arrow_item shown]. rewrite <- Hal.
      destruct last; [|done]. cbn. apply lookup_insert_ne.
      assert (next_id c1 < n) by by apply Hlt. lia.
    + unfold halo_shown. cbn [check_item shown mbind option_bind].
      rewrite lookup_insert_eq. destruct (is_check E b); [by rewrite Hk|done].
  - split; [|by rewrite Hi]. split; [|split].
    + eapply Hkeep; try done.
    + unfold arrow_shown. cbn [arrow_item shown]. rewrite <- Hal. by destruct last.
    + unfold halo_shown. cbn [check_item mbind option_bind].
      destruct (is_check E b); [by rewrite Hk|done].
Qed.

End Redraw.


(* ===================================================================== *)
(** * What the board shows *)
(* ===================================================================== *)

Section Shown.

Variable E : RulesEngine.

Implicit Types (a : App E).

(** X10: going back redraws the position of the target at once: the items
    on record are the pieces of the position after [t] plies, the arrow is
    that of ply [t] (none at the initial position), the halo is on the
    king of the side to move when it is in check, and the status line
    gives [t] of the number of moves. *)
Theorem going_back_shows_the_position a o vi var fen0 more target :
  current_opening a = Some o -> current_variation_idx a = Some vi ->
  get_variation o vi a = inr var -> states_fen var = fen0 :: more ->
  canvas_ok (board_canvas a) ->
  let N := Z.of_nat (length (moves_uci var)) in
  let t := Z.max 0 (Z.min target N) in
  t < current_move_index a ->
  exists a1 last,
    play_move_sequence_to target a = Ok a1 /\
    current_move_index a1 = t /\
    status a1 = StatusAt (Some o) (name var) t N /\
    (if t >? 0
     then exists u, moves_uci var !! Z.to_nat (t - 1) = Some u /\
            last = Some (from_square E (from_uci E u), to_square E (from_uci E u))
     else last = None) /\
    displays (board_canvas a1) (replay E fen0 (take (Z.to_nat t) (moves_uci var))) last.
Proof.
  intros Ho Hv Hvar Hfen Hok N t Hlt.
  rewrite (play_move_sequence_to_selected E a o vi var target Ho Hv Hvar).
  fold N t. unfold step_to. cbn [step_to_depth].
  destruct (Z.eqb_spec (current_move_index a) t) as [Heq|_]; [lia|].
  destruct (Z.gtb_spec t (current_move_index a)) as [Hgt|_]; [lia|].
  rewrite Hfen, py_index_head. rewrite py_slice_to_nonneg by lia.
  set (nb := replay E fen0 (take (Z.to_nat t) (moves_uci var))).
  destruct (Z.gtb_spec t 0) as [Hpos|Hzero].
  - rewrite py_index_in_range by lia.
    assert (is_Some (moves_uci var !! Z.to_nat (t - 1))) as [u Hu].
    { apply lookup_lt_is_Some. lia. }
    rewrite Hu.
    eexists _, (Some (from_square E (from_uci E u), to_square E (from_uci E u))).
    split; [reflexivity|].
    cbn [current_move_index status board_canvas show_position set_status set_move_index
         with_canvas current_opening].
    split; [done|]. split; [by rewrite Ho|]. split; [by exists u|].
    apply (redraw_displays E nb (board_canvas a)
             (Some (from_square E (from_uci E u), to_square E (from_uci E u))) Hok).
  - eexists _, None. split; [reflexivity|].
    cbn [current_move_index status board_canvas show_position set_status set_move_index
         with_canvas current_opening].
    split; [done|]. split; [by rewrite Ho|]. split; [done|].
    apply (redraw_displays E nb (board_canvas a) None Hok).
Qed.


(** X12: after the start of the program, after a refresh and after the
    selection of a variation (be it one that is not there) the items on
    record are the pieces of the initial position, each at its square,
    with neither arrow nor halo on record, and the cursor is on 0,
    whatever went before.  This speaks of the items on record only: an
    item that the canvas holds and that is on record nowhere, such as the
    moving clone of an animation in flight, is left on the canvas by a
    refresh and by the selection of a variation, over the redrawn
    position. *)
Theorem initial_position_is_shown images files evs :
  let a := run (new_app E images files) evs in
  let fresh a' :=
    pieces_drawn (board_canvas a') (new_board E) /\
    arrow_shown (board_canvas a') = None /\ halo_shown (board_canvas a') = None /\
    current_board (board_canvas a') = new_board E /\
    has_images (board_canvas a') = images /\ current_move_index a' = 0 in
  fresh (new_app E images files) /\
  (forall files', fresh (handle a (Refresh files'))) /\
  (forall o v, fresh (handle a (SelectVariation o v))) /\
  (forall files' id,
     id < next_id (board_canvas a) -> ~ registered (board_canvas a) id ->
     shown (board_canvas (handle a (Refresh files'))) !! id
     = shown (board_canvas a) !! id) /\
  (forall o v id,
     id < next_id (board_canvas a) -> ~ registered (board_canvas a) id ->
     shown (board_canvas (handle a (SelectVariation o v))) !! id
     = shown (board_canvas a) !! id).
Proof.
  intros a fresh.
  assert (forall c, canvas_ok c -> has_images c = images ->
            let c' := reset_pieces_from_board (new_board E) c in
            pieces_drawn c' (new_board E) /\ arrow_shown c' = None /\
            halo_shown c' = None /\ current_board c' = new_board E /\
            has_images c' = images) as Hreset.
  { intros c Hok Hi c'.
    destruct (reset_items E (new_board E) c Hok)
      as (Hpd & Harrow & Hcheck & Hb & Hi' & _).
    fold c' in Hpd, Harrow, Hcheck, Hb, Hi'. unfold arrow_shown, halo_shown.
    rewrite Harrow, Hcheck. repeat split; try done. congruence. }
  pose proof (run_canvas_ok E images files evs) as Hok.
  pose proof (run_has_images E images files evs) as Himg.
  fold a in Hok, Himg.
  split; [|split; [|split; [|split]]]; cycle 3.
  - intros files' id Hid Hnot. unfold handle, dispatch, reload_assets.
    destruct (parse_assets_out E files') as [ops out].
    cbn [board_canvas populate_tree set_status with_canvas set_move_index set_selection].
    by apply (reset_shown_items E (new_board E) (board_canvas a) id Hid).
  - intros o v id Hid Hnot. unfold handle, dispatch, open_variation.
    destruct (get_variation _ _ _);
      cbn [board_canvas log_call set_status with_canvas set_move_index set_selection];
      by apply (reset_shown_items E (new_board E) (board_canvas a) id Hid).
  - unfold fresh, new_app. destruct (parse_assets_out E files) as [ops out].
    cbn [board_canvas populate_tree set_status with_canvas set_move_index set_selection
         current_move_index].
    assert (canvas_ok (new_canvas E images)) as Hok0
      by apply canvas_ok_reset, canvas_ok_blank.
    assert (has_images (new_canvas E images) = images) as Hi0.
    { unfold new_canvas.
      by destruct (reset_items E (new_board E)
                     (mkCanvas E images ∅ ∅ None None (new_board E) ∅ 65)
                     (canvas_ok_blank E images (new_board E)))
        as (_ & _ & _ & _ & ? & _). }
    destruct (Hreset (new_canvas E images) Hok0 Hi0) as (H1 & H2 & H3 & H4 & H5).
    repeat split; assumption || reflexivity.
  - intros files'. unfold fresh, handle, dispatch, reload_assets.
    destruct (parse_assets_out E files') as [ops out].
    cbn [board_canvas populate_tree set_status with_canvas set_move_index set_selection
         current_move_index].
    destruct (Hreset (board_canvas a) Hok Himg) as (H1 & H2 & H3 & H4 & H5).
    repeat split; assumption || reflexivity.
  - intros o v. unfold fresh, handle, dispatch, open_variation.
    destruct (Hreset (board_canvas a) Hok Himg) as (H1 & H2 & H3 & H4 & H5).
    destruct (get_variation _ _ _);
      cbn [board_canvas log_call set_status with_canvas set_move_index set_selection
           current_move_index]; repeat split; assumption || reflexivity.
Qed.

End Shown.


(* ===================================================================== *)
(** * Every animation is accounted for *)
(* ===================================================================== *)

Section Accounting.

Variable E : RulesEngine.

Implicit Types (a : App E) (k : nat).

Lemma count_calls_snoc p cs c :
  count_calls p (cs ++ [c]) = (count_calls p cs + (if p c then 1 else 0))%nat.
Proof.
  unfold count_calls. rewrite List.filter_app, length_app. cbn. by destruct (p c).
Qed.

Lemma animate_calls_snoc cs c :
  animate_calls (cs ++ [c]) = (animate_calls cs + (if is_animate c then 1 else 0))%nat.
Proof. apply (count_calls_snoc is_animate). Qed.

Lemma pending_canvas g a k : pending_account k a -> pending_account k (with_canvas g a).
Proof. done. Qed.

Lemma pending_status s a k : pending_account k a -> pending_account k (set_status s a).
Proof. done. Qed.

Lemma pending_index i a k : pending_account k a -> pending_account k (set_move_index i a).
Proof. done. Qed.

Lemma pending_selection o v a k :
  pending_account k a -> pending_account k (set_selection o v a).
Proof. done. Qed.

Lemma pending_animate u i a k :
  pending_account k a -> pending_account (S k) (log_call (CAnimate u i) a).
Proof.
  intros [Hc Ht]. split; [|done]. cbn [calls timers log_call].
  rewrite animate_calls_snoc, !count_calls_snoc. cbn. lia.
Qed.

Lemma pending_callback a k :
  pending_account (S k) a -> pending_account k (log_call CCallback a).
Proof.
  intros [Hc Ht]. split; [|done]. cbn [calls timers log_call].
  rewrite animate_calls_snoc, !count_calls_snoc. cbn. lia.
Qed.

Lemma pending_crash a k :
  pending_account (S k) a ->
  pending_account k (log_call (CRaised AttributeError_is_en_passant) a).
Proof.
  intros [Hc Ht]. split; [|done]. cbn [calls timers log_call].
  rewrite animate_calls_snoc, !count_calls_snoc. cbn. lia.
Qed.

Lemma pending_raised e a k :
  e <> AttributeError_is_en_passant ->
  pending_account k a -> pending_account k (log_call (CRaised e) a).
Proof.
  intros He [Hc Ht]. split; [|done]. cbn [calls timers log_call].
  rewrite animate_calls_snoc, !count_calls_snoc. destruct e; cbn; try lia. done.
Qed.

Lemma pending_timer f a k :
  is_Some (fr_callback f) ->
  pending_account (S k) a -> pending_account k (set_timers (timers a ++ [f]) a).
Proof.
  intros Hf [Hc Ht]. split.
  - cbn [calls timers set_timers]. rewrite length_app. cbn. lia.
  - cbn [timers set_timers]. apply Forall_app. split; [done|]. by apply Forall_singleton.
Qed.

Lemma pending_due f rest a k :
  timers a = f :: rest -> pending_account k a ->
  is_Some (fr_callback f) /\ pending_account (S k) (set_timers rest a).
Proof.
  intros Heq [Hc Ht]. rewrite Heq in Hc, Ht. apply Forall_cons in Ht as [Hf Hrest].
  split; [done|]. split; [|done]. cbn [calls timers set_timers length] in *. lia.
Qed.

Lemma call_back_account invoke cb a k :
  (forall a', pending_account k a' -> pending_account k (settled (invoke cb a'))) ->
  pending_account (S k) a ->
  pending_account k (settled (call_back invoke (Some cb) a)).
Proof. intros Hinv Ha. cbn [call_back]. by apply Hinv, pending_callback. Qed.

Lemma frame_account invoke f a k :
  is_Some (fr_callback f) ->
  (forall cb a', pending_account k a' -> pending_account k (settled (invoke cb a'))) ->
  pending_account (S k) a ->
  pending_account k (settled (frame invoke f a)).
Proof.
  intros [cb Hcb] Hinv Ha. unfold frame.
  destruct (centre (fr_from_sq f)), (centre (fr_to_sq f)).
  destruct (fr_i f >=? ANIM_FRAMES).
  - rewrite Hcb. apply call_back_account; [by apply Hinv|].
    do 2 apply pending_canvas.
    destruct (fr_captured_item_sq f); [apply pending_canvas|]; by apply pending_canvas.
  - cbn [settled].
    match goal with |- pending_account k (set_timers (timers ?x ++ [?f']) ?x) =>
      apply (pending_timer f' x) end.
    + cbn [fr_callback]. by rewrite Hcb.
    + destruct (fr_captured_item_sq f); [destruct (fr_i f =? _)|];
        [apply pending_canvas| |]; by apply pending_canvas.
Qed.

Lemma animate_move_account invoke bb u cb a k :
  (forall cb a', pending_account k a' -> pending_account k (settled (invoke cb a'))) ->
  pending_account k a ->
  pending_account k (settled (animate_move invoke bb u (Some cb) a)).
Proof.
  intros Hinv Ha. unfold animate_move, animate_fallback.
  pose proof (pending_animate u (current_move_index a) a k Ha) as Hstart.
  destruct (piece_at E bb _).
  2: { apply call_back_account; [by apply Hinv|]. by apply pending_canvas. }
  destruct (item_at _ _).
  2: { apply call_back_account; [by apply Hinv|]. by apply pending_canvas. }
  destruct (centre _). destruct (tk_create _ _) as [mi c1].
  destruct (find_captured_item_sq _ _ _ _) as [e|sq] eqn:Hfind.
  - assert (e = AttributeError_is_en_passant) as ->.
    { unfold find_captured_item_sq in Hfind.
      repeat (case_match; try discriminate); congruence. }
    cbn [settled]. apply pending_crash. by apply pending_canvas.
  - apply frame_account; [by eexists | done | by apply pending_canvas].
Qed.

Lemma step_to_depth_account depth : forall var N i j a k,
  pending_account k a -> pending_account k (settled (step_to_depth depth var N i j a)).
Proof.
  induction depth as [|depth IH]; intros var N i j a k Ha.
  { cbn [step_to_depth settled]. by apply pending_raised. }
  cbn [step_to_depth].
  destruct (i =? j); [done|].
  destruct (j >? i).
  - destruct (py_index (moves_uci var) _); [|by apply pending_raised].
    destruct (py_index (states_fen var) 0); [|by apply pending_raised].
    apply animate_move_account; [|done]. intros cb a' Ha'. unfold after_anim.
    by apply IH.
  - destruct (py_index (states_fen var) 0); [|by apply pending_raised].
    destruct (j >? 0).
    + destruct (py_index (moves_uci var) _); cbn [settled]; [done|].
      by apply pending_raised.
    + done.
Qed.

Lemma run_callback_account cb a k :
  pending_account k a -> pending_account k (settled (run_callback cb a)).
Proof. intros Ha. unfold run_callback, after_anim, step_to. by apply step_to_depth_account. Qed.

Lemma play_move_sequence_to_account target a k :
  pending_account k a -> pending_account k (settled (play_move_sequence_to target a)).
Proof.
  intros Ha. unfold play_move_sequence_to.
  destruct (current_opening a); [|done]. destruct (current_variation_idx a); [|done].
  destruct (get_variation _ _ _) as [e|var] eqn:Hv.
  - cbn [settled]. apply pending_raised; [|done].
    by destruct (get_variation_range E _ _ _ _ Hv) as [-> | ->].
  - by apply step_to_depth_account.
Qed.

Lemma handle_account ev a : pending_account 0 a -> pending_account 0 (handle a ev).
Proof.
  intros Ha. change (handle a ev) with (settled (dispatch ev a)).
  destruct ev as [| | |o v|o v m|files]; unfold dispatch.
  - destruct (timers a) as [|f rest] eqn:Ht; [done|].
    destruct (pending_due f rest a 0 Ht Ha) as [Hf Hrest].
    apply frame_account; [done | intros cb a'; apply run_callback_account | done].
  - unfold on_prev. destruct (current_opening a); [|done].
    destruct (current_variation_idx a); [|done]. by apply play_move_sequence_to_account.
  - unfold on_next. destruct (current_opening a); [|done].
    destruct (current_variation_idx a); [|done]. by apply play_move_sequence_to_account.
  - unfold open_variation. destruct (get_variation _ _ _) as [e|var] eqn:Hv; [|done].
    cbn [settled]. apply pending_raised; [|done].
    by destruct (get_variation_range E _ _ _ _ Hv) as [-> | ->].
  - unfold open_and_jump. destruct (app_openings a !! o); [|done].
    destruct (get_variation _ _ _) as [e|var] eqn:Hv.
    + cbn [settled]. apply pending_raised; [|done].
      by destruct (get_variation_range E _ _ _ _ Hv) as [-> | ->].
    + by apply play_move_sequence_to_account.
  - cbn [settled]. unfold reload_assets. by destruct (parse_assets_out E files).
Qed.


End Accounting.


(* ===================================================================== *)
(** * The tree and the selections made in it *)
(* ===================================================================== *)

Section TreeRows.

Lemma move_rows_elem o vidx var row :
  row ∈ move_rows o vidx var <->
  exists midx san,
    moves_san var !! midx = Some san /\
    row = mkTreeRow (py_str_nat (midx + 1) +:+ ". " +:+ san)
            (MoveValues o (Z.of_nat vidx) (Z.of_nat midx)).
Proof.
  unfold move_rows. rewrite elem_of_lookup_imap. split.
  - intros (i & san & -> & Hi). by exists i, san.
  - intros (i & san & Hi & ->). by exists i, san.
Qed.

Lemma variation_rows_elem o vars row :
  row ∈ variation_rows o vars <->
  exists vidx var,
    vars !! vidx = Some var /\
    (row = mkTreeRow (name var) (VariationValues o (Z.of_nat vidx)) \/
     row ∈ move_rows o vidx var).
Proof.
  unfold variation_rows. rewrite list_elem_of_In, List.in_concat. split.
  - intros (l & Hl & Hrow). apply list_elem_of_In, elem_of_lookup_imap in Hl
      as (i & var & -> & Hi).
    exists i, var. split; [done|]. apply list_elem_of_In, elem_of_cons in Hrow. done.
  - intros (i & var & Hi & Hrow).
    exists (mkTreeRow (name var) (VariationValues o (Z.of_nat i)) :: move_rows o i var).
    split.
    + apply list_elem_of_In, elem_of_lookup_imap. by exists i, var.
    + apply list_elem_of_In, elem_of_cons. done.
Qed.

Lemma tree_rows_elem m row :
  row ∈ tree_rows m <->
  exists o vars,
    m !! o = Some vars /\ (row = mkTreeRow o NoValues \/ row ∈ variation_rows o vars).
Proof.
  unfold tree_rows. rewrite list_elem_of_In, in_flat_map. split.
  - intros ([o vars] & Hkv & Hrow).
    apply list_elem_of_In in Hkv. rewrite merge_sort_Permutation in Hkv.
    apply elem_of_map_to_list in Hkv. exists o, vars. split; [done|].
    apply list_elem_of_In, elem_of_cons in Hrow. done.
  - intros (o & vars & Hm & Hrow). exists (o, vars). split.
    + apply list_elem_of_In. rewrite merge_sort_Permutation. by apply elem_of_map_to_list.
    + apply list_elem_of_In, elem_of_cons. done.
Qed.

Lemma variation_rows_no_opening o vars :
  List.filter is_opening_row (variation_rows o vars) = [].
Proof.
  assert (forall l, Forall (fun r => is_opening_row r = false) l ->
            List.filter is_opening_row l = []) as Hnone.
  { induction 1 as [|r l Hr _ IH]; [done|]. cbn. by rewrite Hr. }
  apply Hnone, Forall_forall. intros row (vidx & var & _ & [-> | Hrow])%variation_rows_elem;
    [done|].
  by apply move_rows_elem in Hrow as (midx & san & _ & ->).
Qed.

Lemma opening_rows_sorted_keys (l : list (string * list Variation)) :
  row_text <$> List.filter is_opening_row
                 (flat_map (fun kv => mkTreeRow kv.1 NoValues :: variation_rows kv.1 kv.2) l)
  = l.*1.
Proof.
  induction l as [|[o vars] l IH]; [done|].
  cbn [flat_map]. rewrite List.filter_app. cbn [List.filter is_opening_row row_values].
  rewrite variation_rows_no_opening. cbn. by rewrite IH.
Qed.


End TreeRows.


(** ** What playback writes to the log and what it raises *)

Section LogInvariant.

Variable E : RulesEngine.
Variable P : Call -> Prop.
Variable Q : Exn -> Prop.

Hypothesis P_animate : forall u i, P (CAnimate u i).
Hypothesis P_callback : P CCallback.
Hypothesis Q_moves : Q IndexError_moves_uci.
Hypothesis Q_states : Q IndexError_states_fen.
Hypothesis Q_attribute : Q AttributeError_is_en_passant.
Hypothesis Q_depth : Q DepthExhausted.

Implicit Types (a : App E) (r : Result E).

Lemma call_back_log invoke cbo a :
  (forall cb a', Forall P (calls a') ->
     Forall P (calls (state_of (invoke cb a'))) /\
     match invoke cb a' with Raised e _ => Q e | Ok _ => True end) ->
  Forall P (calls a) ->
  Forall P (calls (state_of (call_back invoke cbo a))) /\
  match call_back invoke cbo a with Raised e _ => Q e | Ok _ => True end.
Proof.
  intros Hinv Ha. unfold call_back. destruct cbo as [cb|]; [|done].
  apply Hinv. cbn [calls log_call]. apply Forall_app. split; [done|].
  by apply Forall_singleton.
Qed.

Lemma frame_log invoke f a :
  (forall cb a', Forall P (calls a') ->
     Forall P (calls (state_of (invoke cb a'))) /\
     match invoke cb a' with Raised e _ => Q e | Ok _ => True end) ->
  Forall P (calls a) ->
  Forall P (calls (state_of (frame invoke f a))) /\
  match frame invoke f a with Raised e _ => Q e | Ok _ => True end.
Proof.
  intros Hinv Ha. unfold frame.
  destruct (centre (fr_from_sq f)), (centre (fr_to_sq f)).
  destruct (fr_i f >=? ANIM_FRAMES).
  - apply call_back_log; [done|]. by destruct (fr_captured_item_sq f).
  - cbn [state_of calls set_timers]. split; [|done].
    destruct (fr_captured_item_sq f); [destruct (fr_i f =? _)|]; done.
Qed.

Lemma animate_move_log invoke bb u cbo a :
  (forall cb a', Forall P (calls a') ->
     Forall P (calls (state_of (invoke cb a'))) /\
     match invoke cb a' with Raised e _ => Q e | Ok _ => True end) ->
  Forall P (calls a) ->
  Forall P (calls (state_of (animate_move invoke bb u cbo a))) /\
  match animate_move invoke bb u cbo a with Raised e _ => Q e | Ok _ => True end.
Proof.
  intros Hinv Ha. unfold animate_move, animate_fallback.
  assert (Forall P (calls (log_call (CAnimate u (current_move_index a)) a))) as Hstart.
  { cbn [calls log_call]. apply Forall_app. split; [done|]. by apply Forall_singleton. }
  destruct (piece_at E bb _).
  2: { by apply call_back_log. }
  destruct (item_at _ _).
  2: { by apply call_back_log. }
  destruct (centre _). destruct (tk_create _ _) as [mi c1].
  destruct (find_captured_item_sq _ _ _ _) as [e|sq] eqn:Hfind.
  - assert (e = AttributeError_is_en_passant) as ->.
    { unfold find_captured_item_sq in Hfind.
      repeat (case_match; try discriminate); congruence. }
    done.
  - by apply frame_log.
Qed.

Lemma step_to_depth_log depth : forall var N i j a,
  Forall P (calls a) ->
  Forall P (calls (state_of (step_to_depth depth var N i j a))) /\
  match step_to_depth depth var N i j a with Raised e _ => Q e | Ok _ => True end.
Proof.
  induction depth as [|depth IH]; intros var N i j a Ha; [done|].
  cbn [step_to_depth].
  destruct (i =? j); [done|].
  destruct (j >? i).
  - destruct (py_index (moves_uci var) _); [|done].
    destruct (py_index (states_fen var) 0); [|done].
    apply animate_move_log; [|done]. intros cb a' Ha'. unfold after_anim. by apply IH.
  - destruct (py_index (states_fen var) 0); [|done].
    destruct (j >? 0); [|done]. by destruct (py_index (moves_uci var) _).
Qed.

Lemma run_callback_log cb a :
  Forall P (calls a) ->
  Forall P (calls (state_of (run_callback cb a))) /\
  match run_callback cb a with Raised e _ => Q e | Ok _ => True end.
Proof. intros Ha. unfold run_callback, after_anim, step_to. by apply step_to_depth_log. Qed.

End LogInvariant.

(** ** Selections made in the tree *)

Section Selections.

Variable E : RulesEngine.

Implicit Types (a : App E).

Lemma from_tree_variation (m : gmap string (list Variation)) o v :
  VariationValues o v ∈ row_values <$> tree_rows m ->
  exists vars var, m !! o = Some vars /\ py_index vars v = Some var.
Proof.
  intros (row & Hv & Hrow)%list_elem_of_fmap.
  apply tree_rows_elem in Hrow as (o' & vars & Hm & [-> | Hrow]); [done|].
  apply variation_rows_elem in Hrow as (vidx & var & Hvar & [-> | Hrow]).
  - injection Hv as -> ->. exists vars, var. split; [done|].
    rewrite py_index_in_range, Nat2Z.id; [done|].
    apply lookup_lt_Some in Hvar. lia.
  - apply move_rows_elem in Hrow as (midx & san & _ & ->). done.
Qed.

Lemma from_tree_move (m : gmap string (list Variation)) o v mi :
  MoveValues o v mi ∈ row_values <$> tree_rows m ->
  exists vars var,
    m !! o = Some vars /\ py_index vars v = Some var /\
    0 <= mi < Z.of_nat (length (moves_san var)).
Proof.
  intros (row & Hv & Hrow)%list_elem_of_fmap.
  apply tree_rows_elem in Hrow as (o' & vars & Hm & [-> | Hrow]); [done|].
  apply variation_rows_elem in Hrow as (vidx & var & Hvar & [-> | Hrow]); [done|].
  apply move_rows_elem in Hrow as (midx & san & Hsan & ->).
  injection Hv as -> -> ->. exists vars, var. split; [done|]. split.
  - rewrite py_index_in_range, Nat2Z.id; [done|]. apply lookup_lt_Some in Hvar. lia.
  - apply lookup_lt_Some in Hsan. lia.
Qed.

Lemma selection_valid_ext a a' :
  selection a' = selection a -> selection_valid a -> selection_valid a'.
Proof.
  unfold selection, selection_valid, get_variation. intros [= Ho Hv Hm] Hvalid o.
  rewrite Ho, Hv, Hm. apply Hvalid.
Qed.

Lemma selection_of_result (r : Result E) :
  selection (match r with Ok a' => a' | Raised e a' => log_call (CRaised e) a' end)
  = selection (state_of r).
Proof. by destruct r. Qed.

Lemma play_move_sequence_to_lookup target a :
  selection_valid a ->
  Forall (fun c => ~ is_lookup_error c) (calls a) ->
  Forall (fun c => ~ is_lookup_error c) (calls (state_of (play_move_sequence_to target a))) /\
  match play_move_sequence_to target a with
  | Raised e _ => e <> KeyError_openings /\ e <> IndexError_variations
  | Ok _ => True
  end.
Proof.
  intros Hvalid Hlog. unfold play_move_sequence_to.
  destruct (current_opening a) as [o|] eqn:Ho; [|done].
  destruct (Hvalid o Ho) as (vi & var & -> & ->).
  apply (step_to_depth_log E (fun c => ~ is_lookup_error c)
           (fun e => e <> KeyError_openings /\ e <> IndexError_variations));
    try done; not_lookup.
Qed.

Lemma frame_lookup f a :
  Forall (fun c => ~ is_lookup_error c) (calls a) ->
  Forall (fun c => ~ is_lookup_error c) (calls (state_of (frame run_callback f a))) /\
  match frame run_callback f a with
  | Raised e _ => e <> KeyError_openings /\ e <> IndexError_variations
  | Ok _ => True
  end.
Proof.
  intros Hlog.
  apply (frame_log E (fun c => ~ is_lookup_error c)
           (fun e => e <> KeyError_openings /\ e <> IndexError_variations));
    try done; try not_lookup.
  intros cb a' Ha'.
  apply (run_callback_log E (fun c => ~ is_lookup_error c)
           (fun e => e <> KeyError_openings /\ e <> IndexError_variations));
    try done; not_lookup.
Qed.

Lemma settled_lookup (r : Result E) :
  Forall (fun c => ~ is_lookup_error c) (calls (state_of r)) ->
  match r with
  | Raised e _ => e <> KeyError_openings /\ e <> IndexError_variations
  | Ok _ => True
  end ->
  Forall (fun c => ~ is_lookup_error c) (calls (settled r)) /\ no_lookup_error r.
Proof.
  destruct r as [a'|e a']; [done|]. cbn [state_of settled calls log_call].
  intros Hlog [H1 H2]. split.
  - apply Forall_app. split; [done|]. apply Forall_singleton. intros [[= ?] | [= ?]]; done.
  - by destruct e.
Qed.

Lemma dispatch_valid ev a :
  from_tree a ev -> selection_valid a ->
  Forall (fun c => ~ is_lookup_error c) (calls a) ->
  selection_valid (settled (dispatch ev a)) /\
  Forall (fun c => ~ is_lookup_error c) (calls (settled (dispatch ev a))) /\
  no_lookup_error (dispatch ev a).
Proof.
  intros Htree Hvalid Hlog.
  destruct ev as [| | |o v|o v mi|files]; cbn [dispatch].
  - (* a timer *)
    destruct (timers a) as [|f rest]; [done|].
    destruct (frame_lookup f (set_timers rest a) Hlog) as [H1 H2].
    destruct (settled_lookup _ H1 H2) as [H3 H4]. split; [|done].
    eapply selection_valid_ext; [|exact Hvalid].
    unfold settled. rewrite selection_of_result.
    transitivity (selection (set_timers rest a)); [|reflexivity].
    apply (frame_keeps E _ selection); try done.
    intros cb a'. by apply (run_callback_keeps E _ selection).
  - unfold on_prev. destruct (current_opening a) eqn:Ho; [|done].
    destruct (current_variation_idx a) eqn:Hv; [|done].
    destruct (play_move_sequence_to_lookup (current_move_index a - 1) a Hvalid Hlog)
      as [H1 H2].
    destruct (settled_lookup _ H1 H2) as [H3 H4]. split; [|done].
    eapply selection_valid_ext; [|exact Hvalid].
    unfold settled. rewrite selection_of_result.
    by apply (play_move_sequence_to_keeps E _ selection).
  - unfold on_next. destruct (current_opening a) eqn:Ho; [|done].
    destruct (current_variation_idx a) eqn:Hv; [|done].
    destruct (play_move_sequence_to_lookup (current_move_index a + 1) a Hvalid Hlog)
      as [H1 H2].
    destruct (settled_lookup _ H1 H2) as [H3 H4]. split; [|done].
    eapply selection_valid_ext; [|exact Hvalid].
    unfold settled. rewrite selection_of_result.
    by apply (play_move_sequence_to_keeps E _ selection).
  - (* a variation of the tree *)
    cbn [from_tree] in Htree.
    apply from_tree_variation in Htree as (vars & var & Hm & Hvar).
    assert (forall a', app_openings a' = app_openings a ->
              get_variation o v a' = inr var) as Hget.
    { intros a' Ha'. unfold get_variation. by rewrite Ha', Hm, Hvar. }
    unfold open_variation. rewrite Hget by reflexivity.
    cbn [settled]. split; [|done].
    intros o' [= <-]. exists v, var. split; [done|]. by apply Hget.
  - (* a move of the tree *)
    cbn [from_tree] in Htree.
    apply from_tree_move in Htree as (vars & var & Hm & Hvar & _).
    assert (forall a', app_openings a' = app_openings a ->
              get_variation o v a' = inr var) as Hget.
    { intros a' Ha'. unfold get_variation. by rewrite Ha', Hm, Hvar. }
    unfold open_and_jump. rewrite Hm, Hget by reflexivity.
    assert (selection_valid (set_selection (Some o) (Some v) a)) as Hvalid'.
    { intros o' [= <-]. exists v, var. split; [done|]. by apply Hget. }
    destruct (play_move_sequence_to_lookup (mi + 1) _ Hvalid' Hlog) as [H1 H2].
    destruct (settled_lookup _ H1 H2) as [H3 H4]. split; [|done].
    eapply selection_valid_ext; [|exact Hvalid'].
    unfold settled. rewrite selection_of_result.
    by apply (play_move_sequence_to_keeps E _ selection).
  - (* a refresh *)
    cbn [settled]. unfold reload_assets. destruct (parse_assets_out E files).
    split; [|done]. intros o. discriminate.
Qed.

(** X15: as long as the selections are made on rows of the tree, a
    selection never fails: no lookup of an opening or of a variation raises,
    neither in the handler of a selection nor later in a button handler or
    a timer, and whenever an opening is selected so is one of its
    variations.  A click on any row of the tree is then served without
    such an exception. *)
Theorem tree_selections_never_fail images files evs :
  from_tree_run (new_app E images files) evs ->
  let a := run (new_app E images files) evs in
  Forall (fun c => ~ is_lookup_error c) (calls a) /\
  selection_valid a /\
  (forall row, row ∈ tree_rows (app_openings a) -> no_lookup_error (on_tree_select [row] a)).
Proof.
  intros Hevs a.
  assert (selection_valid a /\ Forall (fun c => ~ is_lookup_error c) (calls a))
    as [Hvalid Hlog].
  { subst a.
    assert (selection_valid (new_app E images files) /\
            Forall (fun c => ~ is_lookup_error c) (calls (new_app E images files))) as H0.
    { unfold new_app. destruct (parse_assets_out E files). split; [|done].
      intros o. discriminate. }
    revert Hevs H0. generalize (new_app E images files).
    induction evs as [|ev evs IH]; intros a0 Hevs [Hv Hl]; [done|].
    destruct Hevs as [Hev Hevs]. cbn [run fold_left]. apply IH; [done|].
    change (handle a0 ev) with (settled (dispatch ev a0)).
    destruct (dispatch_valid ev a0 Hev Hv Hl) as (? & ? & _). done. }
  split; [done|]. split; [done|].
  intros [text [|o v|o v mi]] Hrow; cbn [on_tree_select row_values].
  - done.
  - apply (dispatch_valid (SelectVariation o v) a); [|done|done].
    cbn [from_tree]. apply list_elem_of_fmap.
    by exists (mkTreeRow text (VariationValues o v)).
  - apply (dispatch_valid (SelectMove o v mi) a); [|done|done].
    cbn [from_tree]. apply list_elem_of_fmap.
    by exists (mkTreeRow text (MoveValues o v mi)).
Qed.

End Selections.


Section FurtherExamples.

Import MiniChess Samples.

Lemma going_back_shows_the_position_witness :
  exists a1 last,
    play_move_sequence_to 1 after_A = Ok a1 /\
    current_move_index a1 = Z.max 0 (Z.min 1 (Z.of_nat (length (moves_uci line_A)))) /\
    status a1 = StatusAt (Some "Open") (name line_A)
                  (Z.max 0 (Z.min 1 (Z.of_nat (length (moves_uci line_A)))))
                  (Z.of_nat (length (moves_uci line_A))) /\
    (if Z.max 0 (Z.min 1 (Z.of_nat (length (moves_uci line_A)))) >? 0
     then exists u,
            moves_uci line_A
              !! Z.to_nat (Z.max 0 (Z.min 1 (Z.of_nat (length (moves_uci line_A)))) - 1)
            = Some u /\
            last = Some (from_square engine (from_uci engine u),
                         to_square engine (from_uci engine u))
     else last = None) /\
    displays (board_canvas a1)
      (replay engine start_fen
         (take (Z.to_nat (Z.max 0 (Z.min 1 (Z.of_nat (length (moves_uci line_A))))))
            (moves_uci line_A))) last.
Proof.
  apply (going_back_shows_the_position engine after_A "Open" 0 line_A start_fen
           (tl (states_fen line_A)) 1).
  - vm_compute. reflexivity.
  - vm_compute. reflexivity.
  - vm_compute. reflexivity.
  - reflexivity.
  - apply (run_canvas_ok engine false [two_lines] (SelectMove "Open" 0 1 :: repeat Timer 50)).
  - vm_compute. reflexivity.
Defined.


Lemma tree_selections_never_fail_witness :
  let a := run (new_app engine false [two_lines])
             [SelectVariation "Open" 1; ClickNext; SelectMove "Open" 0 1] in
  Forall (fun c => ~ is_lookup_error c) (calls a) /\
  selection_valid a /\
  (forall row, row ∈ tree_rows (app_openings a) -> no_lookup_error (on_tree_select [row] a)).
Proof.
  apply (tree_selections_never_fail engine false [two_lines]
           [SelectVariation "Open" 1; ClickNext; SelectMove "Open" 0 1]).
  cbn [from_tree_run from_tree].
  split; [apply (bool_decide_unpack _); vm_compute; exact I|].
  split; [exact I|].
  split; [apply (bool_decide_unpack _); vm_compute; exact I|].
  exact I.
Defined.

Lemma initial_position_is_shown_witness :
  let a := run (new_app engine false [two_lines]) [SelectVariation "Open" 0; ClickNext] in
  shown (board_canvas a) !! 161 = Some (PieceItem false (mkPiece PAWN true) 7400 10472) /\
  ~ registered (board_canvas a) 161 /\
  shown (board_canvas (handle a (Refresh [two_lines]))) !! 161
  = Some (PieceItem false (mkPiece PAWN true) 7400 10472) /\
  shown (board_canvas (handle a (SelectVariation "Open" 1))) !! 161
  = Some (PieceItem false (mkPiece PAWN true) 7400 10472).
Proof.
  pose proof (initial_position_is_shown engine false [two_lines]
                [SelectVariation "Open" 0; ClickNext]) as H.
  cbv zeta in H. destruct H as (_ & _ & _ & Hrefresh & Hselect).
  intros a.
  assert (shown (board_canvas a) !! 161
          = Some (PieceItem false (mkPiece PAWN true) 7400 10472)) as Hclone
    by (vm_compute; reflexivity).
  assert (161 < next_id (board_canvas a)) as Hid by (vm_compute; reflexivity).
  assert (~ registered (board_canvas a) 161) as Hnot.
  { assert (bool_decide (161 ∈ (map_to_list (images_on_board (board_canvas a))).*2) = false)
      as Hi by (vm_compute; reflexivity).
    assert (bool_decide (161 ∈ (map_to_list (text_items (board_canvas a))).*2) = false)
      as Ht by (vm_compute; reflexivity).
    assert (arrow_item (board_canvas a) = None) as Ha by (vm_compute; reflexivity).
    assert (check_item (board_canvas a) = None) as Hc by (vm_compute; reflexivity).
    apply bool_decide_eq_false in Hi, Ht.
    intros [Hr | [Hr | [Hr | Hr]]].
    - by apply Hi, values_elem.
    - by apply Ht, values_elem.
    - congruence.
    - congruence. }
  split; [exact Hclone|]. split; [exact Hnot|].
  split.
  - rewrite <- Hclone. exact (Hrefresh [two_lines] 161 Hid Hnot).
  - rewrite <- Hclone. exact (Hselect "Open" 1 161 Hid Hnot).
Defined.

End FurtherExamples.


(* ===================================================================== *)
(** * Header lines *)
(* ===================================================================== *)

Section Headers.

Variable E : RulesEngine.

Lemma rstrip_by_last p m d :
  p d = false ->
  PyStr.rstrip_by p (m +:+ String d EmptyString) = m +:+ String d EmptyString.
Proof.
  intros Hd. induction m as [|c r IH].
  - change (PyStr.rstrip_by p (String d EmptyString) = String d EmptyString).
    cbn. by rewrite Hd.
  - change (String c r +:+ String d EmptyString)
      with (String c (r +:+ String d EmptyString)).
    cbn [PyStr.rstrip_by]. rewrite IH. by destruct r.
Qed.

Lemma strip_keeps c r m d :
  String c r = m +:+ String d EmptyString ->
  PyStr.is_space c = false -> PyStr.is_space d = false ->
  PyStr.strip (String c r) = String c r.
Proof.
  intros Heq Hc Hd. unfold PyStr.strip. cbn [PyStr.lstrip_by]. rewrite Hc, Heq.
  by apply rstrip_by_last.
Qed.

Lemma flush_cur_opening st : cur_opening (flush_variation E st) = cur_opening st.
Proof.
  unfold flush_variation. destruct (cur_opening st) as [o|] eqn:Ho; [|done].
  destruct (cur_variation st); [|done]. destruct (PyStr.is_empty _); [done|].
  by destruct (build_variation E o _ _).
Qed.

Lemma header_name_of stars n c r m d :
  n = String c r -> n = m +:+ String d EmptyString ->
  PyStr.is_space c = false -> c <> "*"%char ->
  PyStr.is_space d = false -> d <> ":"%char ->
  str_forall (fun x => PyStr.mem_char x "* ") stars = true ->
  header_name (stars +:+ n +:+ ":") = n.
Proof.
  intros Hn Hm Hc Hstar Hd Hcolon Hstars. unfold header_name.
  assert (PyStr.lstrip_chars "* " (stars +:+ n +:+ ":") = n +:+ ":") as ->.
  { unfold PyStr.lstrip_chars. clear Hm. induction stars as [|x xs IH].
    - subst n. change (EmptyString +:+ String c r +:+ ":") with (String c (r +:+ ":")).
      cbn [PyStr.lstrip_by PyStr.mem_char].
      destruct (Ascii.eqb_spec c "*"%char) as [?|_]; [done|].
      destruct (Ascii.eqb_spec c " "%char) as [->|_]; [discriminate Hc|]. done.
    - cbn [str_forall] in Hstars. apply andb_prop in Hstars as [Hx Hxs].
      change (String x xs +:+ n +:+ ":") with (String x (xs +:+ n +:+ ":")).
      cbn [PyStr.lstrip_by]. rewrite Hx. by apply IH. }
  assert (PyStr.strip (n +:+ ":") = n +:+ ":") as ->.
  { subst n. change (String c r +:+ ":") with (String c (r +:+ ":")).
    apply (strip_keeps c (r +:+ ":") (String c r) ":"%char); done. }
  unfold PyStr.rstrip_chars. rewrite (rstrip_by_app_all _ n ":") by done.
  rewrite Hm. apply rstrip_by_last. cbn [PyStr.mem_char].
  destruct (Ascii.eqb_spec d ":"%char) as [?|_]; done.
Qed.

(** X16: a header line is read back: for a name that starts with neither
    a star nor white space and ends with neither a colon nor white space,
    the line made of two stars, a space, the name and a colon sets the
    current opening to that name and closes the variation, and the same
    line with one star sets the current variation to the name and keeps the
    opening. *)
Theorem header_names_are_read_back st n c r m d :
  n = String c r -> n = m +:+ String d EmptyString ->
  PyStr.is_space c = false -> c <> "*"%char ->
  PyStr.is_space d = false -> d <> ":"%char ->
  locals (process_line E st ("** " +:+ n +:+ ":")) = (Some n, None, []) /\
  locals (process_line E st ("* " +:+ n +:+ ":")) = (cur_opening st, Some n, []).
Proof.
  intros Hn Hm Hc Hstar Hd Hcolon.
  assert (forall stars x xs, stars = String x xs -> PyStr.is_space x = false ->
            PyStr.strip (stars +:+ n +:+ ":") = stars +:+ n +:+ ":") as Hstrip.
  { intros stars x xs -> Hx.
    change (String x xs +:+ n +:+ ":") with (String x (xs +:+ n +:+ ":")).
    apply (strip_keeps x _ (String x (xs +:+ n)) ":"%char); [|done|done].
    change (String x (xs +:+ n) +:+ ":") with (String x ((xs +:+ n) +:+ ":")).
    f_equal. clear. induction xs as [|y ys IH]; [done|].
    change (String y ys +:+ n +:+ ":") with (String y (ys +:+ n +:+ ":")).
    change ((String y ys +:+ n) +:+ ":") with (String y ((ys +:+ n) +:+ ":")).
    by rewrite IH. }
  split.
  - unfold process_line. rewrite (Hstrip "** " "*"%char "* ") by done.
    change (PyStr.startswith "**" ("** " +:+ n +:+ ":")) with true. cbn iota.
    unfold locals. cbn [cur_opening cur_variation cur_moves_lines].
    by rewrite (header_name_of "** " n c r m d).
  - unfold process_line. rewrite (Hstrip "* " "*"%char " ") by done.
    change (PyStr.startswith "**" ("* " +:+ n +:+ ":")) with false.
    change (PyStr.startswith "*" ("* " +:+ n +:+ ":")) with true. cbn iota.
    unfold locals. cbn [cur_opening cur_variation cur_moves_lines].
    by rewrite (header_name_of "* " n c r m d), flush_cur_opening.
Qed.

End Headers.

Lemma header_names_are_read_back_witness :
  locals (process_line MiniChess.engine (mkPState ∅ [] None None [])
            ("** " +:+ "Caro-Kann Defence" +:+ ":"))
  = (Some "Caro-Kann Defence", None, []) /\
  locals (process_line MiniChess.engine (mkPState ∅ [] None None [])
            ("* " +:+ "Caro-Kann Defence" +:+ ":"))
  = (cur_opening (mkPState ∅ [] None None []), Some "Caro-Kann Defence", []).
Proof.
  apply (header_names_are_read_back MiniChess.engine (mkPState ∅ [] None None [])
           "Caro-Kann Defence" "C"%char "aro-Kann Defence" "Caro-Kann Defenc" "e"%char);
    try reflexivity; discriminate.
Defined.


(* ===================================================================== *)
(** * The captured piece during the animation *)
(* ===================================================================== *)

Section Capture.

Variable E : RulesEngine.

Implicit Types (a : App E) (c : Canvas E) (f : Frame E).

Lemma remove_piece_items_self sq c : on_canvas sq (remove_piece_items sq c) = false.
Proof.
  unfold remove_piece_items, on_canvas.
  destruct (images_on_board c !! sq) as [i|] eqn:Hi; cbn [text_items set_images tk_delete].
  - destruct (text_items c !! sq) as [t|] eqn:Ht;
      cbn [images_on_board text_items set_images set_texts tk_delete];
      rewrite ?lookup_delete_eq, ?Ht; apply orb_false_iff; split;
        apply bool_decide_eq_false_2; by intros [? ?].
  - destruct (text_items c !! sq) as [t|] eqn:Ht;
      cbn [images_on_board text_items set_images set_texts tk_delete];
      rewrite ?lookup_delete_eq, ?Hi, ?Ht; apply orb_false_iff; split;
        apply bool_decide_eq_false_2; by intros [? ?].
Qed.

(** One frame before the last: the squares on record after it. *)
Lemma frame_tick_squares invoke f a sq :
  fr_i f < ANIM_FRAMES -> fr_captured_item_sq f = Some sq ->
  exists a' f',
    frame invoke f a = Ok (set_timers (timers a ++ [f']) a') /\
    timers a' = timers a /\
    fr_i f' = fr_i f + 1 /\ fr_captured_item_sq f' = Some sq /\
    on_canvas sq (board_canvas a')
    = (if fr_i f =? 12 then false else on_canvas sq (board_canvas a)) /\
    (forall sq', sq' <> sq ->
       on_canvas sq' (board_canvas a') = on_canvas sq' (board_canvas a)).
Proof.
  intros Hi Hcap. unfold frame.
  destruct (centre (fr_from_sq f)) as [fx fy], (centre (fr_to_sq f)) as [tx ty].
  destruct (Z.geb_spec (fr_i f) ANIM_FRAMES) as [?|_]; [lia|].
  rewrite Hcap. change (ANIM_FRAMES / 2) with 12.
  destruct (fr_i f =? 12); eexists _, _; (split; [reflexivity|]);
    cbn [timers with_canvas board_canvas fr_i fr_captured_item_sq].
  - repeat split; try done.
    + apply remove_piece_items_self.
    + intros sq' Hne. by rewrite remove_piece_items_other.
  - by repeat split.
Qed.

Lemma frames_and_capture (j : nat) : forall f a sq,
  timers a = [f] -> fr_captured_item_sq f = Some sq ->
  fr_i f + Z.of_nat j <= ANIM_FRAMES ->
  let a' := run a (repeat Timer j) in
  on_canvas sq (board_canvas a')
  = (if (fr_i f <=? 12) && (12 <? fr_i f + Z.of_nat j) then false
     else on_canvas sq (board_canvas a)) /\
  (forall sq', sq' <> sq ->
     on_canvas sq' (board_canvas a') = on_canvas sq' (board_canvas a)) /\
  length (timers a') = 1%nat.
Proof.
  induction j as [|j IH]; intros f a sq Ht Hcap Hj a'.
  { subst a'. cbn [repeat run fold_left]. rewrite Z.add_0_r, Ht.
    split; [|split; [intros; reflexivity | reflexivity]].
    destruct (Z.leb_spec (fr_i f) 12), (Z.ltb_spec 12 (fr_i f)); try done. lia. }
  subst a'.
  destruct (frame_tick_squares run_callback f (set_timers [] a) sq)
    as (a1 & f1 & Hf & Ht1 & Hi1 & Hcap1 & Hsq & Hother); [lia|done|].
  assert (handle a Timer = set_timers [f1] a1) as Hh.
  { unfold handle. cbn [dispatch]. rewrite Ht, Hf. reflexivity. }
  cbn [repeat run fold_left]. rewrite Hh.
  fold (run (set_timers [f1] a1) (repeat Timer j)).
  assert (timers (set_timers [f1] a1) = [f1]) as Ht2 by done.
  destruct (IH f1 (set_timers [f1] a1) sq Ht2 Hcap1) as (H1 & H2 & H3); [lia|].
  split; [|split; [|exact H3]].
  - rewrite H1. cbn [board_canvas set_timers] in *. rewrite Hsq, Hi1.
    replace (fr_i f + Z.of_nat (S j)) with (fr_i f + 1 + Z.of_nat j) by lia.
    destruct (Z.eqb_spec (fr_i f) 12) as [Heq|Hne].
    + rewrite Heq. change (12 + 1 <=? 12) with false. change (12 <=? 12) with true.
      cbn [andb]. destruct (Z.ltb_spec 12 (12 + 1 + Z.of_nat j)); [done|lia].
    + destruct (Z.leb_spec (fr_i f + 1) 12), (Z.leb_spec (fr_i f) 12),
        (Z.ltb_spec 12 (fr_i f + 1 + Z.of_nat j)); cbn [andb]; try done; lia.
  - intros sq' Hne. rewrite H2 by done. cbn [board_canvas set_timers] in *. by apply Hother.
Qed.

(** X17: while a capture is animated, the captured piece stays on record
    for the first frames and goes with frame 12, about half-way: after
    [j] timers of a session that is at frame [i <= 12], it is still there
    when [i + j <= 12] and gone otherwise; the other squares keep what they
    have until the last frame. *)
Theorem captured_piece_leaves_half_way (j : nat) f a sq :
  timers a = [f] -> fr_captured_item_sq f = Some sq ->
  0 <= fr_i f <= 12 -> fr_i f + Z.of_nat j <= ANIM_FRAMES ->
  let a' := run a (repeat Timer j) in
  on_canvas sq (board_canvas a')
  = (if fr_i f + Z.of_nat j <=? 12 then on_canvas sq (board_canvas a) else false) /\
  (forall sq', sq' <> sq ->
     on_canvas sq' (board_canvas a') = on_canvas sq' (board_canvas a)).
Proof.
  intros Ht Hcap Hi Hj a'.
  destruct (frames_and_capture j f a sq Ht Hcap Hj) as (H1 & H2 & _).
  fold a' in H1, H2. split; [|done]. rewrite H1.
  destruct (Z.leb_spec (fr_i f) 12); [|lia].
  destruct (Z.ltb_spec 12 (fr_i f + Z.of_nat j)), (Z.leb_spec (fr_i f + Z.of_nat j) 12);
    cbn; try done; lia.
Qed.

End Capture.


Section CaptureExample.

Import MiniChess Samples.

(** Line [B] played up to its capture [exd5], one frame into it: the pawn on
    d5 (square 35) is there for eleven more timers and gone with the
    twelfth. *)
Lemma captured_piece_leaves_half_way_witness :
  let a := run ready_B (SelectMove "Open" 1 2 :: repeat Timer 50) in
  on_canvas 35 (board_canvas (run a (repeat Timer 11))) = on_canvas 35 (board_canvas a) /\
  on_canvas 35 (board_canvas (run a (repeat Timer 12))) = false.
Proof.
  intros a.
  assert (fr_i <$> timers a = [1]) as Hi by (vm_compute; reflexivity).
  assert (fr_captured_item_sq <$> timers a = [Some 35]) as Hc by (vm_compute; reflexivity).
  clearbody a.
  destruct (timers a) as [|f [|f' rest]] eqn:Ht; try discriminate.
  injection Hi as Hi. injection Hc as Hc.
  split.
  - destruct (captured_piece_leaves_half_way engine 11 f a 35 Ht Hc) as [H _].
    + lia.
    + rewrite Hi. unfold ANIM_FRAMES. lia.
    + rewrite H, Hi. reflexivity.
  - destruct (captured_piece_leaves_half_way engine 12 f a 35 Ht Hc) as [H _].
    + lia.
    + rewrite Hi. unfold ANIM_FRAMES. lia.
    + rewrite H, Hi. reflexivity.
Defined.

End CaptureExample.


(* ===================================================================== *)
(** * The piece images *)
(* ===================================================================== *)

Section Images.

Lemma piece_code_total p :
  dict_get PIECE_CODE (piece_type p, color p) = Some (code_of p).
Proof. by destruct p as [[] []]. Qed.

Lemma codes_are_the_pieces e :
  e ∈ PIECE_CODE <-> exists p : Piece, e = (piece_type p, color p, code_of p).
Proof.
  split.
  - unfold PIECE_CODE. rewrite !elem_of_cons, elem_of_nil.
    intros H. repeat (destruct H as [-> | H]); [..|done];
      match goal with |- context [(?t, ?c, _)] => by exists (mkPiece t c) end.
  - intros ([[] []] & ->); unfold PIECE_CODE, code_of; cbn;
      rewrite !elem_of_cons; tauto.
Qed.


End Images.
